(** * B-UML structural metamodel: entity graph and integrity engine

    A shallow embedding of [besser/BUML/metamodel/structural/structural.py].

    Python objects live in one heap, an arena indexed by object identity.
    Every attribute that holds another object holds its identity, so the
    aliasing of the source (a class shared by several generalizations, an
    end shared by several associations) is the aliasing of the model.
    A Python [set] is a list of identities: the order of the list is the
    order in which the set is iterated, about which the language promises
    nothing, so statements about sets speak of membership only.
    Methods that mutate are functions in a monad that threads the heap and
    may raise; the heap reached when an exception is raised is the heap as
    the method left it, exactly as in Python.

    Fields that are stored and never inspected by any method ([timestamp],
    [synonyms], [default_value]) are left out of the records, and the
    visibility is kept for the typed elements, whose constructors take
    it.  An [AssociationClass] is a [Class] for every method below. *)

From stdpp Require Import base tactics option list strings relations gmap.
From Stdlib Require Import Lia ZArith.

(** ** Object identities and the heap *)

Abbreviation oid := nat (only parsing).

(** The three nominal classes [Type], [DataType] and [PrimitiveDataType]
    carry a name and nothing else. *)
Inductive TypeKind := KType | KDataType | KPrimitiveDataType.

Record ClassObj := mkClass {
  c_name : string;
  c_attributes : list oid;
  c_methods : list oid;
  c_is_abstract : bool;
  c_is_read_only : bool;
  c_associations : list oid;
  c_generalizations : list oid
}.

Record PropertyObj := mkProperty {
  p_name : string;
  p_visibility : string;
  p_type : oid;
  p_owner : option oid;
  p_multiplicity : oid;
  p_is_composite : bool;
  p_is_navigable : bool;
  p_is_id : bool;
  p_is_read_only : bool
}.

Record MethodObj := mkMethod {
  m_name : string;
  m_visibility : string;
  m_type : oid;
  m_is_abstract : bool;
  m_parameters : list oid;
  m_owner : option oid;
  m_code : string
}.

Record DomainModelObj := mkDomainModel {
  dm_name : string;
  dm_types : list oid;
  dm_associations : list oid;
  dm_generalizations : list oid;
  dm_packages : list oid;
  dm_constraints : list oid
}.

(** An attribute assigned by a setter that reads it first through
    [hasattr] is optional: [None] is the attribute not yet assigned. *)
Inductive Obj :=
| OType (k : TypeKind) (name : string)
| OEnumeration (name : string) (literals : list oid)
| OClass (c : ClassObj)
| OEnumerationLiteral (name : string) (owner : option oid)
| OMultiplicity (min max : Z)
| OProperty (p : PropertyObj)
| OParameter (name visibility : string) (type : oid)
| OMethod (m : MethodObj)
| OAssociation (binary : bool) (name : string) (ends : option (list oid))
| OGeneralization (general specific : option oid)
| OPackage (name : string) (classes : list oid)
| OConstraint (name : string) (context : oid) (expression language : string)
| ODomainModel (m : DomainModelObj).

Abbreviation Heap := (list Obj) (only parsing).

(** ** Exceptions and the heap monad *)

(** Every validation failure of the source is a [ValueError]; the tag is
    the kind of failure in the taxonomy of the specification. *)
Inductive ErrorKind :=
| InvalidValue | InvalidPrimitiveType | DuplicateName | MultipleIdentifiers
| InvalidOwner | SelfGeneralization | ArityViolation.

Inductive Exception :=
| ValueError (k : ErrorKind)
| AttributeError
| KeyError
| RecursionError.

Inductive Outcome (A : Type) :=
| Return (a : A)
| Raise (e : Exception).
Arguments Return {A} a.
Arguments Raise {A} e.

Definition Py (A : Type) : Type := Heap → Outcome A * Heap.

Definition ret {A} (a : A) : Py A := λ h, (Return a, h).
Definition raise {A} (e : Exception) : Py A := λ h, (Raise e, h).
Definition bind {A B} (m : Py A) (k : A → Py B) : Py B :=
  λ h, match m h with
       | (Return a, h') => k a h'
       | (Raise e, h') => (Raise e, h')
       end.

(** Reading the heap without changing it. *)
Definition obind {A B} (m : Outcome A) (k : A → Outcome B) : Outcome B :=
  match m with Return a => k a | Raise e => Raise e end.
Definition read {A} (f : Heap → Outcome A) : Py A := λ h, (f h, h).

Declare Scope py_scope.
Delimit Scope py_scope with py.
Notation "x <- m ;; k" := (bind m (λ x, k))
  (at level 100, m at next level, right associativity, only parsing) : py_scope.
Notation "m ;; k" := (bind m (λ _, k))
  (at level 100, right associativity, only parsing) : py_scope.
Declare Scope out_scope.
Delimit Scope out_scope with out.
Notation "x <- m ;; k" := (obind m (λ x, k))
  (at level 100, m at next level, right associativity, only parsing) : out_scope.

(** A new object: its identity is the next free index of the arena. *)
Definition alloc (o : Obj) : Py oid := λ h, (Return (length h), h ++ [o]).

(** [for x in xs: body(x)] *)
Fixpoint for_ {A} (xs : list A) (body : A → Py unit) : Py unit :=
  match xs with
  | [] => ret tt
  | x :: xs' => bind (body x) (λ _, for_ xs' body)
  end.

(** A loop that only reads the heap and updates local variables [b]. *)
Fixpoint ofoldl {A B} (f : B → A → Outcome B) (b : B) (xs : list A)
  : Outcome B :=
  match xs with
  | [] => Return b
  | x :: xs' => obind (f b x) (λ b', ofoldl f b' xs')
  end.

(** A list comprehension [[f(x) for x in xs]]. *)
Fixpoint omapM {A B} (f : A → Outcome B) (xs : list A) : Outcome (list B) :=
  match xs with
  | [] => Return []
  | x :: xs' =>
      obind (f x) (λ y, obind (omapM f xs') (λ ys, Return (y :: ys)))
  end.

(** ** Python sets *)

Module PySet.
Section ops.
Context {A : Type} `{EqDecision A}.
(** [s.add(x)] *)
Definition add (x : A) (s : list A) : list A :=
  if decide (x ∈ s) then s else s ++ [x].
(** [s.discard(x)] *)
Definition discard (x : A) (s : list A) : list A :=
  filter (λ y, y ≠ x) s.
(** [s.update(t)], and [s | t] which updates a copy of [s] *)
Definition update (s t : list A) : list A :=
  foldl (λ acc x, add x acc) s t.
(** [set(xs)] *)
Definition of_list (xs : list A) : list A := update [] xs.
End ops.
End PySet.

(** ** Attribute access *)

Definition get_class (h : Heap) (c : oid) : Outcome ClassObj :=
  match h !! c with
  | Some (OClass cls) => Return cls
  | _ => Raise AttributeError
  end.

Definition get_generalization (h : Heap) (g : oid)
  : Outcome (option oid * option oid) :=
  match h !! g with
  | Some (OGeneralization general specific) => Return (general, specific)
  | _ => Raise AttributeError
  end.

Definition set_c_associations (cls : ClassObj) (s : list oid) : ClassObj :=
  mkClass (c_name cls) (c_attributes cls) (c_methods cls) (c_is_abstract cls)
          (c_is_read_only cls) s (c_generalizations cls).

Definition set_c_generalizations (cls : ClassObj) (s : list oid) : ClassObj :=
  mkClass (c_name cls) (c_attributes cls) (c_methods cls) (c_is_abstract cls)
          (c_is_read_only cls) (c_associations cls) s.

Definition set_c_attributes (cls : ClassObj) (s : list oid) : ClassObj :=
  mkClass (c_name cls) s (c_methods cls) (c_is_abstract cls)
          (c_is_read_only cls) (c_associations cls) (c_generalizations cls).

(** Applying a method of [Class] to an object that is not a class is an
    [AttributeError]. *)
Definition update_class (self : oid) (f : ClassObj → ClassObj) : Py unit :=
  λ h, match h !! self with
       | Some (OClass cls) => (Return tt, <[self := OClass (f cls)]> h)
       | _ => (Raise AttributeError, h)
       end.

(** [Class._add_association], [Class._delete_association],
    [Class._add_generalization], [Class._delete_generalization] *)
Definition Class_add_association (self association : oid) : Py unit :=
  update_class self
    (λ cls, set_c_associations cls (PySet.add association (c_associations cls))).

Definition Class_delete_association (self association : oid) : Py unit :=
  update_class self
    (λ cls, set_c_associations cls (PySet.discard association (c_associations cls))).

Definition Class_add_generalization (self generalization : oid) : Py unit :=
  update_class self
    (λ cls, set_c_generalizations cls
              (PySet.add generalization (c_generalizations cls))).

Definition Class_delete_generalization (self generalization : oid) : Py unit :=
  update_class self
    (λ cls, set_c_generalizations cls
              (PySet.discard generalization (c_generalizations cls))).

(** ** Generalization *)

Definition update_generalization (self : oid)
    (f : option oid * option oid → option oid * option oid) : Py unit :=
  λ h, match h !! self with
       | Some (OGeneralization general specific) =>
           let '(general', specific') := f (general, specific) in
           (Return tt, <[self := OGeneralization general' specific']> h)
       | _ => (Raise AttributeError, h)
       end.

(** The [general] setter: [hasattr(self, "general")] holds once the
    attribute has been assigned. *)
Definition Generalization_set_general (self general : oid) : Py unit :=
  (gs <- read (λ h, get_generalization h self) ;;
   match gs.1 with
   | Some old => Class_delete_generalization old self
   | None => ret tt
   end ;;
   Class_add_generalization general self ;;
   update_generalization self (λ gs, (Some general, gs.2)))%py.

(** The [specific] setter.  Reading [self.general] before it was ever
    assigned is an [AttributeError]. *)
Definition Generalization_set_specific (self specific : oid) : Py unit :=
  (gs <- read (λ h, get_generalization h self) ;;
   match gs.1 with
   | None => raise AttributeError
   | Some general =>
       if decide (specific = general) then raise (ValueError SelfGeneralization)
       else
         match gs.2 with
         | Some old => Class_delete_generalization old self
         | None => ret tt
         end ;;
         Class_add_generalization specific self ;;
         update_generalization self (λ gs, (gs.1, Some specific))
   end)%py.

(** [Generalization.__init__]: the object exists, with no attribute yet,
    when the two setters run in turn. *)
Definition Generalization_init (general specific : oid) : Py oid :=
  (self <- alloc (OGeneralization None None) ;;
   Generalization_set_general self general ;;
   Generalization_set_specific self specific ;;
   ret self)%py.

(** ** Named elements *)

(** [x.name], for every subclass of [NamedElement]. *)
Definition get_name (h : Heap) (i : oid) : Outcome string :=
  match h !! i with
  | Some (OType _ n) | Some (OEnumeration n _) | Some (OEnumerationLiteral n _)
  | Some (OParameter n _ _) | Some (OAssociation _ n _) | Some (OPackage n _)
  | Some (OConstraint n _ _ _) => Return n
  | Some (OClass c) => Return (c_name c)
  | Some (OProperty p) => Return (p_name p)
  | Some (OMethod m) => Return (m_name m)
  | Some (ODomainModel m) => Return (dm_name m)
  | _ => Raise AttributeError
  end.

Definition names_of (h : Heap) (xs : list oid) : Outcome (list string) :=
  omapM (get_name h) xs.

(** The scan shared by the bulk setters:
    [if x.name in names_seen: duplicates.add(x.name)]
    [names_seen.add(x.name)]. Returns [(names_seen, duplicates)]. *)
Definition scan_names (names : list string) : list string * list string :=
  foldl (λ '(names_seen, duplicates) n,
           ((PySet.add n names_seen),
            (if decide (n ∈ names_seen) then PySet.add n duplicates
             else duplicates)))
        ([], []) names.

Definition has_duplicates (names : list string) : bool :=
  bool_decide ((scan_names names).2 ≠ []).

(** The check of the setters that compare
    [len(names) != len(set(names))]. *)
Definition len_differs (names : list string) : bool :=
  bool_decide (length names ≠ length (PySet.of_list names)).

(** [visibility not in ["public", "private", "protected", "package"]] *)
Definition valid_visibility (v : string) : bool :=
  bool_decide (v ∈ ["public"; "private"; "protected"; "package"]%string).

(** ** The primitive type registry *)

(** The eight module-level singletons, and the [Multiplicity(1, 1)] that
    is the default argument of [Property.__init__], are created when the
    module is loaded: they are the first objects of every heap. *)
Definition StringType : oid := 0.
Definition IntegerType : oid := 1.
Definition FloatType : oid := 2.
Definition BooleanType : oid := 3.
Definition TimeType : oid := 4.
Definition DateType : oid := 5.
Definition DateTimeType : oid := 6.
Definition TimeDeltaType : oid := 7.
Definition default_multiplicity : oid := 8.

Definition primitive_data_types : list oid :=
  [StringType; IntegerType; FloatType; BooleanType;
   TimeType; DateType; DateTimeType; TimeDeltaType].

Definition module_heap : Heap :=
  [OType KPrimitiveDataType "str"; OType KPrimitiveDataType "int";
   OType KPrimitiveDataType "float"; OType KPrimitiveDataType "bool";
   OType KPrimitiveDataType "time"; OType KPrimitiveDataType "date";
   OType KPrimitiveDataType "datetime"; OType KPrimitiveDataType "timedelta";
   OMultiplicity 1 1].

(** The names accepted by the [PrimitiveDataType.name] setter. *)
Definition primitive_names : list string :=
  ["int"; "float"; "str"; "bool"; "time"; "date"; "datetime"; "timedelta"]%string.

(** [TypedElement.type_mapping] *)
Definition type_mapping : gmap string oid :=
  list_to_map
    [("str", StringType); ("string", StringType); ("int", IntegerType);
     ("float", FloatType); ("bool", BooleanType); ("time", TimeType);
     ("date", DateType); ("datetime", DateTimeType);
     ("timedelta", TimeDeltaType)]%string.

(** ** isinstance *)

Definition isinstance_Type (h : Heap) (i : oid) : bool :=
  match h !! i with
  | Some (OType _ _) | Some (OEnumeration _ _) | Some (OClass _) => true
  | _ => false
  end.

Definition isinstance_DataType (h : Heap) (o : option oid) : bool :=
  match o with
  | Some i =>
      match h !! i with
      | Some (OType KDataType _) | Some (OType KPrimitiveDataType _)
      | Some (OEnumeration _ _) => true
      | _ => false
      end
  | None => false
  end.

Definition isinstance_PrimitiveDataType (h : Heap) (o : option oid) : bool :=
  match o with
  | Some i =>
      match h !! i with
      | Some (OType KPrimitiveDataType _) => true
      | _ => false
      end
  | None => false
  end.

Definition isinstance_Class (h : Heap) (i : oid) : bool :=
  match h !! i with
  | Some (OClass _) => true
  | _ => false
  end.

(** ** Typed elements *)

(** The [type] argument of a typed element: a [Type] object or a string. *)
Inductive TypeArg := ByRef (t : oid) | ByName (s : string).

(** [TypedElement.__init__]: validates the visibility (in
    [NamedElement.__init__]), then resolves the type; returns the resolved
    type.  The element under construction is referenced by nothing until
    its constructor returns, so it is put on the heap by the constructor
    of the subclass, once all its fields are known.  A string that is not
    a key of [type_mapping] makes a new [Type]. *)
Definition TypedElement_init (type : TypeArg) (visibility : string) : Py oid :=
  if valid_visibility visibility then
    match type with
    | ByRef t =>
        (ok <- read (λ h, Return (isinstance_Type h t)) ;;
         if ok : bool then ret t else raise (ValueError InvalidValue))%py
    | ByName s =>
        match type_mapping !! s with
        | Some t => ret t
        | None => alloc (OType KType s)
        end
    end
  else raise (ValueError InvalidValue).

(** The check of the [owner] setters of [Property] and [Method]. *)
Definition check_owner (owner : option oid) : Py unit :=
  (bad <- read (λ h, Return (isinstance_DataType h owner)) ;;
   if bad : bool then raise (ValueError InvalidOwner) else ret tt)%py.

Definition set_p_owner (p : PropertyObj) (owner : option oid) : PropertyObj :=
  mkProperty (p_name p) (p_visibility p) (p_type p) owner (p_multiplicity p)
             (p_is_composite p) (p_is_navigable p) (p_is_id p)
             (p_is_read_only p).

(** The [Property.owner] setter. *)
Definition Property_set_owner (self : oid) (owner : option oid) : Py unit :=
  (check_owner owner ;;
   λ h, match h !! self with
        | Some (OProperty p) =>
            (Return tt, <[self := OProperty (set_p_owner p owner)]> h)
        | _ => (Raise AttributeError, h)
        end)%py.

(** [Property.__init__] *)
Definition Property_init (name : string) (type : TypeArg) (owner : option oid)
    (multiplicity : oid) (visibility : string)
    (is_composite is_navigable is_id is_read_only : bool) : Py oid :=
  (t <- TypedElement_init type visibility ;;
   check_owner owner ;;
   alloc (OProperty (mkProperty name visibility t owner multiplicity
                       is_composite is_navigable is_id is_read_only)))%py.

(** [Parameter.__init__]: the visibility is the default of
    [TypedElement.__init__]. *)
Definition Parameter_init (name : string) (type : TypeArg) : Py oid :=
  (t <- TypedElement_init type "public" ;;
   alloc (OParameter name "public" t))%py.

(** The [Method.parameters] setter, as run by the constructor: the checked
    collection, or the exception. *)
Definition check_parameters (parameters : option (list oid))
  : Py (list oid) :=
  match parameters with
  | Some ps =>
      (names <- read (λ h, names_of h ps) ;;
       if has_duplicates names then raise (ValueError DuplicateName)
       else ret ps)%py
  | None => ret []
  end.

(** [Method.__init__]: a method without a type is typed by the string
    ["OclVoid"]. *)
Definition Method_init (name visibility : string) (is_abstract : bool)
    (parameters : option (list oid)) (type : option TypeArg)
    (owner : option oid) (code : string) : Py oid :=
  (t <- TypedElement_init (default (ByName "OclVoid") type) visibility ;;
   ps <- check_parameters parameters ;;
   check_owner owner ;;
   alloc (OMethod (mkMethod name visibility t is_abstract ps owner code)))%py.

(** [x.type], for every subclass of [TypedElement]. *)
Definition get_type (h : Heap) (e : oid) : Outcome oid :=
  match h !! e with
  | Some (OProperty p) => Return (p_type p)
  | Some (OParameter _ _ t) => Return t
  | Some (OMethod m) => Return (m_type m)
  | _ => Raise AttributeError
  end.

Definition get_owner (h : Heap) (e : oid) : Outcome (option oid) :=
  match h !! e with
  | Some (OProperty p) => Return (p_owner p)
  | Some (OMethod m) => Return (m_owner m)
  | Some (OEnumerationLiteral _ owner) => Return owner
  | _ => Raise AttributeError
  end.

(** ** Enumeration *)

Definition get_literals (h : Heap) (self : oid) : Outcome (list oid) :=
  match h !! self with
  | Some (OEnumeration _ literals) => Return literals
  | _ => Raise AttributeError
  end.

(** The [EnumerationLiteral.owner] setter. *)
Definition EnumerationLiteral_set_owner (self : oid) (owner : option oid)
  : Py unit :=
  (bad <- read (λ h, Return (isinstance_PrimitiveDataType h owner)) ;;
   if bad : bool then raise (ValueError InvalidOwner)
   else
     λ h, match h !! self with
          | Some (OEnumerationLiteral n _) =>
              (Return tt, <[self := OEnumerationLiteral n owner]> h)
          | _ => (Raise AttributeError, h)
          end)%py.

Definition store_literals (self : oid) (literals : list oid) : Py unit :=
  λ h, match h !! self with
       | Some (OEnumeration n _) =>
           (Return tt, <[self := OEnumeration n literals]> h)
       | _ => (Raise AttributeError, h)
       end.

(** The [Enumeration.literals] setter. *)
Definition Enumeration_set_literals (self : oid) (literals : option (list oid))
  : Py unit :=
  match literals with
  | Some lits =>
      (names <- read (λ h, names_of h lits) ;;
       if len_differs names then raise (ValueError DuplicateName)
       else
         for_ lits (λ literal, EnumerationLiteral_set_owner literal (Some self)) ;;
         store_literals self lits)%py
  | None => store_literals self []
  end.

(** [Enumeration.add_literal].  As for [Class.add_attribute] below, the
    set of literals is kept in the enumeration, and a set object shared
    with another object is not followed. *)
Definition Enumeration_add_literal (self literal : oid) : Py unit :=
  (literals <- read (λ h, get_literals h self) ;;
   name <- read (λ h, get_name h literal) ;;
   names <- read (λ h, names_of h literals) ;;
   if decide (name ∈ names) then raise (ValueError DuplicateName)
   else store_literals self (PySet.add literal literals))%py.

(** ** Class: members *)

(** [Class.add_attribute].  The set of attributes is kept in the class
    object.  When a caller has stored one set object in several objects,
    the source changes it for all of them at once; this definition does
    not follow that, and the statements about the method speak of the
    class and of the property only. *)
Definition Class_add_attribute (self attribute : oid) : Py unit :=
  (cls <- read (λ h, get_class h self) ;;
   name <- read (λ h, get_name h attribute) ;;
   names <- read (λ h, names_of h (c_attributes cls)) ;;
   if decide (name ∈ names) then raise (ValueError DuplicateName)
   else
     Property_set_owner attribute (Some self) ;;
     update_class self
       (λ cls, set_c_attributes cls (PySet.add attribute (c_attributes cls))))%py.

(** ** Association *)

Definition get_association (h : Heap) (a : oid)
  : Outcome (bool * string * option (list oid)) :=
  match h !! a with
  | Some (OAssociation binary name ends) => Return (binary, name, ends)
  | _ => Raise AttributeError
  end.

(** [association.ends]: reading the attribute before it was assigned is an
    [AttributeError]. *)
Definition get_ends (h : Heap) (a : oid) : Outcome (list oid) :=
  match h !! a with
  | Some (OAssociation _ _ (Some ends)) => Return ends
  | _ => Raise AttributeError
  end.

Definition store_ends (self : oid) (ends : list oid) : Py unit :=
  λ h, match h !! self with
       | Some (OAssociation binary name _) =>
           (Return tt, <[self := OAssociation binary name (Some ends)]> h)
       | _ => (Raise AttributeError, h)
       end.

(** The setter of [Association.ends]. *)
Definition Association_ends_fset (self : oid) (ends : list oid) : Py unit :=
  if decide (length ends ≤ 1) then raise (ValueError ArityViolation)
  else
    (a <- read (λ h, get_association h self) ;;
     match a.2 with
     | Some old =>
         for_ old (λ e, t <- read (λ h, get_type h e) ;;
                        Class_delete_association t self)
     | None => ret tt
     end ;;
     for_ ends (λ e, Property_set_owner e (Some self) ;;
                     t <- read (λ h, get_type h e) ;;
                     Class_add_association t self) ;;
     store_ends self ends)%py.

Definition get_is_composite (h : Heap) (e : oid) : Outcome bool :=
  match h !! e with
  | Some (OProperty p) => Return (p_is_composite p)
  | _ => Raise AttributeError
  end.

(** The setter of [BinaryAssociation.ends], which ends in the setter of
    the superclass. *)
Definition BinaryAssociation_ends_fset (self : oid) (ends : list oid)
  : Py unit :=
  match ends with
  | [e0; e1] =>
      (c0 <- read (λ h, get_is_composite h e0) ;;
       c1 <- (if c0 : bool then read (λ h, get_is_composite h e1) else ret false) ;;
       if c0 && c1 then raise (ValueError ArityViolation)
       else Association_ends_fset self ends)%py
  | _ => raise (ValueError ArityViolation)
  end.

(** [self.ends = ends]: the assignment runs the setter of the class of
    [self]. *)
Definition Association_set_ends (self : oid) (ends : list oid) : Py unit :=
  (a <- read (λ h, get_association h self) ;;
   if a.1.1 : bool then BinaryAssociation_ends_fset self ends
   else Association_ends_fset self ends)%py.

(** [Association.__init__] and [BinaryAssociation.__init__] *)
Definition Association_init (binary : bool) (name : string) (ends : list oid)
  : Py oid :=
  (self <- alloc (OAssociation binary name None) ;;
   Association_set_ends self ends ;;
   ret self)%py.

(** ** Class: derived queries *)

(** One turn of the loop of [Class.association_ends]. *)
Definition association_ends_step (h : Heap) (self : oid)
    (ends : list oid) (association : oid) : Outcome (list oid) :=
  (aends <- get_ends h association ;;
   let ends := PySet.update ends aends in
   same <- match aends with
           | [e0; e1] =>
               t0 <- get_type h e0 ;;
               t1 <- get_type h e1 ;;
               Return (bool_decide (t0 = t1))
           | _ => Return false
           end ;;
   if same : bool then Return ends
   else
     ofoldl (λ ends e,
               t <- get_type h e ;;
               Return (if decide (t = self) then PySet.discard e ends
                       else ends))
            ends aends)%out.

(** [Class.association_ends] *)
Definition Class_association_ends (h : Heap) (self : oid)
  : Outcome (list oid) :=
  (cls <- get_class h self ;;
   ofoldl (association_ends_step h self) [] (c_associations cls))%out.

(** [generalization.general] *)
Definition get_general (h : Heap) (g : oid) : Outcome oid :=
  match h !! g with
  | Some (OGeneralization (Some general) _) => Return general
  | _ => Raise AttributeError
  end.

(** [Class.parents] *)
Definition Class_parents (h : Heap) (self : oid) : Outcome (list oid) :=
  (cls <- get_class h self ;;
   ofoldl (λ parents g,
             general <- get_general h g ;;
             Return (if decide (general ≠ self) then PySet.add general parents
                     else parents))
          [] (c_generalizations cls))%out.

(** [Class.all_parents].  The interpreter bounds the depth of the
    recursion: [fuel] is the number of nested calls still allowed, and
    exceeding it raises [RecursionError]. *)
Fixpoint Class_all_parents (fuel : nat) (h : Heap) (self : oid)
  : Outcome (list oid) :=
  match fuel with
  | 0 => Raise RecursionError
  | S fuel' =>
      (ps <- Class_parents h self ;;
       let all_parents := PySet.update [] ps in
       ps' <- Class_parents h self ;;
       ofoldl (λ all_parents parent,
                 r <- Class_all_parents fuel' h parent ;;
                 Return (PySet.update all_parents r))
              all_parents ps')%out
  end.

(** [Class.inherited_attributes] *)
Definition Class_inherited_attributes (fuel : nat) (h : Heap) (self : oid)
  : Outcome (list oid) :=
  (ps <- Class_all_parents fuel h self ;;
   ofoldl (λ inherited parent,
             cls <- get_class h parent ;;
             Return (PySet.update inherited (c_attributes cls)))
          [] ps)%out.

(** [Class.all_attributes] *)
Definition Class_all_attributes (fuel : nat) (h : Heap) (self : oid)
  : Outcome (list oid) :=
  (cls <- get_class h self ;;
   inherited <- Class_inherited_attributes fuel h self ;;
   Return (PySet.update (c_attributes cls) inherited))%out.

(** ** DomainModel *)

Definition get_model (h : Heap) (m : oid) : Outcome DomainModelObj :=
  match h !! m with
  | Some (ODomainModel mo) => Return mo
  | _ => Raise AttributeError
  end.

Definition update_model (self : oid) (f : DomainModelObj → DomainModelObj)
  : Py unit :=
  λ h, match h !! self with
       | Some (ODomainModel mo) => (Return tt, <[self := ODomainModel (f mo)]> h)
       | _ => (Raise AttributeError, h)
       end.

Definition set_dm_types (s : list oid) (m : DomainModelObj) :=
  mkDomainModel (dm_name m) s (dm_associations m) (dm_generalizations m)
                (dm_packages m) (dm_constraints m).
Definition set_dm_associations (s : list oid) (m : DomainModelObj) :=
  mkDomainModel (dm_name m) (dm_types m) s (dm_generalizations m)
                (dm_packages m) (dm_constraints m).
Definition set_dm_generalizations (s : list oid) (m : DomainModelObj) :=
  mkDomainModel (dm_name m) (dm_types m) (dm_associations m) s
                (dm_packages m) (dm_constraints m).
Definition set_dm_packages (s : list oid) (m : DomainModelObj) :=
  mkDomainModel (dm_name m) (dm_types m) (dm_associations m)
                (dm_generalizations m) s (dm_constraints m).
Definition set_dm_constraints (s : list oid) (m : DomainModelObj) :=
  mkDomainModel (dm_name m) (dm_types m) (dm_associations m)
                (dm_generalizations m) (dm_packages m) s.

(** The [types] setter. *)
Definition DomainModel_set_types (self : oid) (types : list oid) : Py unit :=
  let types := PySet.update types primitive_data_types in
  (names <- read (λ h, names_of h types) ;;
   if has_duplicates names then raise (ValueError DuplicateName)
   else update_model self (set_dm_types types))%py.

(** The [associations] setter. *)
Definition DomainModel_set_associations (self : oid)
    (associations : option (list oid)) : Py unit :=
  match associations with
  | Some xs =>
      (names <- read (λ h, names_of h xs) ;;
       if has_duplicates names then raise (ValueError DuplicateName)
       else update_model self (set_dm_associations xs))%py
  | None => update_model self (set_dm_associations [])
  end.

(** The [generalizations] setter. *)
Definition DomainModel_set_generalizations (self : oid)
    (generalizations : option (list oid)) : Py unit :=
  match generalizations with
  | Some xs => update_model self (set_dm_generalizations xs)
  | None => update_model self (set_dm_generalizations [])
  end.

(** The [packages] setter. *)
Definition DomainModel_set_packages (self : oid)
    (packages : option (list oid)) : Py unit :=
  match packages with
  | Some xs =>
      (names <- read (λ h, names_of h xs) ;;
       if has_duplicates names then raise (ValueError DuplicateName)
       else update_model self (set_dm_packages xs))%py
  | None => update_model self (set_dm_packages [])
  end.

(** The [constraints] setter. *)
Definition DomainModel_set_constraints (self : oid)
    (constraints : option (list oid)) : Py unit :=
  match constraints with
  | Some xs =>
      (names <- read (λ h, names_of h xs) ;;
       if len_differs names then raise (ValueError DuplicateName)
       else update_model self (set_dm_constraints xs))%py
  | None => update_model self (set_dm_constraints [])
  end.

(** [add_type], [add_association], [add_generalization] *)
Definition DomainModel_add_type (self type_ : oid) : Py unit :=
  (m <- read (λ h, get_model h self) ;;
   DomainModel_set_types self (PySet.update (dm_types m) [type_]))%py.

Definition DomainModel_add_association (self association : oid) : Py unit :=
  (m <- read (λ h, get_model h self) ;;
   DomainModel_set_associations self
     (Some (PySet.update (dm_associations m) [association])))%py.

Definition DomainModel_add_generalization (self generalization : oid)
  : Py unit :=
  (m <- read (λ h, get_model h self) ;;
   DomainModel_set_generalizations self
     (Some (PySet.update (dm_generalizations m) [generalization])))%py.

(** [get_classes] *)
Definition DomainModel_get_classes (h : Heap) (self : oid)
  : Outcome (list oid) :=
  (m <- get_model h self ;;
   Return (filter (λ i, isinstance_Class h i = true) (dm_types m)))%out.

(** *** classes_sorted_by_inheritance *)

(** [child_map = {cl: set() for cl in classes}] *)
Definition child_map_init (classes : list oid) : gmap nat (list oid) :=
  foldl (λ cm cl, <[cl := []]> cm) ∅ classes.

(** [child_map[general].add(cl)]: a key that is missing is a [KeyError]. *)
Definition child_map_add (cm : gmap nat (list oid)) (general cl : oid)
  : Outcome (gmap nat (list oid)) :=
  match cm !! general with
  | Some s => Return (<[general := PySet.add cl s]> cm)
  | None => Raise KeyError
  end.

Definition child_map_get (cm : gmap nat (list oid)) (cl : oid)
  : Outcome (list oid) :=
  match cm !! cl with
  | Some s => Return s
  | None => Raise KeyError
  end.

(** The nested function [dfs].  [visited] and [sorted_list] are the two
    objects shared by all calls; [set_order] is the order in which a
    set gives its elements when iterated. *)
Fixpoint dfs (set_order : list oid → list oid) (fuel : nat)
    (child_map : gmap nat (list oid)) (cl : oid)
    (st : list oid * list oid) : Outcome (list oid * list oid) :=
  match fuel with
  | 0 => Raise RecursionError
  | S fuel' =>
      (let visited := PySet.add cl st.1 in
       children <- child_map_get child_map cl ;;
       st' <- ofoldl (λ st child,
                        if decide (child ∈ st.1) then Return st
                        else dfs set_order fuel' child_map child st)
                     (visited, st.2) (set_order children) ;;
       Return (st'.1, st'.2 ++ [cl]))%out
  end.

Definition build_child_map (h : Heap) (classes : list oid)
  : Outcome (gmap nat (list oid)) :=
  ofoldl (λ cm cl,
            cls <- get_class h cl ;;
            ofoldl (λ cm g,
                      general <- get_general h g ;;
                      child_map_add cm general cl)
                   cm (c_generalizations cls))%out
         (child_map_init classes) classes.

Definition DomainModel_classes_sorted_by_inheritance
    (set_order : list oid → list oid) (fuel : nat) (h : Heap) (self : oid)
  : Outcome (list oid) :=
  (classes <- DomainModel_get_classes h self ;;
   let classes := set_order classes in
   child_map <- build_child_map h classes ;;
   st <- ofoldl (λ st cl,
                   if decide (cl ∈ st.1) then Return st
                   else dfs set_order fuel child_map cl st)
                ([], []) classes ;;
   Return (reverse st.2))%out.

(** ** Multiplicity *)

Definition UNLIMITED_MAX_MULTIPLICITY : Z := 9999.

(** The argument [max_multiplicity]: an [int], a [str], or anything
    else. *)
Inductive MaxArg := MaxInt (n : Z) | MaxStr (s : string) | MaxOther.

(** The [min] setter: the value it stores, or the exception. *)
Definition Multiplicity_min_fset (min_multiplicity : Z) : Outcome Z :=
  if decide (min_multiplicity < 0)%Z then Raise (ValueError InvalidValue)
  else Return min_multiplicity.

(** The [max] setter, which reads [self.min]: the value it stores, or
    the exception. *)
Definition Multiplicity_max_fset (self_min : Z) (max_multiplicity : MaxArg)
  : Outcome Z :=
  match max_multiplicity with
  | MaxInt n =>
      if decide (n < 0)%Z then Raise (ValueError InvalidValue)
      else if decide (n < self_min)%Z then Raise (ValueError InvalidValue)
      else Return n
  | MaxStr s =>
      if decide (s = "*"%string) then Return UNLIMITED_MAX_MULTIPLICITY
      else Raise (ValueError InvalidValue)
  | MaxOther => Raise (ValueError InvalidValue)
  end.

(** [m.min = n] and [m.max = x] on a multiplicity that exists. *)
Definition Multiplicity_set_min (self : oid) (min_multiplicity : Z)
  : Py unit :=
  λ h, match h !! self with
       | Some (OMultiplicity _ hi) =>
           match Multiplicity_min_fset min_multiplicity with
           | Return lo => (Return tt, <[self := OMultiplicity lo hi]> h)
           | Raise e => (Raise e, h)
           end
       | _ => (Raise AttributeError, h)
       end.

Definition Multiplicity_set_max (self : oid) (max_multiplicity : MaxArg)
  : Py unit :=
  λ h, match h !! self with
       | Some (OMultiplicity lo _) =>
           match Multiplicity_max_fset lo max_multiplicity with
           | Return hi => (Return tt, <[self := OMultiplicity lo hi]> h)
           | Raise e => (Raise e, h)
           end
       | _ => (Raise AttributeError, h)
       end.

(** [Multiplicity.__init__]: the two setters in turn; the object is
    referenced by nothing until the constructor returns. *)
Definition Multiplicity_init (min_multiplicity : Z) (max_multiplicity : MaxArg)
  : Py oid :=
  (lo <- read (λ _, Multiplicity_min_fset min_multiplicity) ;;
   hi <- read (λ _, Multiplicity_max_fset lo max_multiplicity) ;;
   alloc (OMultiplicity lo hi))%py.

(** ** Class: the bulk setter of the attributes, and [id_attribute] *)

Definition get_is_id (h : Heap) (e : oid) : Outcome bool :=
  match h !! e with
  | Some (OProperty p) => Return (p_is_id p)
  | _ => Raise AttributeError
  end.

(** One turn of the loop of the [attributes] setter, on the local
    variables [(names_seen, duplicates, id_counter)]. *)
Definition attributes_scan_step (h : Heap)
    (st : list string * list string * nat) (attribute : oid)
  : Outcome (list string * list string * nat) :=
  (name <- get_name h attribute ;;
   is_id <- get_is_id h attribute ;;
   Return (PySet.add name st.1.1,
           (if decide (name ∈ st.1.1) then PySet.add name st.1.2
            else st.1.2),
           (if is_id : bool then S st.2 else st.2)))%out.

(** The [Class.attributes] setter. *)
Definition Class_set_attributes (self : oid) (attributes : option (list oid))
  : Py unit :=
  match attributes with
  | Some attrs =>
      (st <- read (λ h, ofoldl (attributes_scan_step h) ([], [], 0) attrs) ;;
       if decide (st.1.2 ≠ []) then raise (ValueError DuplicateName)
       else if decide (1 < st.2) then raise (ValueError MultipleIdentifiers)
       else
         for_ attrs (λ attribute, Property_set_owner attribute (Some self)) ;;
         update_class self (λ cls, set_c_attributes cls attrs))%py
  | None => update_class self (λ cls, set_c_attributes cls [])
  end.

(** The loop of [Class.id_attribute], which returns at the first
    attribute marked as id. *)
Fixpoint first_id (h : Heap) (attributes : list oid) : Outcome (option oid) :=
  match attributes with
  | [] => Return None
  | attribute :: rest =>
      obind (get_is_id h attribute)
        (λ is_id : bool,
           if is_id then Return (Some attribute) else first_id h rest)
  end.

(** [Class.id_attribute] *)
Definition Class_id_attribute (h : Heap) (self : oid)
  : Outcome (option oid) :=
  (cls <- get_class h self ;; first_id h (c_attributes cls))%out.

(** ** Class: specializations and the ends of the ancestors *)

(** [generalization.specific] *)
Definition get_specific (h : Heap) (g : oid) : Outcome oid :=
  match h !! g with
  | Some (OGeneralization _ (Some specific)) => Return specific
  | _ => Raise AttributeError
  end.

(** [Class.specializations] *)
Definition Class_specializations (h : Heap) (self : oid)
  : Outcome (list oid) :=
  (cls <- get_class h self ;;
   ofoldl (λ specializations g,
             specific <- get_specific h g ;;
             Return (if decide (specific ≠ self)
                     then PySet.add specific specializations
                     else specializations))
          [] (c_generalizations cls))%out.

(** [Class.all_association_ends] *)
Definition Class_all_association_ends (fuel : nat) (h : Heap) (self : oid)
  : Outcome (list oid) :=
  (all_ends <- Class_association_ends h self ;;
   ps <- Class_all_parents fuel h self ;;
   ofoldl (λ all_ends parent,
             ends <- Class_association_ends h parent ;;
             Return (PySet.update all_ends ends))
          all_ends ps)%out.

(** ** DomainModel: lookup by name *)

(** [next((x for x in xs if x.name == name), None)] *)
Fixpoint first_named (h : Heap) (name : string) (xs : list oid)
  : Outcome (option oid) :=
  match xs with
  | [] => Return None
  | x :: rest =>
      obind (get_name h x)
        (λ n, if decide (n = name) then Return (Some x)
              else first_named h name rest)
  end.

(** [get_type_by_name] *)
Definition DomainModel_get_type_by_name (h : Heap) (self : oid)
    (type_name : string) : Outcome (option oid) :=
  (m <- get_model h self ;; first_named h type_name (dm_types m))%out.

(** [next((x for x in xs if isinstance(x, Class) and x.name == name),
    None)] *)
Fixpoint first_class_named (h : Heap) (name : string) (xs : list oid)
  : Outcome (option oid) :=
  match xs with
  | [] => Return None
  | x :: rest =>
      if isinstance_Class h x then
        obind (get_name h x)
          (λ n, if decide (n = name) then Return (Some x)
                else first_class_named h name rest)
      else first_class_named h name rest
  end.

(** [get_class_by_name] *)
Definition DomainModel_get_class_by_name (h : Heap) (self : oid)
    (class_name : string) : Outcome (option oid) :=
  (m <- get_model h self ;; first_class_named h class_name (dm_types m))%out.

(** ** Vocabulary of the statements *)

(** The test of [association_ends]: exactly two ends, of one type. *)
Definition two_ends_same_type (h : Heap) (aends : list oid) : Prop :=
  ∃ e0 e1 t, aends = [e0; e1] ∧
             get_type h e0 = Return t ∧ get_type h e1 = Return t.

(** An association whose ends are assigned and are typed elements. *)
Definition association_built (h : Heap) (B : oid) : Prop :=
  ∃ bends, get_ends h B = Return bends ∧
           ∀ e, e ∈ bends → ∃ t, get_type h e = Return t.

(** [p] is a direct parent of [c]: [p] is in [c.parents()]. *)
Definition parent_of (h : Heap) (c p : oid) : Prop :=
  ∃ ps, Class_parents h c = Return ps ∧ p ∈ ps.

(** Every generalization a class refers to has its general assigned, to
    a class.  The setters establish this before they add the
    back-reference. *)
Definition generalizations_built (h : Heap) : Prop :=
  ∀ c cls g, h !! c = Some (OClass cls) → g ∈ c_generalizations cls →
             ∃ p pc, get_general h g = Return p ∧ h !! p = Some (OClass pc).

(** No class that [c] reaches through parents is its own ancestor. *)
Definition acyclic_from (h : Heap) (c : oid) : Prop :=
  ∀ x, rtc (parent_of h) c x → ¬ tc (parent_of h) x x.

(** What a type given as the string [s] resolves to in the heap [h]: the
    type [t] of the element and the objects [fresh] that the resolution
    allocates.  The registry is [module_heap]. *)
Definition resolves_to (s : string) (h : Heap) (t : oid) (fresh : list Obj)
  : Prop :=
  (s ∈ primitive_names ∧
   module_heap !! t = Some (OType KPrimitiveDataType s) ∧ fresh = []) ∨
  (s = "string"%string ∧ t = StringType ∧ fresh = []) ∨
  ((s ∉ primitive_names) ∧ s ≠ "string"%string ∧
   t = length h ∧ fresh = [OType KType s]).

(** The back-references of every class to associations are exact: an
    association is in [c.associations], once, when and only when one of
    its ends is typed by [c]. *)
Definition backrefs_consistent (h : Heap) : Prop :=
  ∀ c cls, h !! c = Some (OClass cls) →
    NoDup (c_associations cls) ∧
    ∀ A, A ∈ c_associations cls ↔
         ∃ ends e, get_ends h A = Return ends ∧ e ∈ ends ∧
                   get_type h e = Return c.

(** [h'] is reached from [h] by assignments to [ends] that returned. *)
Inductive ends_reassigned : Heap → Heap → Prop :=
| ends_reassigned_refl h : ends_reassigned h h
| ends_reassigned_step h h1 h2 A ends :
    ends_reassigned h h1 →
    Association_set_ends A ends h1 = (Return tt, h2) →
    ends_reassigned h h2.

(** The footprint of the setter of [ends] of the association [A]: the
    heap [h'] is [h] but for the set [associations] of the classes, from
    which [A] is removed at the classes in [D] and to which it is then
    added at the classes in [N], and for the owner of the properties in
    [W], which is [A]. *)
Definition rewired (A : oid) (D N W : oid → Prop) (h h' : Heap) : Prop :=
  length h' = length h ∧
  ∀ i o, h !! i = Some o →
    match o with
    | OClass cls =>
        ∃ s', h' !! i = Some (OClass (set_c_associations cls s')) ∧
              (NoDup (c_associations cls) → NoDup s') ∧
              ∀ B, B ∈ s' ↔
                   (B ∈ c_associations cls ∧ ¬ (B = A ∧ D i)) ∨ (B = A ∧ N i)
    | OProperty p =>
        (W i ∧ h' !! i = Some (OProperty (set_p_owner p (Some A)))) ∨
        (¬ W i ∧ h' !! i = Some (OProperty p))
    | _ => h' !! i = Some o
    end.

(** The footprint of a setter of [ends] that returned, with what its
    success tells about the old and the new ends. *)
Definition set_ends_footprint (A : oid) (new : list oid) (h h' : Heap)
  : Prop :=
  ∃ b n old_opt h2,
    h !! A = Some (OAssociation b n old_opt) ∧
    rewired A
      (λ c, ∃ old e, old_opt = Some old ∧ e ∈ old ∧ get_type h e = Return c)
      (λ c, ∃ e, e ∈ new ∧ get_type h e = Return c)
      (λ i, i ∈ new) h h2 ∧
    h' = <[A := OAssociation b n (Some new)]> h2 ∧
    (∀ old e, old_opt = Some old → e ∈ old →
       ∃ t cls, get_type h e = Return t ∧ h !! t = Some (OClass cls)) ∧
    (∀ e, e ∈ new →
       ∃ p cls, h !! e = Some (OProperty p) ∧
                h !! p_type p = Some (OClass cls)).

(** [a] comes before [b] in the list [l]. *)
Definition precedes (l : list oid) (a b : oid) : Prop :=
  ∃ i j, l !! i = Some a ∧ l !! j = Some b ∧ i < j.

(** The generalizations of the classes of a model have their general
    assigned, to a class of the model. *)
Definition model_closed (h : Heap) (classes : list oid) : Prop :=
  ∀ c cls g, c ∈ classes → h !! c = Some (OClass cls) →
             g ∈ c_generalizations cls →
             ∃ p, get_general h g = Return p ∧ p ∈ classes.

(** [x] has a generalization whose general is [k]: the edge that
    [classes_sorted_by_inheritance] records as [child_map[k].add(x)]. *)
Definition generalizes_to (h : Heap) (x k : oid) : Prop :=
  ∃ cls g, h !! x = Some (OClass cls) ∧ g ∈ c_generalizations cls ∧
           get_general h g = Return k.

(** [cm'] is [cm] with, under every key [k], the elements [x] such that
    [P x k] added. *)
Definition child_map_grown (P : oid → oid → Prop)
    (cm cm' : gmap nat (list oid)) : Prop :=
  ∀ k, match cm !! k with
       | Some s => ∃ s', cm' !! k = Some s' ∧ ∀ x, x ∈ s' ↔ x ∈ s ∨ P x k
       | None => cm' !! k = None
       end.

(** The edges the traversal follows: the children of [c] other than [c]
    itself. *)
Definition child_edge (cm : gmap nat (list oid)) (c x : oid) : Prop :=
  ∃ s, cm !! c = Some s ∧ x ∈ s ∧ x ≠ c.

(** The number of nodes of [U] not yet visited. *)
Definition unvisited (U V : list oid) : nat :=
  length (filter (λ x, x ∉ V) U).

(** What holds of [visited] and [sorted_list] between two calls of
    [dfs]: the nodes appended are visited nodes of the graph, appended
    once, each after all its children. *)
Definition dfs_invariant (cm : gmap nat (list oid)) (U V L : list oid)
  : Prop :=
  NoDup L ∧
  (∀ x, x ∈ L → x ∈ V) ∧
  (∀ x, x ∈ V → x ∈ U) ∧
  (∀ x y, x ∈ L → child_edge cm x y → precedes L y x).

(** The body of the two loops that call [dfs]. *)
Definition dfs_visit (set_order : list oid → list oid) (fuel : nat)
    (cm : gmap nat (list oid)) (st : list oid * list oid) (child : oid)
  : Outcome (list oid * list oid) :=
  if decide (child ∈ st.1) then Return st
  else dfs set_order fuel cm child st.

(** What a call of [dfs] on an unvisited node [c] does when the depth
    [fuel] suffices: it appends to [sorted_list] a list [Δ] of nodes
    that were not visited, [c] among them, and marks exactly those as
    visited. *)
Definition dfs_returns (set_order : list oid → list oid)
    (cm : gmap nat (list oid)) (U : list oid) (fuel : nat) : Prop :=
  ∀ c V L,
    dfs_invariant cm U V L → c ∈ U → c ∉ V →
    (∀ x, x ∈ V → x ∉ L → tc (child_edge cm) x c) →
    unvisited U V ≤ fuel →
    ∃ Δ V', dfs set_order fuel cm c (V, L) = Return (V', L ++ Δ) ∧
            (∀ x, x ∈ V' ↔ x ∈ V ∨ x ∈ Δ) ∧
            (∀ x, x ∈ Δ → x ∉ V) ∧
            c ∈ Δ ∧
            dfs_invariant cm U V' (L ++ Δ).

(** Every multiplicity of the heap has bounds that are not negative. *)
Definition multiplicities_nonneg (h : Heap) : Prop :=
  ∀ i lo hi, h !! i = Some (OMultiplicity lo hi) → (0 ≤ lo ∧ 0 ≤ hi)%Z.

(** The elements of [xs] are properties of the heap. *)
Definition all_properties (h : Heap) (xs : list oid) : Prop :=
  ∀ a, a ∈ xs → ∃ p, h !! a = Some (OProperty p).

(** [a] is a property whose [is_id] is set. *)
Definition marked_id (h : Heap) (a : oid) : bool :=
  match get_is_id h a with Return true => true | _ => false end.

(** The number of elements of [xs] marked as id. *)
Definition id_count (h : Heap) (xs : list oid) : nat :=
  length (filter (λ a, marked_id h a = true) xs).

(** The elements of [xs] are enumeration literals of the heap. *)
Definition all_literals (h : Heap) (xs : list oid) : Prop :=
  ∀ l, l ∈ xs → ∃ n o, h !! l = Some (OEnumerationLiteral n o).

(** The back-references of the classes to generalizations are exact: a
    generalization is in [c.generalizations] when and only when its
    general and its specific are assigned and [c] is one of them. *)
Definition generalization_backrefs_exact (h : Heap) : Prop :=
  ∀ c cls, h !! c = Some (OClass cls) →
    ∀ g, g ∈ c_generalizations cls ↔
         ∃ G S, h !! g = Some (OGeneralization (Some G) (Some S)) ∧
                (c = G ∨ c = S).

(** The associations that the classes refer to are built. *)
Definition associations_built (h : Heap) : Prop :=
  ∀ c cls B, h !! c = Some (OClass cls) → B ∈ c_associations cls →
             association_built h B.

(** ** Heaps used as examples *)

(** A class with the defaults of [Class.__init__]. *)
Definition new_class (name : string) : Obj :=
  OClass (mkClass name [] [] false false [] []).

(** One class [X], at identity 9. *)
Definition heap_X : Heap := module_heap ++ [new_class "X"].

(** Classes [A] (9) and [B] (10) and the generalization (11) that makes
    [A] the parent of [B]. *)
Definition heap_A_B : Heap :=
  module_heap ++
  [OClass (mkClass "A" [] [] false false [] [11]);
   OClass (mkClass "B" [] [] false false [] [11]);
   OGeneralization (Some 9) (Some 10)].

(** An enumeration [Color] (9), without literals, and a literal [red]
    (10) that has no owner. *)
Definition heap_enum : Heap :=
  module_heap ++ [OEnumeration "Color" []; OEnumerationLiteral "red" None].

(** An empty domain model (9). *)
Definition heap_model : Heap :=
  module_heap ++ [ODomainModel (mkDomainModel "m" [] [] [] [] [])].

(** A property with the default flags of [Property.__init__]. *)
Definition new_end (name : string) (type : oid) (owner : option oid) : Obj :=
  OProperty (mkProperty name "public" type owner default_multiplicity
               false true false false).

(** Classes [Author] (9), [Book] (10) and [Library] (11); ends typed by
    them (12, 13, 14); the association [wrote] (15) between the first
    two. *)
Definition heap_assoc : Heap :=
  module_heap ++
  [OClass (mkClass "Author" [] [] false false [15] []);
   OClass (mkClass "Book" [] [] false false [15] []);
   OClass (mkClass "Library" [] [] false false [] []);
   new_end "author" 9 (Some 15);
   new_end "book" 10 (Some 15);
   new_end "library" 11 None;
   OAssociation false "wrote" (Some [12; 13])].

(** Class [C] (9) and class [D] (10); ends 11 and 12 typed by [C], end
    13 typed by [D]; the association 14 of [C] with itself over the ends
    11 and 12, and the association 15 over the ends 11 and 13, which
    shares the end 11 with the first. *)
Definition heap_shared_end : Heap :=
  module_heap ++
  [OClass (mkClass "C" [] [] false false [14; 15] []);
   OClass (mkClass "D" [] [] false false [15] []);
   new_end "left" 9 (Some 15);
   new_end "right" 9 (Some 14);
   new_end "other" 10 (Some 15);
   OAssociation true "self" (Some [11; 12]);
   OAssociation true "cross" (Some [11; 13])].

(** Classes [A] (9) and [B] (10), each the parent of the other through
    the generalizations 11 and 12: what [Generalization(A, B)] followed
    by [Generalization(B, A)] builds. *)
Definition heap_cycle : Heap :=
  module_heap ++
  [OClass (mkClass "A" [] [] false false [] [11; 12]);
   OClass (mkClass "B" [] [] false false [] [11; 12]);
   OGeneralization (Some 9) (Some 10);
   OGeneralization (Some 10) (Some 9)].

(** Classes [A] (9), [B] (10) and [C] (11), each with one attribute (14,
    15, 16); [A] is the parent of [B] by the generalization 12 and [B]
    the parent of [C] by the generalization 13; the domain model 17 holds
    the three classes and the primitive types. *)
Definition heap_chain : Heap :=
  module_heap ++
  [OClass (mkClass "A" [14] [] false false [] [12]);
   OClass (mkClass "B" [15] [] false false [] [12; 13]);
   OClass (mkClass "C" [16] [] false false [] [13]);
   OGeneralization (Some 9) (Some 10);
   OGeneralization (Some 10) (Some 11);
   new_end "id" IntegerType (Some 9);
   new_end "title" StringType (Some 10);
   new_end "pages" IntegerType (Some 11);
   ODomainModel
     (mkDomainModel "library" ([11; 9; 10] ++ primitive_data_types)
                    [] [12; 13] [] [])].

(** Two classes [A] (9) and [B] (10), nothing else. *)
Definition heap_two_classes : Heap :=
  module_heap ++ [new_class "A"; new_class "B"].

(** The classes and the ends of [heap_shared_end], before any
    association is built. *)
Definition heap_three_ends : Heap :=
  module_heap ++
  [new_class "C"; new_class "D";
   new_end "left" 9 None; new_end "right" 9 None; new_end "other" 10 None].

(** An empty domain model (9) and two classes named [Book] (10, 11). *)
Definition heap_two_books : Heap :=
  heap_model ++ [new_class "Book"; new_class "Book"].

(** Classes [A] (9) and [B] (10) and the generalization 11 with general
    [A] and specific [B], as the three calls [g = Generalization(A, B)],
    [g.general = B], [g.general = A] leave them: [A] refers to the
    generalization and [B] does not.  The domain model 12 holds the two
    classes, the primitive types and the generalization. *)
Definition heap_detached : Heap :=
  module_heap ++
  [OClass (mkClass "A" [] [] false false [] [11]);
   OClass (mkClass "B" [] [] false false [] []);
   OGeneralization (Some 9) (Some 10);
   ODomainModel
     (mkDomainModel "m" ([9; 10] ++ primitive_data_types) [] [11] [] [])].

(** A property marked as id, with the other defaults of
    [Property.__init__]. *)
Definition new_id (name : string) (owner : option oid) : Obj :=
  OProperty (mkProperty name "public" StringType owner default_multiplicity
               false true true false).

(** A class [Book] (9) whose attribute [isbn] (10) is marked as id, and
    a second property marked as id, [code] (11), that has no owner. *)
Definition heap_two_ids : Heap :=
  module_heap ++
  [OClass (mkClass "Book" [10] [] false false [] []);
   new_id "isbn" (Some 9); new_id "code" None].

(** The heap [heap_assoc] and an empty domain model (16). *)
Definition heap_assoc_model : Heap :=
  heap_assoc ++ [ODomainModel (mkDomainModel "m" [] [] [] [] [])].

(** The heap [heap_A_B] and a domain model (12) that holds the class [B]
    and the generalization, but not the class [A]. *)
Definition heap_parent_outside : Heap :=
  heap_A_B ++
  [ODomainModel (mkDomainModel "m" ([10] ++ primitive_data_types)
                               [] [11] [] [])].

(* ================================================================= *)
(** * Properties *)

(** ** The heap monad *)

Lemma update_class_eq (h : Heap) self cls f :
  h !! self = Some (OClass cls) →
  update_class self f h = (Return tt, <[self := OClass (f cls)]> h).
Proof. intros E. unfold update_class. by rewrite E. Qed.

Lemma bind_eq {A B} (m : Py A) (k : A → Py B) h a h' :
  m h = (Return a, h') → bind m k h = k a h'.
Proof. intros E. unfold bind. by rewrite E. Qed.

Lemma bind_raise {A B} (m : Py A) (k : A → Py B) h e h' :
  m h = (Raise e, h') → bind m k h = (Raise e, h').
Proof. intros E. unfold bind. by rewrite E. Qed.

Lemma lookup_insert_class (h : Heap) i j o cls :
  h !! j = Some (OClass cls) →
  ∃ cls', <[i := OClass o]> h !! j = Some (OClass cls').
Proof.
  intros E. rewrite list_lookup_insert. case_decide; eauto.
Qed.

(** ** Python sets *)

Module PySetFacts.
Section facts.
Context {A : Type} `{EqDecision A}.
Implicit Types (x y : A) (s t : list A).

Lemma elem_of_add x y s : y ∈ PySet.add x s ↔ y = x ∨ y ∈ s.
Proof.
  unfold PySet.add. case_decide.
  - split; [by right | by intros [->|?]].
  - rewrite elem_of_app, list_elem_of_singleton. tauto.
Qed.

Lemma NoDup_add x s : NoDup s → NoDup (PySet.add x s).
Proof.
  intros Hs. unfold PySet.add. case_decide; [done|].
  apply NoDup_app. split_and!; [done| |apply NoDup_singleton].
  intros y Hy ->%list_elem_of_singleton. done.
Qed.

Lemma elem_of_discard x y s : y ∈ PySet.discard x s ↔ y ≠ x ∧ y ∈ s.
Proof. unfold PySet.discard. by rewrite list_elem_of_filter. Qed.

Lemma NoDup_discard x s : NoDup s → NoDup (PySet.discard x s).
Proof. apply NoDup_filter. Qed.

Lemma elem_of_update y s t : y ∈ PySet.update s t ↔ y ∈ s ∨ y ∈ t.
Proof.
  unfold PySet.update. revert s.
  induction t as [|x t IH]; intros s; simpl.
  - rewrite elem_of_nil. tauto.
  - rewrite IH, elem_of_add, elem_of_cons. tauto.
Qed.

Lemma NoDup_update s t : NoDup s → NoDup (PySet.update s t).
Proof.
  unfold PySet.update. revert s.
  induction t as [|x t IH]; intros s Hs; simpl; [done|].
  apply IH, NoDup_add, Hs.
Qed.

Lemma elem_of_of_list y t : y ∈ PySet.of_list t ↔ y ∈ t.
Proof.
  unfold PySet.of_list. rewrite elem_of_update, elem_of_nil. tauto.
Qed.

Lemma NoDup_of_list t : NoDup (PySet.of_list t).
Proof. apply NoDup_update, NoDup_nil_2. Qed.
End facts.
End PySetFacts.

(** ** Generalization *)

Section generalization.
Implicit Types (h : Heap) (g c a s : oid).

(** The general setter on a generalization whose general is a class. *)
Lemma set_general_eq h g a os c ca cc :
  h !! g = Some (OGeneralization (Some a) os) →
  h !! a = Some (OClass ca) →
  h !! c = Some (OClass cc) →
  ∃ h', Generalization_set_general g c h = (Return tt, h') ∧
        h' !! g = Some (OGeneralization (Some c) os).
Proof.
  intros Eg Ea Ec.
  unfold Generalization_set_general, read, get_generalization.
  unfold bind at 1. rewrite Eg. simpl.
  unfold Class_delete_generalization.
  erewrite bind_eq by (by apply update_class_eq).
  destruct (lookup_insert_class h a c
              (set_c_generalizations ca
                 (PySet.discard g (c_generalizations ca))) cc Ec)
    as [cc' Ec'].
  unfold Class_add_generalization.
  erewrite bind_eq by (by apply update_class_eq).
  unfold update_generalization.
  assert (g ≠ a) by congruence.
  assert (g ≠ c) by congruence.
  rewrite !list_lookup_insert_ne by done. rewrite Eg. simpl.
  eexists. split; [done|].
  apply list_lookup_insert_eq. rewrite !length_insert.
  by eapply lookup_lt_Some.
Qed.

(** The general setter on a generalization under construction. *)
Lemma set_general_first h g os c cc :
  h !! g = Some (OGeneralization None os) →
  h !! c = Some (OClass cc) →
  Generalization_set_general g c h =
    (Return tt,
     <[g := OGeneralization (Some c) os]>
       (<[c := OClass (set_c_generalizations cc
                         (PySet.add g (c_generalizations cc)))]> h)).
Proof.
  intros Eg Ec.
  unfold Generalization_set_general, read, get_generalization.
  unfold bind at 1. rewrite Eg. simpl.
  unfold bind at 1, ret at 1.
  unfold Class_add_generalization.
  erewrite bind_eq by (by apply update_class_eq).
  unfold update_generalization.
  assert (g ≠ c) by congruence.
  rewrite list_lookup_insert_ne by done. by rewrite Eg.
Qed.

(** The specific setter refuses the class that is the general, before
    it changes anything. *)
Lemma set_specific_self h g a os :
  h !! g = Some (OGeneralization (Some a) os) →
  Generalization_set_specific g a h =
    (Raise (ValueError SelfGeneralization), h).
Proof.
  intros Eg.
  unfold Generalization_set_specific, read, get_generalization.
  unfold bind at 1. rewrite Eg. simpl.
  by rewrite decide_True.
Qed.
End generalization.

(** C10.  On a constructed generalization [g] with specific [c], the
    assignment [g.general = c] returns normally and leaves [g] with its
    general equal to its specific; the specific setter is the only one
    that rejects the equality (assigning the current general as specific
    raises [SelfGeneralization], heap unchanged); and the general setter
    returns normally whatever class it is given. *)
Theorem general_setter_accepts_specific (h : Heap) (g a c : oid)
    (ca cc : ClassObj) :
  h !! g = Some (OGeneralization (Some a) (Some c)) →
  h !! a = Some (OClass ca) →
  h !! c = Some (OClass cc) →
  (∃ h', Generalization_set_general g c h = (Return tt, h') ∧
         get_generalization h' g = Return (Some c, Some c)) ∧
  Generalization_set_specific g a h =
    (Raise (ValueError SelfGeneralization), h) ∧
  (∀ c' cls', h !! c' = Some (OClass cls') →
     ∃ h', Generalization_set_general g c' h = (Return tt, h')).
Proof.
  intros Eg Ea Ec. split_and!.
  - destruct (set_general_eq h g a (Some c) c ca cc Eg Ea Ec) as (h' & E & L).
    exists h'. split; [done|]. unfold get_generalization. by rewrite L.
  - by eapply set_specific_self.
  - intros c' cls' Ec'.
    destruct (set_general_eq h g a (Some c) c' ca cls' Eg Ea Ec')
      as (h' & E & _).
    eauto.
Qed.

Lemma general_setter_accepts_specific_witness :
  (∃ h', Generalization_set_general 11 10 heap_A_B = (Return tt, h') ∧
         get_generalization h' 11 = Return (Some 10, Some 10)) ∧
  Generalization_set_specific 11 9 heap_A_B =
    (Raise (ValueError SelfGeneralization), heap_A_B) ∧
  (∀ c' cls', heap_A_B !! c' = Some (OClass cls') →
     ∃ h', Generalization_set_general 11 c' heap_A_B = (Return tt, h')).
Proof.
  apply (general_setter_accepts_specific heap_A_B 11 9 10
           (mkClass "A" [] [] false false [] [11])
           (mkClass "B" [] [] false false [] [11]));
    reflexivity.
Defined.

(** C4, at the input that breaks it.  [Generalization(general=X,
    specific=X)] raises [SelfGeneralization], but only after the general
    setter has run: the heap it leaves holds the generalization, with a
    general and no specific, and [X.generalizations] has gained it. *)
Theorem self_generalization_leaves_backref (h : Heap) (X : oid)
    (cls : ClassObj) :
  h !! X = Some (OClass cls) →
  length h ∉ c_generalizations cls →
  ∃ h', Generalization_init X X h =
          (Raise (ValueError SelfGeneralization), h') ∧
        get_generalization h' (length h) = Return (Some X, None) ∧
        ∃ cls', get_class h' X = Return cls' ∧
                length h ∈ c_generalizations cls' ∧
                c_generalizations cls' ≠ c_generalizations cls.
Proof.
  intros EX Hfresh.
  pose proof (lookup_lt_Some _ _ _ EX) as HX.
  unfold Generalization_init.
  unfold bind at 1, alloc at 1.
  set (g := length h).
  assert (Eg : (h ++ [OGeneralization None None]) !! g
               = Some (OGeneralization None None))
    by (by apply list_lookup_middle).
  assert (EX' : (h ++ [OGeneralization None None]) !! X = Some (OClass cls))
    by (by rewrite lookup_app_l).
  erewrite bind_eq by (by eapply set_general_first).
  erewrite bind_raise.
  2:{ eapply set_specific_self. apply list_lookup_insert_eq.
      rewrite length_insert. by eapply lookup_lt_Some. }
  eexists. split; [done|].
  assert (g ≠ X) by (unfold g; lia).
  split.
  - unfold get_generalization.
    rewrite list_lookup_insert_eq; [done|].
    rewrite length_insert. by eapply lookup_lt_Some.
  - eexists. split.
    + unfold get_class. rewrite list_lookup_insert_ne by done.
      rewrite list_lookup_insert_eq; [done|]. by eapply lookup_lt_Some.
    + simpl. split.
      * apply PySetFacts.elem_of_add. by left.
      * intros E. apply Hfresh. rewrite <- E.
        apply PySetFacts.elem_of_add. by left.
Qed.

Lemma self_generalization_leaves_backref_witness :
  ∃ h', Generalization_init 9 9 heap_X =
          (Raise (ValueError SelfGeneralization), h') ∧
        get_generalization h' (length heap_X) = Return (Some 9, None) ∧
        ∃ cls', get_class h' 9 = Return cls' ∧
                length heap_X ∈ c_generalizations cls' ∧
                c_generalizations cls' ≠ [].
Proof.
  apply (self_generalization_leaves_backref heap_X 9
           (mkClass "X" [] [] false false [] [])).
  - reflexivity.
  - simpl. apply not_elem_of_nil.
Defined.

(** ** Reading loops *)

Lemma names_of_app (h : Heap) (extra : list Obj) xs names :
  names_of h xs = Return names → names_of (h ++ extra) xs = Return names.
Proof.
  unfold names_of. revert names.
  induction xs as [|x xs IH]; intros names; simpl; [done|].
  unfold get_name at 1 3.
  destruct (h !! x) as [o|] eqn:E; [|done].
  rewrite (lookup_app_l_Some _ _ _ _ E).
  destruct (match o with OMultiplicity _ _ | OGeneralization _ _ => _ | _ => _ end)
    as [n|] eqn:En; simpl; [|done].
  destruct (omapM (get_name h) xs) as [ns|] eqn:Ens; simpl; [|done].
  by rewrite (IH ns eq_refl).
Qed.

Lemma isinstance_DataType_alloc_Type (h : Heap) owner s :
  isinstance_DataType h owner = false →
  isinstance_DataType (h ++ [OType KType s]) owner = false.
Proof.
  destruct owner as [i|]; simpl; [|done].
  destruct (h !! i) as [o|] eqn:E.
  - by rewrite (lookup_app_l_Some _ _ _ _ E).
  - intros _. apply lookup_ge_None in E.
    rewrite lookup_app_r by done.
    by destruct (i - length h) as [|[|?]].
Qed.

(** ** Duplicate names *)

Section names.
Implicit Types (names seen dups : list string).

Lemma add_not_nil {A} `{EqDecision A} (x : A) (s : list A) :
  PySet.add x s ≠ [].
Proof.
  unfold PySet.add. case_decide as Hin.
  - intros ->. by apply elem_of_nil in Hin.
  - by destruct s.
Qed.

Lemma scan_names_from names seen dups :
  (foldl (λ '(names_seen, duplicates) n,
            ((PySet.add n names_seen),
             (if decide (n ∈ names_seen) then PySet.add n duplicates
              else duplicates)))
         (seen, dups) names).2 = [] ↔
  dups = [] ∧ NoDup names ∧ ∀ n, n ∈ names → n ∉ seen.
Proof.
  revert seen dups.
  induction names as [|n names IH]; intros seen dups; simpl.
  - split; [intros ->; split_and!; [done|constructor|] | by intros [-> _]].
    intros n Hn. by apply elem_of_nil in Hn.
  - rewrite IH, NoDup_cons. split.
    + intros (Hd & Hnd & Hseen). case_decide as Hin.
      { by apply add_not_nil in Hd. }
      split_and!; [done| |done|].
      * intros Hn. apply (Hseen n Hn), PySetFacts.elem_of_add. by left.
      * intros m [->|Hm]%elem_of_cons; [done|].
        intros Hms. apply (Hseen m Hm), PySetFacts.elem_of_add. by right.
    + intros (-> & [Hn Hnd] & Hseen).
      rewrite decide_False by (apply Hseen; by left).
      split_and!; [done|done|].
      intros m Hm [->|Hms]%PySetFacts.elem_of_add; [done|].
      apply (Hseen m); [by right|done].
Qed.

Lemma has_duplicates_false names :
  has_duplicates names = false ↔ NoDup names.
Proof.
  unfold has_duplicates, scan_names.
  rewrite bool_decide_eq_false.
  split.
  - intros Hn. apply dec_stable in Hn.
    apply scan_names_from in Hn. apply Hn.
  - intros Hnd Hne. apply Hne, scan_names_from. split_and!; [done|done|].
    intros n _. apply not_elem_of_nil.
Qed.

Lemma has_duplicates_true names :
  has_duplicates names = true ↔ ¬ NoDup names.
Proof.
  rewrite <- has_duplicates_false. by destruct (has_duplicates names).
Qed.

Lemma update_length_le {A} `{EqDecision A} (s t : list A) :
  length (PySet.update s t) ≤ length s + length t.
Proof.
  unfold PySet.update. revert s.
  induction t as [|x t IH]; intros s; simpl; [lia|].
  etrans; [apply IH|]. unfold PySet.add.
  case_decide; [lia|]. rewrite length_app. simpl. lia.
Qed.

Lemma update_length_eq {A} `{EqDecision A} (s t : list A) :
  length (PySet.update s t) = length s + length t ↔
  NoDup t ∧ ∀ x, x ∈ t → x ∉ s.
Proof.
  revert s.
  induction t as [|x t IH]; intros s.
  - simpl. split; [intros _; split; [constructor|] | intros _; lia].
    intros x Hx. by apply elem_of_nil in Hx.
  - change (PySet.update s (x :: t)) with (PySet.update (PySet.add x s) t).
    rewrite NoDup_cons. unfold PySet.add. case_decide as Hin.
    + pose proof (update_length_le s t). simpl. split; [lia|].
      intros [_ Hs]. destruct (Hs x); [by left|done].
    + specialize (IH (s ++ [x])). rewrite length_app in IH. simpl in *.
      replace (length s + S (length t)) with (length s + 1 + length t)
        by lia.
      rewrite IH. split.
      * intros [Hnd Hs]. split_and!; [|done|].
        -- intros Hx. apply (Hs x Hx), elem_of_app. right. by left.
        -- intros y [->|Hy]%elem_of_cons; [done|].
           intros Hys. apply (Hs y Hy), elem_of_app. by left.
      * intros [[Hx Hnd] Hs]. split; [done|].
        intros y Hy [Hys|Hyx]%elem_of_app.
        -- apply (Hs y); [by right|done].
        -- apply list_elem_of_singleton in Hyx. by subst.
Qed.

Lemma len_differs_false names : len_differs names = false ↔ NoDup names.
Proof.
  unfold len_differs, PySet.of_list.
  rewrite bool_decide_eq_false.
  pose proof (update_length_eq [] names) as Heq. simpl in Heq.
  split.
  - intros Hn. apply dec_stable in Hn. symmetry in Hn.
    by apply Heq in Hn as [? _].
  - intros Hnd Hne. apply Hne. symmetry. apply Heq. split; [done|].
    intros x _. apply not_elem_of_nil.
Qed.

Lemma len_differs_true names : len_differs names = true ↔ ¬ NoDup names.
Proof.
  rewrite <- len_differs_false. by destruct (len_differs names).
Qed.
End names.

(** ** Enumeration *)

(** C8, as the code has it.  [add_literal] rejects a literal whose name
    is taken and leaves the heap as it was; otherwise it inserts the
    literal, and the owner of the literal is what it was before the call:
    the method never assigns it. *)
Theorem add_literal_keeps_owner (h : Heap) (E l : oid)
    (ename lname : string) (lits : list oid) (owner : option oid)
    (names : list string) :
  h !! E = Some (OEnumeration ename lits) →
  h !! l = Some (OEnumerationLiteral lname owner) →
  names_of h lits = Return names →
  (lname ∈ names →
     Enumeration_add_literal E l h = (Raise (ValueError DuplicateName), h)) ∧
  (lname ∉ names →
     ∃ h', Enumeration_add_literal E l h = (Return tt, h') ∧
           get_literals h' E = Return (PySet.add l lits) ∧
           get_owner h' l = Return owner).
Proof.
  intros EE El Hnames.
  unfold Enumeration_add_literal, bind, read, get_literals, get_name,
    store_literals.
  rewrite EE, El, Hnames.
  split; intros Hin.
  - by rewrite decide_True.
  - rewrite decide_False by done. rewrite EE.
    eexists. split; [done|].
    assert (E ≠ l) by congruence.
    split.
    + rewrite list_lookup_insert_eq; [done|]. by eapply lookup_lt_Some.
    + unfold get_owner. rewrite list_lookup_insert_ne by done. by rewrite El.
Qed.

Lemma add_literal_keeps_owner_witness :
  ("red"%string ∈ @nil string →
     Enumeration_add_literal 9 10 heap_enum
     = (Raise (ValueError DuplicateName), heap_enum)) ∧
  ("red"%string ∉ @nil string →
     ∃ h', Enumeration_add_literal 9 10 heap_enum = (Return tt, h') ∧
           get_literals h' 9 = Return (PySet.add 10 []) ∧
           get_owner h' 10 = Return None).
Proof.
  apply (add_literal_keeps_owner heap_enum 9 10 "Color" "red" [] None []);
    reflexivity.
Defined.

(** The bulk setter of the same class does assign the owner. *)
Lemma set_literals_sets_owner :
  ∃ h', Enumeration_set_literals 9 (Some [10]) heap_enum = (Return tt, h') ∧
        get_literals h' 9 = Return [10] ∧
        get_owner h' 10 = Return (Some 9).
Proof. eexists. split; [vm_compute; reflexivity|]. split; reflexivity. Qed.

(** So does [Class.add_attribute], which [add_literal] mirrors. *)
Example add_attribute_sets_owner :
  ∃ h', Class_add_attribute 9 11 heap_three_ends = (Return tt, h') ∧
        get_owner h' 11 = Return (Some 9).
Proof. eexists. split; reflexivity. Qed.

(** ** Typed elements *)

Section typed_element.
Implicit Types (h : Heap) (s : string).

Lemma type_mapping_primitive s :
  s ∈ primitive_names →
  ∃ t, type_mapping !! s = Some t ∧
       module_heap !! t = Some (OType KPrimitiveDataType s).
Proof.
  unfold primitive_names. rewrite !elem_of_cons, elem_of_nil.
  intros H. destruct_or!; subst; try done; eexists; split; reflexivity.
Qed.

Lemma type_mapping_string : type_mapping !! "string"%string = Some StringType.
Proof. reflexivity. Qed.

Lemma type_mapping_other s :
  s ∉ primitive_names → s ≠ "string"%string → type_mapping !! s = None.
Proof.
  intros Hs Hstr. unfold type_mapping.
  apply not_elem_of_list_to_map_1. simpl.
  unfold primitive_names in Hs.
  rewrite !not_elem_of_cons in Hs. rewrite !not_elem_of_cons.
  destruct_and!. by split_and!.
Qed.

(** The resolution of a string: total, and the heap only grows. *)
Lemma TypedElement_init_by_name h s visibility :
  valid_visibility visibility = true →
  TypedElement_init (ByName s) visibility h
  = match type_mapping !! s with
    | Some t => (Return t, h)
    | None => (Return (length h), h ++ [OType KType s])
    end.
Proof.
  intros Hv. unfold TypedElement_init. rewrite Hv.
  by destruct (type_mapping !! s).
Qed.

Lemma type_mapping_resolves h s :
  ∃ t fresh, resolves_to s h t fresh ∧
             match type_mapping !! s with
             | Some t => (Return t, h)
             | None => (Return (length h), h ++ [OType KType s])
             end = (Return t, h ++ fresh).
Proof.
  destruct (decide (s ∈ primitive_names)) as [Hp|Hp].
  - destruct (type_mapping_primitive s Hp) as (t & Ht & Hm).
    exists t, []. rewrite Ht, app_nil_r. split; [|done].
    left. done.
  - destruct (decide (s = "string"%string)) as [->|Hs].
    + exists StringType, []. rewrite type_mapping_string, app_nil_r.
      split; [|done]. right. left. done.
    + exists (length h), [OType KType s].
      rewrite type_mapping_other by done. split; [|done].
      right. right. done.
Qed.

Lemma resolves_to_fresh s h t fresh :
  resolves_to s h t fresh → fresh = [] ∨ fresh = [OType KType s].
Proof.
  intros [(_ & _ & ->)|[(_ & _ & ->)|(_ & _ & _ & ->)]]; auto.
Qed.

Lemma isinstance_DataType_fresh s h t fresh owner :
  resolves_to s h t fresh →
  isinstance_DataType h owner = false →
  isinstance_DataType (h ++ fresh) owner = false.
Proof.
  intros [->| ->]%resolves_to_fresh Ho.
  - by rewrite app_nil_r.
  - by apply isinstance_DataType_alloc_Type.
Qed.
End typed_element.

(** C9, as the code has it.  A [Property], a [Parameter] or a [Method]
    built with its type given as a string [s] and otherwise valid
    arguments is built without raising, and the heap only grows: no
    object that existed is changed.  If [s] is one of the eight primitive
    names the type of the element is the singleton of that name; if [s]
    is ["string"] it is the singleton [StringType]; for every other [s]
    it is a new plain [Type] named [s]. *)
Theorem string_type_resolution (h : Heap) (s name visibility : string)
    (owner : option oid) (multiplicity : oid)
    (is_composite is_navigable is_id is_read_only is_abstract : bool)
    (parameters : list oid) (pnames : list string) (code : string) :
  valid_visibility visibility = true →
  isinstance_DataType h owner = false →
  names_of h parameters = Return pnames →
  NoDup pnames →
  ∃ t fresh,
    resolves_to s h t fresh ∧
    Property_init name (ByName s) owner multiplicity visibility
                  is_composite is_navigable is_id is_read_only h
    = (Return (length (h ++ fresh)),
       h ++ fresh ++
       [OProperty (mkProperty name visibility t owner multiplicity
                     is_composite is_navigable is_id is_read_only)]) ∧
    Parameter_init name (ByName s) h
    = (Return (length (h ++ fresh)),
       h ++ fresh ++ [OParameter name "public" t]) ∧
    Method_init name visibility is_abstract (Some parameters)
                (Some (ByName s)) owner code h
    = (Return (length (h ++ fresh)),
       h ++ fresh ++
       [OMethod (mkMethod name visibility t is_abstract parameters
                   owner code)]).
Proof.
  intros Hv Ho Hn Hnd.
  destruct (type_mapping_resolves h s) as (t & fresh & Hres & Hmap).
  pose proof (TypedElement_init_by_name h s visibility Hv) as Hinit.
  pose proof (TypedElement_init_by_name h s "public" eq_refl) as Hinit'.
  rewrite Hmap in Hinit, Hinit'.
  exists t, fresh. split; [done|].
  pose proof (isinstance_DataType_fresh s h t fresh owner Hres Ho) as Ho'.
  split_and!.
  - unfold Property_init. erewrite bind_eq by exact Hinit.
    unfold check_owner, bind, read, ret, alloc. rewrite Ho'.
    by rewrite app_assoc.
  - unfold Parameter_init. erewrite bind_eq by exact Hinit'.
    unfold alloc. by rewrite app_assoc.
  - unfold Method_init. simpl. erewrite bind_eq by exact Hinit.
    unfold check_parameters, check_owner, bind, read, ret, alloc, raise.
    rewrite (names_of_app h fresh parameters pnames Hn).
    rewrite (proj2 (has_duplicates_false pnames) Hnd).
    rewrite Ho'. by rewrite app_assoc.
Qed.

Lemma string_type_resolution_witness :
  ∃ t fresh,
    resolves_to "Book" module_heap t fresh ∧
    Property_init "x" (ByName "Book") None default_multiplicity "public"
                  false true false false module_heap
    = (Return (length (module_heap ++ fresh)),
       module_heap ++ fresh ++
       [OProperty (mkProperty "x" "public" t None default_multiplicity
                     false true false false)]) ∧
    Parameter_init "x" (ByName "Book") module_heap
    = (Return (length (module_heap ++ fresh)),
       module_heap ++ fresh ++ [OParameter "x" "public" t]) ∧
    Method_init "x" "public" false (Some []) (Some (ByName "Book")) None ""
                module_heap
    = (Return (length (module_heap ++ fresh)),
       module_heap ++ fresh ++
       [OMethod (mkMethod "x" "public" t false [] None "")]).
Proof.
  apply (string_type_resolution module_heap "Book" "x" "public" None
           default_multiplicity false true false false false [] [] "").
  - reflexivity.
  - reflexivity.
  - reflexivity.
  - apply NoDup_nil_2.
Defined.

(** ["string"] is not one of the eight primitive names, and an element
    typed by it gets the primitive singleton [StringType], no new type. *)
Lemma string_alias_is_primitive :
  ("string"%string ∉ primitive_names) ∧
  ∃ e h',
    Property_init "x" (ByName "string") None default_multiplicity "public"
                  false true false false module_heap = (Return e, h') ∧
    get_type h' e = Return StringType ∧
    h' !! StringType = Some (OType KPrimitiveDataType "str") ∧
    length h' = S (length module_heap).
Proof.
  split.
  - unfold primitive_names. rewrite !not_elem_of_cons.
    split_and!; try done. apply not_elem_of_nil.
  - eexists _, _. split; [vm_compute; reflexivity|].
    split_and!; reflexivity.
Qed.

(** ** DomainModel: the collection setters *)

Section domain_model_setters.
Implicit Types (h : Heap) (m : oid) (mo : DomainModelObj).

Lemma update_model_eq h m mo f :
  h !! m = Some (ODomainModel mo) →
  update_model m f h = (Return tt, <[m := ODomainModel (f mo)]> h).
Proof. intros E. unfold update_model. by rewrite E. Qed.

(** A setter that scans with [names_seen] and [duplicates]. *)
Lemma scanning_setter h m mo xs names f :
  h !! m = Some (ODomainModel mo) →
  names_of h xs = Return names →
  bind (read (λ h, names_of h xs))
       (λ names, if has_duplicates names
                 then raise (ValueError DuplicateName)
                 else update_model m f) h
  = if decide (NoDup names)
    then (Return tt, <[m := ODomainModel (f mo)]> h)
    else (Raise (ValueError DuplicateName), h).
Proof.
  intros Em Hn. unfold bind, read. rewrite Hn.
  case_decide as Hnd.
  - rewrite (proj2 (has_duplicates_false names) Hnd).
    by apply update_model_eq.
  - by rewrite (proj2 (has_duplicates_true names) Hnd).
Qed.
End domain_model_setters.

(** C5, as the code has it.  Four of the five setters scan the names of
    the collection they are to store and reject it, heap unchanged, when
    two of the names are equal: [associations], [packages] and
    [constraints] scan the collection given and store it; [types] scans
    and stores the collection given united with the primitive types.
    The [generalizations] setter scans nothing and stores what it is
    given, whatever that is.  A setter that succeeds changes its own
    field only. *)
Theorem collection_setters (h : Heap) (m : oid) (mo : DomainModelObj) :
  h !! m = Some (ODomainModel mo) →
  (∀ xs tnames,
     names_of h (PySet.update xs primitive_data_types) = Return tnames →
     DomainModel_set_types m xs h
     = (if decide (NoDup tnames)
        then (Return tt,
              <[m := ODomainModel
                       (set_dm_types (PySet.update xs primitive_data_types)
                          mo)]> h)
        else (Raise (ValueError DuplicateName), h))) ∧
  (∀ xs names,
     names_of h xs = Return names →
     DomainModel_set_associations m (Some xs) h
     = (if decide (NoDup names)
        then (Return tt, <[m := ODomainModel (set_dm_associations xs mo)]> h)
        else (Raise (ValueError DuplicateName), h)) ∧
     DomainModel_set_packages m (Some xs) h
     = (if decide (NoDup names)
        then (Return tt, <[m := ODomainModel (set_dm_packages xs mo)]> h)
        else (Raise (ValueError DuplicateName), h)) ∧
     DomainModel_set_constraints m (Some xs) h
     = (if decide (NoDup names)
        then (Return tt, <[m := ODomainModel (set_dm_constraints xs mo)]> h)
        else (Raise (ValueError DuplicateName), h))) ∧
  (∀ xs,
     DomainModel_set_generalizations m (Some xs) h
     = (Return tt, <[m := ODomainModel (set_dm_generalizations xs mo)]> h)).
Proof.
  intros Em. split_and!.
  - intros xs tnames Htn. by apply scanning_setter.
  - intros xs names Hn. split_and!.
    + by apply scanning_setter.
    + by apply scanning_setter.
    + unfold DomainModel_set_constraints, bind, read. rewrite Hn.
      case_decide as Hnd.
      * rewrite (proj2 (len_differs_false names) Hnd).
        by apply update_model_eq.
      * by rewrite (proj2 (len_differs_true names) Hnd).
  - intros xs. by apply update_model_eq.
Qed.

Lemma collection_setters_witness :
  (∀ xs tnames,
     names_of heap_model (PySet.update xs primitive_data_types)
     = Return tnames →
     DomainModel_set_types 9 xs heap_model
     = (if decide (NoDup tnames)
        then (Return tt,
              <[9 := ODomainModel
                       (set_dm_types (PySet.update xs primitive_data_types)
                          (mkDomainModel "m" [] [] [] [] []))]> heap_model)
        else (Raise (ValueError DuplicateName), heap_model))) ∧
  (∀ xs names,
     names_of heap_model xs = Return names →
     DomainModel_set_associations 9 (Some xs) heap_model
     = (if decide (NoDup names)
        then (Return tt,
              <[9 := ODomainModel
                       (set_dm_associations xs
                          (mkDomainModel "m" [] [] [] [] []))]> heap_model)
        else (Raise (ValueError DuplicateName), heap_model)) ∧
     DomainModel_set_packages 9 (Some xs) heap_model
     = (if decide (NoDup names)
        then (Return tt,
              <[9 := ODomainModel
                       (set_dm_packages xs
                          (mkDomainModel "m" [] [] [] [] []))]> heap_model)
        else (Raise (ValueError DuplicateName), heap_model)) ∧
     DomainModel_set_constraints 9 (Some xs) heap_model
     = (if decide (NoDup names)
        then (Return tt,
              <[9 := ODomainModel
                       (set_dm_constraints xs
                          (mkDomainModel "m" [] [] [] [] []))]> heap_model)
        else (Raise (ValueError DuplicateName), heap_model))) ∧
  (∀ xs,
     DomainModel_set_generalizations 9 (Some xs) heap_model
     = (Return tt,
        <[9 := ODomainModel
                 (set_dm_generalizations xs
                    (mkDomainModel "m" [] [] [] [] []))]> heap_model)).
Proof.
  apply (collection_setters heap_model 9 (mkDomainModel "m" [] [] [] [] [])).
  reflexivity.
Defined.

(** Two classes of one name are rejected by the [types] setter, and the
    model keeps the types it had. *)
Example types_setter_rejects_duplicates :
  DomainModel_set_types 9 [10; 11] heap_two_books
  = (Raise (ValueError DuplicateName), heap_two_books).
Proof. reflexivity. Qed.

(** The [types] setter, given the empty collection, succeeds and stores
    a collection that is not the one it was given. *)
Lemma types_setter_stores_primitives :
  ∃ h' mo, DomainModel_set_types 9 [] heap_model = (Return tt, h') ∧
           get_model h' 9 = Return mo ∧
           dm_types mo = primitive_data_types ∧
           dm_types mo ≠ [].
Proof.
  eexists _, _. split; [vm_compute; reflexivity|].
  split; [reflexivity|]. split; [reflexivity|]. done.
Qed.

(** ** Association: the setter of [ends] *)

Section rewiring.
Implicit Types (h : Heap) (A e c t : oid) (D N W : oid → Prop).

Lemma bind_Return_inv {X Y} (m : Py X) (k : X → Py Y) h y h' :
  bind m k h = (Return y, h') →
  ∃ x h1, m h = (Return x, h1) ∧ k x h1 = (Return y, h').
Proof.
  unfold bind. destruct (m h) as [[x|e] h1]; [eauto|done].
Qed.

Lemma read_Return_inv {X} (f : Heap → Outcome X) h x h' :
  read f h = (Return x, h') → f h = Return x ∧ h' = h.
Proof. unfold read. by intros [= -> ->]. Qed.

Lemma set_c_associations_id cls :
  set_c_associations cls (c_associations cls) = cls.
Proof. by destruct cls. Qed.

Lemma rewired_refl A h :
  rewired A (λ _, False) (λ _, False) (λ _, False) h h.
Proof.
  split; [done|]. intros i o Ei. destruct o; try done.
  - exists (c_associations c). rewrite set_c_associations_id.
    split_and!; [done|done|]. intros B. tauto.
  - right. tauto.
Qed.

Lemma rewired_iff A D N W D' N' W' h h' :
  (∀ i, D i ↔ D' i) → (∀ i, N i ↔ N' i) → (∀ i, W i ↔ W' i) →
  rewired A D N W h h' → rewired A D' N' W' h h'.
Proof.
  intros HD HN HW [Hlen Hobj]. split; [done|].
  intros i o Ei. specialize (Hobj i o Ei). destruct o; try done.
  - destruct Hobj as (s' & E' & Hnd & Hin). exists s'.
    split_and!; [done|done|]. intros B. rewrite Hin, HD, HN. tauto.
  - rewrite <- HW. done.
Qed.

Lemma rewired_trans A D1 N1 W1 D2 N2 W2 h h1 h2 :
  (∀ i, N1 i → D2 i → False) →
  rewired A D1 N1 W1 h h1 → rewired A D2 N2 W2 h1 h2 →
  rewired A (λ i, D1 i ∨ D2 i) (λ i, N1 i ∨ N2 i) (λ i, W1 i ∨ W2 i) h h2.
Proof.
  intros Hdisj [Hlen1 Hobj1] [Hlen2 Hobj2]. split; [congruence|].
  intros i o Ei. specialize (Hobj1 i o Ei). destruct o;
    try (by apply (Hobj2 i _ Hobj1)).
  - destruct Hobj1 as (s1 & E1 & Hnd1 & Hin1).
    destruct (Hobj2 i _ E1) as (s2 & E2 & Hnd2 & Hin2).
    exists s2. split_and!; [done|auto|].
    intros B. rewrite Hin2. simpl. rewrite Hin1.
    specialize (Hdisj i). tauto.
  - destruct Hobj1 as [[HW1 E1]|[HW1 E1]];
      destruct (Hobj2 i _ E1) as [[HW2 E2]|[HW2 E2]].
    + left. split; [tauto|]. by rewrite E2.
    + left. split; [tauto|]. done.
    + left. split; [tauto|]. done.
    + right. split; [tauto|]. done.
Qed.

(** What the footprint preserves. *)
Lemma rewired_lookup_None A D N W h h' i :
  rewired A D N W h h' → h !! i = None → h' !! i = None.
Proof.
  intros [Hlen _]. rewrite !lookup_ge_None. lia.
Qed.

Lemma rewired_get_type A D N W h h' e :
  rewired A D N W h h' → get_type h' e = get_type h e.
Proof.
  intros Hr. unfold get_type.
  destruct (h !! e) as [o|] eqn:Ee.
  - destruct Hr as [_ Hobj]. specialize (Hobj e o Ee).
    destruct o; try (by rewrite Hobj).
    + destruct Hobj as (s' & -> & _). done.
    + destruct Hobj as [[_ ->]|[_ ->]]; done.
  - by rewrite (rewired_lookup_None _ _ _ _ _ _ _ Hr Ee).
Qed.

Lemma rewired_get_association A D N W h h' B :
  rewired A D N W h h' → get_association h' B = get_association h B.
Proof.
  intros Hr. unfold get_association.
  destruct (h !! B) as [o|] eqn:Ee.
  - destruct Hr as [_ Hobj]. specialize (Hobj B o Ee).
    destruct o; try (by rewrite Hobj).
    + destruct Hobj as (s' & -> & _). done.
    + destruct Hobj as [[_ ->]|[_ ->]]; done.
  - by rewrite (rewired_lookup_None _ _ _ _ _ _ _ Hr Ee).
Qed.

Lemma rewired_get_ends A D N W h h' B :
  rewired A D N W h h' → get_ends h' B = get_ends h B.
Proof.
  intros Hr. unfold get_ends.
  destruct (h !! B) as [o|] eqn:Ee.
  - destruct Hr as [_ Hobj]. specialize (Hobj B o Ee).
    destruct o; try (by rewrite Hobj).
    + destruct Hobj as (s' & -> & _). done.
    + destruct Hobj as [[_ ->]|[_ ->]]; done.
  - by rewrite (rewired_lookup_None _ _ _ _ _ _ _ Hr Ee).
Qed.

Lemma rewired_class_inv A D N W h h' c cls' :
  rewired A D N W h h' → h' !! c = Some (OClass cls') →
  ∃ cls, h !! c = Some (OClass cls).
Proof.
  intros Hr Ec. destruct (h !! c) as [o|] eqn:Ee.
  - destruct Hr as [_ Hobj]. specialize (Hobj c o Ee).
    destruct o; try congruence; eauto.
    destruct Hobj as [[_ E]|[_ E]]; congruence.
  - rewrite (rewired_lookup_None _ _ _ _ _ _ _ Hr Ee) in Ec. done.
Qed.

Lemma rewired_property_inv A D N W h h' e p' :
  rewired A D N W h h' → h' !! e = Some (OProperty p') →
  ∃ p, h !! e = Some (OProperty p) ∧ p_type p = p_type p'.
Proof.
  intros Hr Ec. destruct (h !! e) as [o|] eqn:Ee.
  - destruct Hr as [_ Hobj]. specialize (Hobj e o Ee).
    destruct o; try congruence.
    + destruct Hobj as (? & ? & _). congruence.
    + destruct Hobj as [[_ E]|[_ E]]; rewrite E in Ec;
        injection Ec as <-; eauto.
  - rewrite (rewired_lookup_None _ _ _ _ _ _ _ Hr Ee) in Ec. done.
Qed.

(** The three steps. *)
Lemma delete_association_rewired A t h h' :
  Class_delete_association t A h = (Return tt, h') →
  rewired A (λ i, i = t) (λ _, False) (λ _, False) h h' ∧
  ∃ cls, h !! t = Some (OClass cls).
Proof.
  unfold Class_delete_association, update_class.
  destruct (h !! t) as [[]|] eqn:Et; try done.
  intros [= <-]. split; [|eauto]. split; [by rewrite length_insert|].
  intros i o Ei. destruct (decide (i = t)) as [->|Hne].
  - assert (o = OClass c) as -> by congruence.
    eexists. split; [apply list_lookup_insert_eq; by eapply lookup_lt_Some|].
    split; [apply PySetFacts.NoDup_discard|].
    intros B. rewrite PySetFacts.elem_of_discard.
    destruct (decide (B = A)); tauto.
  - rewrite list_lookup_insert_ne by done.
    destruct o; try done.
    + exists (c_associations c0). rewrite set_c_associations_id.
      split_and!; [done|done|]. intros B. tauto.
    + right. tauto.
Qed.

Lemma add_association_rewired A t h h' :
  Class_add_association t A h = (Return tt, h') →
  rewired A (λ _, False) (λ i, i = t) (λ _, False) h h' ∧
  ∃ cls, h !! t = Some (OClass cls).
Proof.
  unfold Class_add_association, update_class.
  destruct (h !! t) as [[]|] eqn:Et; try done.
  intros [= <-]. split; [|eauto]. split; [by rewrite length_insert|].
  intros i o Ei. destruct (decide (i = t)) as [->|Hne].
  - assert (o = OClass c) as -> by congruence.
    eexists. split; [apply list_lookup_insert_eq; by eapply lookup_lt_Some|].
    split; [apply PySetFacts.NoDup_add|].
    intros B. rewrite PySetFacts.elem_of_add. tauto.
  - rewrite list_lookup_insert_ne by done.
    destruct o; try done.
    + exists (c_associations c0). rewrite set_c_associations_id.
      split_and!; [done|done|]. intros B. tauto.
    + right. tauto.
Qed.

Lemma set_owner_rewired A e h h' :
  Property_set_owner e (Some A) h = (Return tt, h') →
  rewired A (λ _, False) (λ _, False) (λ i, i = e) h h' ∧
  ∃ p, h !! e = Some (OProperty p).
Proof.
  unfold Property_set_owner, check_owner, bind, read, ret, raise.
  destruct (isinstance_DataType h (Some A)); [done|].
  destruct (h !! e) as [[]|] eqn:Ee; try done.
  intros [= <-]. split; [|eauto]. split; [by rewrite length_insert|].
  intros i o Ei. destruct (decide (i = e)) as [->|Hne].
  - assert (o = OProperty p) as -> by congruence.
    left. split; [done|].
    apply list_lookup_insert_eq; by eapply lookup_lt_Some.
  - rewrite list_lookup_insert_ne by done.
    destruct o; try done.
    + exists (c_associations c). rewrite set_c_associations_id.
      split_and!; [done|done|]. intros B. tauto.
    + right. tauto.
Qed.
End rewiring.

Section ends_setter.
Implicit Types (h : Heap) (A e c t : oid).

Lemma delete_loop_rewired A old : ∀ h h1,
  for_ old (λ e, bind (read (λ h, get_type h e))
                      (λ t, Class_delete_association t A)) h
  = (Return tt, h1) →
  rewired A (λ c, ∃ e, e ∈ old ∧ get_type h e = Return c)
            (λ _, False) (λ _, False) h h1 ∧
  ∀ e, e ∈ old →
       ∃ t cls, get_type h e = Return t ∧ h !! t = Some (OClass cls).
Proof.
  induction old as [|e old IH]; intros h h1; simpl.
  - intros [= <-]. split.
    + eapply rewired_iff; [| | |apply rewired_refl]; try done.
      intros i. split; [done|]. by intros (e & ?%elem_of_nil & _).
    + by intros e ?%elem_of_nil.
  - intros ([] & ha & Hbody & Hrest)%bind_Return_inv.
    apply bind_Return_inv in Hbody as (t & ? & Hread & Hdel).
    apply read_Return_inv in Hread as [Ht ->].
    apply delete_association_rewired in Hdel as [Hr1 [cls Hcls]].
    apply IH in Hrest as [Hr2 Hcl2].
    split.
    + eapply rewired_iff; [| | |eapply rewired_trans; [|exact Hr1|exact Hr2]];
        simpl; try tauto.
      intros i. split.
      * intros [->|(e' & He' & Hte')]; [exists e; split; [by left|done]|].
        exists e'. split; [by right|].
        by rewrite <- (rewired_get_type _ _ _ _ _ _ e' Hr1).
      * intros (e' & [->|He']%elem_of_cons & Hte'); [left; congruence|].
        right. exists e'. split; [done|].
        by rewrite (rewired_get_type _ _ _ _ _ _ e' Hr1).
    + intros e' [->|He']%elem_of_cons; [eauto|].
      destruct (Hcl2 e' He') as (t' & cls' & Ht' & Hc').
      rewrite (rewired_get_type _ _ _ _ _ _ e' Hr1) in Ht'.
      destruct (rewired_class_inv _ _ _ _ _ _ _ _ Hr1 Hc') as [cls0 Hc0].
      eauto.
Qed.

Lemma add_loop_rewired A new : ∀ h h1,
  for_ new (λ e, bind (Property_set_owner e (Some A))
                      (λ _, bind (read (λ h, get_type h e))
                                 (λ t, Class_add_association t A))) h
  = (Return tt, h1) →
  rewired A (λ _, False) (λ c, ∃ e, e ∈ new ∧ get_type h e = Return c)
            (λ i, i ∈ new) h h1 ∧
  ∀ e, e ∈ new →
       ∃ p cls, h !! e = Some (OProperty p) ∧
                h !! p_type p = Some (OClass cls).
Proof.
  induction new as [|e new IH]; intros h h1; simpl.
  - intros [= <-]. split.
    + eapply rewired_iff; [| | |apply rewired_refl]; try done.
      * intros i. split; [done|]. by intros (e & ?%elem_of_nil & _).
      * intros i. split; [done|]. by intros ?%elem_of_nil.
    + by intros e ?%elem_of_nil.
  - intros ([] & ha & Hbody & Hrest)%bind_Return_inv.
    apply bind_Return_inv in Hbody as ([] & hb & Hown & Hbody).
    apply bind_Return_inv in Hbody as (t & ? & Hread & Hadd).
    apply read_Return_inv in Hread as [Ht ->].
    apply set_owner_rewired in Hown as [Hr0 [p Hp]].
    apply add_association_rewired in Hadd as [Hr1 [cls Hcls]].
    apply IH in Hrest as [Hr2 Hcl2].
    pose proof (rewired_trans _ _ _ _ _ _ _ _ _ _ (λ _ F _, F) Hr0 Hr1)
      as Hr01.
    rewrite (rewired_get_type _ _ _ _ _ _ e Hr0) in Ht.
    split.
    + eapply rewired_iff;
        [| | |eapply rewired_trans; [|exact Hr01|exact Hr2]];
        simpl; try tauto.
      * intros i. split.
        -- intros [[[] | ->] | (e' & He' & Hte')];
             [exists e; split; [by left|done]|].
           exists e'. split; [by right|].
           by rewrite <- (rewired_get_type _ _ _ _ _ _ e' Hr01).
        -- intros (e' & [->|He']%elem_of_cons & Hte');
             [left; right; congruence|].
           right. exists e'. split; [done|].
           by rewrite (rewired_get_type _ _ _ _ _ _ e' Hr01).
      * intros i. rewrite elem_of_cons. tauto.
    + intros e' [->|He']%elem_of_cons.
      * destruct (rewired_class_inv _ _ _ _ _ _ _ _ Hr0 Hcls) as [cls0 ?].
        exists p, cls0. split; [done|].
        unfold get_type in Ht. rewrite Hp in Ht. by injection Ht as ->.
      * destruct (Hcl2 e' He') as (p' & cls' & Hp' & Hc').
        destruct (rewired_property_inv _ _ _ _ _ _ _ _ Hr01 Hp')
          as (p0 & Hp0 & Htp).
        rewrite <- Htp in Hc'.
        destruct (rewired_class_inv _ _ _ _ _ _ _ _ Hr01 Hc') as [cls0 Hc0].
        eauto.
Qed.

Lemma ends_fset_footprint A new h h' :
  Association_ends_fset A new h = (Return tt, h') →
  set_ends_footprint A new h h'.
Proof.
  unfold Association_ends_fset. case_decide; [done|].
  intros (a & ? & Hread & Hrest)%bind_Return_inv.
  apply read_Return_inv in Hread as [Ha ->].
  unfold get_association in Ha.
  destruct (h !! A) as [[]|] eqn:EA; try done.
  injection Ha as <-. simpl in Hrest.
  apply bind_Return_inv in Hrest as ([] & h1 & Hdel & Hrest).
  apply bind_Return_inv in Hrest as ([] & h2 & Hadd & Hstore).
  assert (rewired A
            (λ c, ∃ old e, ends = Some old ∧ e ∈ old ∧
                           get_type h e = Return c)
            (λ _, False) (λ _, False) h h1 ∧
          ∀ old e, ends = Some old → e ∈ old →
            ∃ t cls, get_type h e = Return t ∧ h !! t = Some (OClass cls))
    as [Hr1 Hold].
  { destruct ends as [old|].
    - apply delete_loop_rewired in Hdel as [Hr Hcl]. split.
      + eapply rewired_iff; [| | |exact Hr]; try done.
        intros i. split; [intros (e & ? & ?); eauto|].
        intros (? & e & [= <-] & ? & ?). eauto.
      + intros ? e [= <-]. apply Hcl.
    - injection Hdel as <-. split; [|done].
      eapply rewired_iff; [| | |apply rewired_refl]; try done.
      intros i. split; [done|]. by intros (? & ? & ? & _). }
  apply add_loop_rewired in Hadd as [Hr2 Hnew].
  pose proof (rewired_trans _ _ _ _ _ _ _ _ _ _ (λ _ F _, F) Hr1 Hr2)
    as Hr.
  destruct Hr1 as [Hlen1 Hobj1]. pose proof (Hobj1 A _ EA) as EA1.
  destruct Hr2 as [Hlen2 Hobj2]. pose proof (Hobj2 A _ EA1) as EA2.
  simpl in EA1, EA2.
  unfold store_ends in Hstore. rewrite EA2 in Hstore.
  injection Hstore as <-.
  exists binary, name, ends, h2. split_and!; [done| |done|done|].
  - eapply rewired_iff; [| | |exact Hr]; simpl; try tauto.
    intros i. split; [intros [[]|(e & ? & Ht)]|intros (e & ? & Ht)].
    + exists e. split; [done|].
      by rewrite <- (rewired_get_type _ _ _ _ _ _ e (conj Hlen1 Hobj1)).
    + right. exists e. split; [done|].
      by rewrite (rewired_get_type _ _ _ _ _ _ e (conj Hlen1 Hobj1)).
  - intros e He. destruct (Hnew e He) as (p & cls & Hp & Hc).
    destruct (rewired_property_inv _ _ _ _ _ _ _ _ (conj Hlen1 Hobj1) Hp)
      as (p0 & Hp0 & Htp).
    rewrite <- Htp in Hc.
    destruct (rewired_class_inv _ _ _ _ _ _ _ _ (conj Hlen1 Hobj1) Hc)
      as [cls0 Hc0].
    eauto.
Qed.

Lemma set_ends_footprint_of A new h h' :
  Association_set_ends A new h = (Return tt, h') →
  set_ends_footprint A new h h'.
Proof.
  unfold Association_set_ends.
  intros (a & ? & Hread & Hrest)%bind_Return_inv.
  apply read_Return_inv in Hread as [Ha ->].
  destruct (a.1.1); [|by apply ends_fset_footprint].
  unfold BinaryAssociation_ends_fset in Hrest.
  destruct new as [|e0 [|e1 [|]]]; try done.
  apply bind_Return_inv in Hrest as (c0 & ? & [_ ->]%read_Return_inv & Hrest).
  apply bind_Return_inv in Hrest as (c1 & ? & Hc1 & Hrest).
  assert (x = h) as ->.
  { destruct c0; [by apply read_Return_inv in Hc1 as [_ ->]|].
    by injection Hc1 as _ <-. }
  destruct (c0 && c1); [done|]. by apply ends_fset_footprint.
Qed.
End ends_setter.

Section ends_consistency.
Implicit Types (h : Heap) (A e c t : oid).

Lemma get_type_store_ends h A b n o o' e :
  h !! A = Some (OAssociation b n o) →
  get_type (<[A := OAssociation b n o']> h) e = get_type h e.
Proof.
  intros EA. unfold get_type. destruct (decide (e = A)) as [->|Hne].
  - rewrite list_lookup_insert_eq by (by eapply lookup_lt_Some).
    by rewrite EA.
  - by rewrite list_lookup_insert_ne.
Qed.

Lemma get_owner_store_ends h A b n o o' e :
  h !! A = Some (OAssociation b n o) →
  get_owner (<[A := OAssociation b n o']> h) e = get_owner h e.
Proof.
  intros EA. unfold get_owner. destruct (decide (e = A)) as [->|Hne].
  - rewrite list_lookup_insert_eq by (by eapply lookup_lt_Some).
    by rewrite EA.
  - by rewrite list_lookup_insert_ne.
Qed.

Lemma lookup_class_store_ends h A b n o o' c cls :
  h !! A = Some (OAssociation b n o) →
  <[A := OAssociation b n o']> h !! c = Some (OClass cls) ↔
  h !! c = Some (OClass cls).
Proof.
  intros EA. destruct (decide (c = A)) as [->|Hne].
  - rewrite list_lookup_insert_eq by (by eapply lookup_lt_Some).
    rewrite EA. split; congruence.
  - by rewrite list_lookup_insert_ne.
Qed.

(** One assignment that returns keeps the back-references exact. *)
Lemma set_ends_consistent A new h h' :
  Association_set_ends A new h = (Return tt, h') →
  backrefs_consistent h → backrefs_consistent h'.
Proof.
  intros (b & n & old_opt & h2 & EA & Hr & -> & _ & _)%set_ends_footprint_of.
  intros Hcons c cls' Ec'.
  pose proof Hr as [Hlen Hobj]. pose proof (Hobj A _ EA) as EA2.
  simpl in EA2.
  apply (lookup_class_store_ends _ _ _ _ _ _ _ _ EA2) in Ec'.
  destruct (rewired_class_inv _ _ _ _ _ _ _ _ Hr Ec') as [cls Ec].
  destruct (Hobj c _ Ec) as (s' & Ec2 & Hnd & Hin). simpl in Ec2.
  assert (cls' = set_c_associations cls s') as -> by congruence.
  destruct (Hcons c cls Ec) as [Hnd0 Hin0]. simpl.
  split; [auto|]. intros B. rewrite Hin.
  setoid_rewrite (get_type_store_ends _ _ _ _ _ _ _ EA2).
  setoid_rewrite (rewired_get_type _ _ _ _ _ _ _ Hr).
  destruct (decide (B = A)) as [->|Hne].
  - unfold get_ends at 1.
    rewrite list_lookup_insert_eq by (by eapply lookup_lt_Some).
    split.
    + intros [[HA Hnot]|[_ (e & He & Ht)]]; [|eauto].
      exfalso. apply Hnot. split; [done|].
      apply Hin0 in HA as (old & e & Hold & He & Ht).
      unfold get_ends in Hold. rewrite EA in Hold.
      destruct old_opt; [|done]. injection Hold as ->. eauto.
    + intros (ends & e & [= <-] & He & Ht). right. eauto.
  - unfold get_ends at 1. rewrite list_lookup_insert_ne by done.
    fold (get_ends h2 B). rewrite (rewired_get_ends _ _ _ _ _ _ B Hr).
    rewrite Hin0. split; [|by left; split; [|intros [? _]]].
    intros [[? _]|[? _]]; done.
Qed.

Lemma ends_reassigned_consistent h0 h :
  ends_reassigned h0 h → backrefs_consistent h0 → backrefs_consistent h.
Proof.
  induction 1 as [|h0 h1 h2 A ends _ IH Hstep]; [done|].
  intros Hc. by eapply set_ends_consistent, IH.
Qed.
End ends_consistency.

(** C1.  When the assignment [A.ends = new] returns: [A] is absent from
    the associations of the type of every old end, unless a new end has
    that type; [A] is in the associations of the type of every new end,
    whose owner is [A]; the ends of [A] are [new]; and if the heap was
    reached, by assignments to [ends] that returned, from a heap whose
    back-references were exact, they are exact again: a class holds an
    association, once, exactly when an end of the association is typed by
    the class. *)
Theorem ends_reassignment_rewires (h h' : Heap) (A : oid) (new : list oid) :
  Association_set_ends A new h = (Return tt, h') →
  (∀ old e, get_ends h A = Return old → e ∈ old →
     ∃ c cls', get_type h' e = Return c ∧ h' !! c = Some (OClass cls') ∧
               ((∀ e', e' ∈ new → get_type h' e' ≠ Return c) →
                A ∉ c_associations cls')) ∧
  (∀ e, e ∈ new →
     ∃ c cls', get_type h' e = Return c ∧ h' !! c = Some (OClass cls') ∧
               A ∈ c_associations cls' ∧
               get_owner h' e = Return (Some A)) ∧
  get_ends h' A = Return new ∧
  (∀ h0, backrefs_consistent h0 → ends_reassigned h0 h →
         backrefs_consistent h').
Proof.
  intros Hset. pose proof Hset as Hfoot.
  apply set_ends_footprint_of in Hfoot
    as (b & n & old_opt & h2 & EA & Hr & -> & Hold & Hnew).
  pose proof Hr as [Hlen Hobj]. pose proof (Hobj A _ EA) as EA2.
  simpl in EA2.
  split_and!.
  - intros old e Hget He. unfold get_ends in Hget. rewrite EA in Hget.
    destruct old_opt as [old'|]; [|done]. injection Hget as ->.
    destruct (Hold old e eq_refl He) as (c & cls & Ht & Ec).
    destruct (Hobj c _ Ec) as (s' & Ec2 & _ & Hin). simpl in Ec2.
    exists c, (set_c_associations cls s'). split_and!.
    + by rewrite (get_type_store_ends _ _ _ _ _ _ _ EA2),
        (rewired_get_type _ _ _ _ _ _ _ Hr).
    + by apply (lookup_class_store_ends _ _ _ _ _ _ _ _ EA2).
    + intros Hnone. simpl. rewrite Hin.
      intros [[_ Hnot]|[_ (e' & He' & Ht')]].
      * apply Hnot. split; [done|]. eauto.
      * apply (Hnone e' He').
        by rewrite (get_type_store_ends _ _ _ _ _ _ _ EA2),
          (rewired_get_type _ _ _ _ _ _ _ Hr).
  - intros e He. destruct (Hnew e He) as (p & cls & Ep & Ec).
    assert (Ht : get_type h e = Return (p_type p))
      by (unfold get_type; by rewrite Ep).
    destruct (Hobj _ _ Ec) as (s' & Ec2 & _ & Hin). simpl in Ec2.
    exists (p_type p), (set_c_associations cls s'). split_and!.
    + by rewrite (get_type_store_ends _ _ _ _ _ _ _ EA2),
        (rewired_get_type _ _ _ _ _ _ _ Hr).
    + by apply (lookup_class_store_ends _ _ _ _ _ _ _ _ EA2).
    + simpl. apply Hin. right. eauto.
    + rewrite (get_owner_store_ends _ _ _ _ _ _ _ EA2).
      unfold get_owner.
      destruct (Hobj e _ Ep) as [[_ ->]|[Hn _]]; done.
  - unfold get_ends.
    by rewrite list_lookup_insert_eq by (by eapply lookup_lt_Some).
  - intros h0 Hc0 Hsteps. eapply set_ends_consistent; [exact Hset|].
    by eapply ends_reassigned_consistent.
Qed.

Lemma ends_reassignment_rewires_witness :
  let h' := (Association_set_ends 15 [13; 14] heap_assoc).2 in
  (∀ old e, get_ends heap_assoc 15 = Return old → e ∈ old →
     ∃ c cls', get_type h' e = Return c ∧ h' !! c = Some (OClass cls') ∧
               ((∀ e', e' ∈ [13; 14] → get_type h' e' ≠ Return c) →
                15 ∉ c_associations cls')) ∧
  (∀ e, e ∈ [13; 14] →
     ∃ c cls', get_type h' e = Return c ∧ h' !! c = Some (OClass cls') ∧
               15 ∈ c_associations cls' ∧
               get_owner h' e = Return (Some 15)) ∧
  get_ends h' 15 = Return [13; 14] ∧
  (∀ h0, backrefs_consistent h0 → ends_reassigned h0 heap_assoc →
         backrefs_consistent h').
Proof.
  intros h'.
  apply (ends_reassignment_rewires heap_assoc h' 15 [13; 14]).
  vm_compute. reflexivity.
Defined.

(** The heap the witness starts from has exact back-references. *)
Lemma heap_assoc_consistent : backrefs_consistent heap_assoc.
Proof.
  intros c cls Ec.
  do 9 (destruct c as [|c]; [done|]).
  destruct c as [|[|[|c]]]; simpl in Ec.
  - injection Ec as <-. simpl. split; [apply NoDup_singleton|].
    intros A. rewrite list_elem_of_singleton. split.
    + intros ->. exists [12; 13], 12. split_and!; [done|by left|done].
    + intros (ends & e & Hends & He & Ht).
      destruct (decide (A = 15)) as [->|]; [done|].
      exfalso. unfold get_ends in Hends.
      do 16 (destruct A as [|A]; [done|]). by destruct A.
  - injection Ec as <-. simpl. split; [apply NoDup_singleton|].
    intros A. rewrite list_elem_of_singleton. split.
    + intros ->. exists [12; 13], 13. split_and!; [done| |done].
      right. by left.
    + intros (ends & e & Hends & He & Ht).
      destruct (decide (A = 15)) as [->|]; [done|].
      exfalso. unfold get_ends in Hends.
      do 16 (destruct A as [|A]; [done|]). by destruct A.
  - injection Ec as <-. simpl. split; [apply NoDup_nil_2|].
    intros A. rewrite elem_of_nil. split; [done|].
    intros (ends & e & Hends & He & Ht).
    unfold get_ends in Hends.
    do 15 (destruct A as [|A]; [done|]).
    destruct A as [|A]; [|by destruct A].
    injection Hends as <-.
    apply elem_of_cons in He as [->|He]; [done|].
    apply list_elem_of_singleton in He as ->. done.
  - do 4 (destruct c as [|c]; [done|]). by destruct c.
Qed.

(** ** Class.association_ends *)

Section association_ends.
Implicit Types (h : Heap) (C A B e : oid) (ends : list oid).

(** The loop that discards the ends typed by the class itself. *)
Lemma discard_loop h C (l : list oid) : ∀ start,
  (∀ e, e ∈ l → ∃ t, get_type h e = Return t) →
  ∃ r, ofoldl (λ ends e,
                 obind (get_type h e)
                   (λ t, Return (if decide (t = C)
                                 then PySet.discard e ends else ends)))
              start l = Return r ∧
       ∀ x, x ∈ r ↔ x ∈ start ∧ ¬ (x ∈ l ∧ get_type h x = Return C).
Proof.
  induction l as [|e l IH]; intros start Hty; simpl.
  - exists start. split; [done|]. intros x. rewrite elem_of_nil. tauto.
  - destruct (Hty e) as [t Ht]; [by left|]. rewrite Ht. simpl.
    destruct (IH (if decide (t = C) then PySet.discard e start else start))
      as (r & -> & Hr).
    { intros e' He'. apply Hty. by right. }
    exists r. split; [done|]. intros x. rewrite Hr, elem_of_cons.
    case_decide as HtC.
    + subst t. rewrite PySetFacts.elem_of_discard.
      destruct (decide (x = e)) as [->|]; [tauto|]. tauto.
    + destruct (decide (x = e)) as [->|]; [|tauto].
      split; [|tauto]. intros [? Hn]. split; [done|].
      intros [_ Hx]. rewrite Ht in Hx. by injection Hx.
Qed.

Lemma same_type_test h bends :
  (∀ e, e ∈ bends → ∃ t, get_type h e = Return t) →
  ∃ b : bool,
    match bends with
    | [e0; e1] =>
        obind (get_type h e0)
          (λ t0, obind (get_type h e1)
                   (λ t1, Return (bool_decide (t0 = t1))))
    | _ => Return false
    end = Return b ∧
    (b = true ↔ two_ends_same_type h bends).
Proof.
  intros Hty. unfold two_ends_same_type.
  destruct bends as [|e0 [|e1 [|e2 bends]]].
  - exists false. split; [done|]. split; [done|]. by intros (?&?&?&?&_).
  - exists false. split; [done|]. split; [done|]. by intros (?&?&?&?&_).
  - destruct (Hty e0) as [t0 Ht0]; [by left|].
    destruct (Hty e1) as [t1 Ht1]; [right; by left|].
    rewrite Ht0, Ht1. simpl. exists (bool_decide (t0 = t1)).
    split; [done|]. rewrite bool_decide_eq_true. split.
    + intros ->. eauto 6.
    + intros (? & ? & t & [= <- <-] & Ha & Hb). congruence.
  - exists false. split; [done|]. split; [done|]. by intros (?&?&?&?&_).
Qed.

(** One turn of the loop over the associations of the class. *)
Lemma association_ends_step_spec h C ends B bends :
  get_ends h B = Return bends →
  (∀ e, e ∈ bends → ∃ t, get_type h e = Return t) →
  ∃ ends', association_ends_step h C ends B = Return ends' ∧
           ∀ x, x ∈ ends' ↔
                (x ∈ ends ∨ x ∈ bends) ∧
                (two_ends_same_type h bends ∨
                 ¬ (x ∈ bends ∧ get_type h x = Return C)).
Proof.
  intros Hb Hty. unfold association_ends_step. rewrite Hb. simpl.
  destruct (same_type_test h bends Hty) as (b & -> & Hsame). simpl.
  destruct b.
  - eexists. split; [done|]. intros x.
    rewrite PySetFacts.elem_of_update.
    assert (two_ends_same_type h bends) by by apply Hsame.
    tauto.
  - destruct (discard_loop h C bends (PySet.update ends bends) Hty)
      as (r & -> & Hr).
    exists r. split; [done|]. intros x.
    rewrite Hr, PySetFacts.elem_of_update.
    assert (¬ two_ends_same_type h bends).
    { intros Ht. by apply Hsame in Ht. }
    tauto.
Qed.

Lemma association_ends_returns h C (L : list oid) : ∀ ends0,
  (∀ B, B ∈ L → association_built h B) →
  ∃ r, ofoldl (association_ends_step h C) ends0 L = Return r.
Proof.
  induction L as [|B L IH]; intros ends0 Hbuilt; simpl; [by eexists|].
  destruct (Hbuilt B) as (bends & Hb & Hty); [by left|].
  destruct (association_ends_step_spec h C ends0 B bends Hb Hty)
    as (ends1 & -> & _). simpl.
  apply IH. intros B' HB'. apply Hbuilt. by right.
Qed.

(** The loop, followed for one end [e] of one association [A] whose
    ends no other association of the class shares. *)
Lemma association_ends_loop h C A aends e (L : list oid) : ∀ ends0,
  get_ends h A = Return aends →
  e ∈ aends →
  (∀ B, B ∈ L → association_built h B) →
  (∀ B bends, B ∈ L → B ≠ A → get_ends h B = Return bends → e ∉ bends) →
  ∃ r, ofoldl (association_ends_step h C) ends0 L = Return r ∧
       (A ∈ L → (e ∈ r ↔ two_ends_same_type h aends ∨
                          get_type h e ≠ Return C)) ∧
       (A ∉ L → (e ∈ r ↔ e ∈ ends0)).
Proof.
  induction L as [|B L IH]; intros ends0 HA He Hbuilt Hshare; simpl.
  - exists ends0. split; [done|]. split; [by intros ?%elem_of_nil|done].
  - destruct (Hbuilt B) as (bends & Hb & Hty); [by left|].
    destruct (association_ends_step_spec h C ends0 B bends Hb Hty)
      as (ends1 & -> & H1). simpl.
    destruct (IH ends1 HA He) as (r & -> & Hin & Hout).
    { intros B' HB'. apply Hbuilt. by right. }
    { intros B' bends' HB'. apply Hshare. by right. }
    exists r. split; [done|].
    destruct (decide (A ∈ L)) as [HAL|HAL].
    + split; [intros _; by apply Hin|].
      intros Hn. destruct Hn. by right.
    + rewrite (Hout HAL), H1. destruct (decide (B = A)) as [->|Hne].
      * assert (bends = aends) as -> by congruence.
        split; [intros _|intros Hn; destruct Hn; by left]. tauto.
      * assert (e ∉ bends) by (eapply Hshare; [by left|done|done]).
        split; [intros [?|?]%elem_of_cons; congruence|].
        intros _. tauto.
Qed.
End association_ends.




(** [heap_shared_end] is what building the two associations over the
    shared end builds. *)
Example heap_shared_end_constructed :
  bind (Association_init true "self" [11; 12])
       (λ _, Association_init true "cross" [11; 13])
       heap_three_ends
  = (Return 15, heap_shared_end).
Proof. reflexivity. Qed.

(** ** Class.parents and Class.all_parents *)

Section parents.
Implicit Types (h : Heap) (c p g x : oid).

Lemma parents_loop h c (gs : list oid) : ∀ start,
  (∀ g, g ∈ gs → ∃ p, get_general h g = Return p) →
  ∃ r, ofoldl (λ parents g,
                 obind (get_general h g)
                   (λ general,
                      Return (if decide (general ≠ c)
                              then PySet.add general parents
                              else parents)))
              start gs = Return r ∧
       ∀ p, p ∈ r ↔
            p ∈ start ∨
            (p ≠ c ∧ ∃ g, g ∈ gs ∧ get_general h g = Return p).
Proof.
  induction gs as [|g gs IH]; intros start Hset; simpl.
  - exists start. split; [done|]. intros p. split; [auto|].
    intros [?|[_ (g & ?%elem_of_nil & _)]]; done.
  - destruct (Hset g) as [q Hq]; [by left|]. rewrite Hq. simpl.
    destruct (IH (if decide (q ≠ c) then PySet.add q start else start))
      as (r & -> & Hr).
    { intros g' Hg'. apply Hset. by right. }
    exists r. split; [done|]. intros p. rewrite Hr.
    setoid_rewrite elem_of_cons. case_decide as Hqc.
    + rewrite PySetFacts.elem_of_add. split.
      * intros [[->|?]|(? & g' & ? & ?)]; [right|by left|right]; eauto.
      * intros [?|(? & g' & [->|?] & Hg')]; [tauto| |right; eauto].
        left. left. congruence.
    + subst q. split.
      * intros [?|(? & g' & ? & ?)]; [by left|right; eauto].
      * intros [?|(? & g' & [->|?] & Hg')]; [tauto| |right; eauto].
        congruence.
Qed.

Lemma Class_parents_local h c cls :
  h !! c = Some (OClass cls) →
  (∀ g, g ∈ c_generalizations cls → ∃ p, get_general h g = Return p) →
  ∃ ps, Class_parents h c = Return ps ∧
        ∀ p, p ∈ ps ↔
             p ≠ c ∧ ∃ g, g ∈ c_generalizations cls ∧
                          get_general h g = Return p.
Proof.
  intros Ec Hset. unfold Class_parents, get_class. rewrite Ec. simpl.
  destruct (parents_loop h c (c_generalizations cls) [] Hset)
    as (ps & -> & Hps).
  exists ps. split; [done|]. intros p. rewrite Hps, elem_of_nil. tauto.
Qed.

Lemma Class_parents_spec h c cls :
  generalizations_built h →
  h !! c = Some (OClass cls) →
  ∃ ps, Class_parents h c = Return ps ∧
        ∀ p, p ∈ ps ↔
             p ≠ c ∧ ∃ g, g ∈ c_generalizations cls ∧
                          get_general h g = Return p.
Proof.
  intros Hb Ec. apply Class_parents_local; [done|].
  intros g Hg. destruct (Hb c cls g Ec Hg) as (p & _ & Hp & _). eauto.
Qed.

Lemma parent_of_class h c p :
  generalizations_built h → parent_of h c p →
  (∃ cls, h !! c = Some (OClass cls)) ∧ ∃ pc, h !! p = Some (OClass pc).
Proof.
  intros Hb (ps & Hps & Hp).
  destruct (h !! c) as [[]|] eqn:Ec;
    try (unfold Class_parents, get_class in Hps; by rewrite Ec in Hps).
  split; [eauto|].
  destruct (Class_parents_spec h c _ Hb Ec) as (ps' & Hps' & Hin).
  assert (ps' = ps) as -> by congruence.
  destruct (proj1 (Hin p) Hp) as (_ & g & Hg & Hgen).
  destruct (Hb c _ g Ec Hg) as (p' & pc & Hp' & Hpc).
  assert (p' = p) as -> by congruence. eauto.
Qed.

Lemma tc_parent_class h c p :
  generalizations_built h → tc (parent_of h) c p →
  ∃ pc, h !! p = Some (OClass pc).
Proof.
  intros Hb. induction 1 as [c p H|c q p H _ IH]; [|done].
  by destruct (parent_of_class h c p Hb H).
Qed.

Lemma Class_all_parents_unfold fuel h c :
  Class_all_parents (S fuel) h c =
  obind (Class_parents h c)
    (λ ps, obind (Class_parents h c)
             (λ ps', ofoldl
                       (λ all_parents parent,
                          obind (Class_all_parents fuel h parent)
                            (λ r, Return (PySet.update all_parents r)))
                       (PySet.update [] ps) ps')).
Proof. reflexivity. Qed.

Lemma all_parents_loop h fuel (l : list oid) : ∀ start,
  (∀ p, p ∈ l →
     ∃ Sp, Class_all_parents fuel h p = Return Sp ∧
           ∀ x, x ∈ Sp ↔ tc (parent_of h) p x) →
  ∃ r, ofoldl (λ all_parents parent,
                 obind (Class_all_parents fuel h parent)
                   (λ r, Return (PySet.update all_parents r)))
              start l = Return r ∧
       ∀ x, x ∈ r ↔ x ∈ start ∨ ∃ p, p ∈ l ∧ tc (parent_of h) p x.
Proof.
  induction l as [|p l IH]; intros start Hrec; simpl.
  - exists start. split; [done|]. intros x. split; [auto|].
    intros [?|(p & ?%elem_of_nil & _)]; done.
  - destruct (Hrec p) as (Sp & -> & HSp); [by left|]. simpl.
    destruct (IH (PySet.update start Sp)) as (r & -> & Hr).
    { intros p' Hp'. apply Hrec. by right. }
    exists r. split; [done|]. intros x.
    rewrite Hr, PySetFacts.elem_of_update, HSp.
    setoid_rewrite elem_of_cons. split.
    + intros [[?|?]|(p' & ? & ?)]; [by left|right|right]; eauto.
    + intros [?|(p' & [->|?] & ?)]; [tauto|tauto|right; eauto].
Qed.

(** A list without repetition of valid identities is no longer than the
    heap. *)
Lemma NoDup_bounded_length (l : list oid) (n : nat) :
  NoDup l → (∀ x, x ∈ l → x < n) → length l ≤ n.
Proof.
  intros Hnd Hlt.
  pose proof (submseteq_length l (seq 0 n)) as Hle.
  rewrite length_seq in Hle. apply Hle, NoDup_submseteq; [done|].
  intros x Hx. apply elem_of_seq. specialize (Hlt x Hx). lia.
Qed.

(** The recursion, with the chain [seen] of the callers. *)
Lemma all_parents_terminates h root :
  generalizations_built h → acyclic_from h root →
  ∀ fuel seen c cls,
    h !! c = Some (OClass cls) →
    rtc (parent_of h) root c →
    NoDup seen → c ∉ seen →
    (∀ s, s ∈ seen → s < length h ∧ tc (parent_of h) s c) →
    length h ≤ fuel + length seen →
    ∃ S, Class_all_parents fuel h c = Return S ∧
         ∀ x, x ∈ S ↔ tc (parent_of h) c x.
Proof.
  intros Hb Hacyc. induction fuel as [|fuel IH];
    intros seen c cls Ec Hreach Hnd Hc Hseen Hfuel.
  - exfalso.
    assert (length (c :: seen) ≤ length h); [|simpl in *; lia].
    apply NoDup_bounded_length; [by constructor|].
    intros x [->|Hx]%elem_of_cons; [by eapply lookup_lt_Some|].
    by apply Hseen.
  - rewrite Class_all_parents_unfold.
    destruct (Class_parents_spec h c cls Hb Ec) as (ps & Hps & Hin).
    rewrite Hps. simpl.
    assert (HR : ∀ p, p ∈ ps ↔ parent_of h c p).
    { intros p. split; [intros ?; by exists ps|].
      intros (ps' & Hps' & ?). congruence. }
    destruct (all_parents_loop h fuel ps (PySet.update [] ps))
      as (r & -> & Hr).
    { intros p Hp. apply HR in Hp.
      destruct (parent_of_class h c p Hb Hp) as [_ [pc Epc]].
      apply (IH (c :: seen) p pc Epc).
      - eapply rtc_r; eauto.
      - by constructor.
      - intros [->|Hps']%elem_of_cons.
        + apply (Hacyc c Hreach). by apply tc_once.
        + apply (Hacyc p); [eapply rtc_r; eauto|].
          eapply tc_r; [|exact Hp]. by apply Hseen.
      - intros s [->|Hs]%elem_of_cons.
        + split; [by eapply lookup_lt_Some|by apply tc_once].
        + destruct (Hseen s Hs). split; [done|]. by eapply tc_r.
      - simpl. lia. }
    exists r. split; [done|]. intros x.
    rewrite Hr, PySetFacts.elem_of_update, elem_of_nil. split.
    + intros [[[]|Hx]|(p & Hp & Hpx)].
      * apply tc_once. by apply HR.
      * eapply tc_l; [|exact Hpx]. by apply HR.
    + intros Htc. inversion Htc as [? ? H1|? p ? H1 H2]; subst.
      * left. right. by apply HR.
      * right. exists p. split; [by apply HR|done].
Qed.
End parents.


(** A rank that decreases along every generalization excludes cycles. *)
Lemma ranked_acyclic (h : Heap) (rank : oid → nat) :
  (∀ c p, parent_of h c p → rank p < rank c) →
  ∀ c, ¬ tc (parent_of h) c c.
Proof.
  intros Hrank.
  assert (∀ c p, tc (parent_of h) c p → rank p < rank c) as Htc.
  { induction 1 as [c p H|c q p H _ IH]; [by apply Hrank|].
    specialize (Hrank c q H). lia. }
  intros c Hc. specialize (Htc c c Hc). lia.
Qed.

Lemma heap_chain_built : generalizations_built heap_chain.
Proof.
  intros c cls g Ec Hg.
  do 9 (destruct c as [|c]; [done|]).
  destruct c as [|[|[|c]]]; simpl in Ec.
  - injection Ec as <-. simpl in Hg.
    apply list_elem_of_singleton in Hg as ->. by eexists _, _.
  - injection Ec as <-. simpl in Hg.
    apply elem_of_cons in Hg as [->|Hg]; [by eexists _, _|].
    apply list_elem_of_singleton in Hg as ->. by eexists _, _.
  - injection Ec as <-. simpl in Hg.
    apply list_elem_of_singleton in Hg as ->. by eexists _, _.
  - do 6 (destruct c as [|c]; [done|]). by destruct c.
Qed.

Lemma heap_chain_ranked c p : parent_of heap_chain c p → p < c.
Proof.
  intros (ps & Hps & Hp). unfold Class_parents, get_class in Hps.
  do 9 (destruct c as [|c]; [done|]).
  destruct c as [|[|[|c]]]; simpl in Hps.
  - injection Hps as <-. by apply elem_of_nil in Hp.
  - injection Hps as <-. apply list_elem_of_singleton in Hp as ->. lia.
  - injection Hps as <-. apply list_elem_of_singleton in Hp as ->. lia.
  - do 6 (destruct c as [|c]; [done|]). by destruct c.
Qed.

Lemma heap_chain_acyclic c : acyclic_from heap_chain c.
Proof.
  intros x _. apply (ranked_acyclic heap_chain id). apply heap_chain_ranked.
Qed.


Example all_parents_of_C :
  Class_all_parents 3 heap_chain 11 = Return [10; 9].
Proof. reflexivity. Qed.


(** [heap_cycle] is what the two constructions build. *)
Example heap_cycle_constructed :
  bind (Generalization_init 9 10) (λ _, Generalization_init 10 9)
       heap_two_classes
  = (Return 12, heap_cycle).
Proof. reflexivity. Qed.

(** ** Class.all_attributes *)

Section attributes.
Implicit Types (h : Heap) (a p : oid).

Lemma inherited_loop h (l : list oid) : ∀ start,
  (∀ p, p ∈ l → ∃ pc, h !! p = Some (OClass pc)) →
  ∃ r, ofoldl (λ inherited parent,
                 obind (get_class h parent)
                   (λ cls, Return (PySet.update inherited
                                     (c_attributes cls))))
              start l = Return r ∧
       ∀ a, a ∈ r ↔
            a ∈ start ∨
            ∃ p pc, p ∈ l ∧ h !! p = Some (OClass pc) ∧
                    a ∈ c_attributes pc.
Proof.
  induction l as [|p l IH]; intros start Hcl; simpl.
  - exists start. split; [done|]. intros a. split; [auto|].
    intros [?|(p & ? & ?%elem_of_nil & _)]; done.
  - destruct (Hcl p) as [pc Epc]; [by left|].
    unfold get_class at 1. rewrite Epc. simpl.
    destruct (IH (PySet.update start (c_attributes pc))) as (r & -> & Hr).
    { intros p' Hp'. apply Hcl. by right. }
    exists r. split; [done|]. intros a.
    rewrite Hr, PySetFacts.elem_of_update.
    setoid_rewrite elem_of_cons. split.
    + intros [[?|?]|(p' & pc' & ? & ? & ?)];
        [by left|right|right]; eauto 8.
    + intros [?|(p' & pc' & [->|?] & Ep' & ?)]; [tauto| |right; eauto 8].
      left. right. congruence.
Qed.
End attributes.

(** C6.  For a class [C] that reaches no cycle of generalizations,
    [C.all_attributes()] returns (as soon as [C.all_parents()] does),
    holds every attribute of [C], and holds exactly the attributes of
    [C] and of the classes in [C.all_parents()]. *)
Theorem all_attributes_union (h : Heap) (C : oid) (cls : ClassObj) :
  h !! C = Some (OClass cls) →
  generalizations_built h →
  acyclic_from h C →
  ∃ n, ∀ fuel, n ≤ fuel →
    ∃ P S,
      Class_all_parents fuel h C = Return P ∧
      Class_all_attributes fuel h C = Return S ∧
      (∀ a, a ∈ c_attributes cls → a ∈ S) ∧
      (∀ a, a ∈ S ↔
            a ∈ c_attributes cls ∨
            ∃ p pc, p ∈ P ∧ h !! p = Some (OClass pc) ∧
                    a ∈ c_attributes pc).
Proof.
  intros EC Hb Hacyc. exists (length h). intros fuel Hfuel.
  destruct (all_parents_terminates h C Hb Hacyc fuel [] C cls)
    as (P & HP & HPin); try done.
  { constructor. }
  { apply not_elem_of_nil. }
  { by intros s ?%elem_of_nil. }
  { simpl. lia. }
  destruct (inherited_loop h P []) as (inh & Hinh & Hin).
  { intros p Hp. apply HPin in Hp. by eapply tc_parent_class. }
  exists P, (PySet.update (c_attributes cls) inh).
  assert (Hall : ∀ a, a ∈ PySet.update (c_attributes cls) inh ↔
            a ∈ c_attributes cls ∨
            ∃ p pc, p ∈ P ∧ h !! p = Some (OClass pc) ∧ a ∈ c_attributes pc).
  { intros a. rewrite PySetFacts.elem_of_update, Hin, elem_of_nil. tauto. }
  split_and!; [done| |intros a Ha; apply Hall; by left|done].
  unfold Class_all_attributes, Class_inherited_attributes.
  assert (get_class h C = Return cls) as ->
    by (unfold get_class; by rewrite EC).
  cbn [obind]. rewrite HP. cbn [obind]. by rewrite Hinh.
Qed.

Lemma all_attributes_union_witness :
  ∃ n, ∀ fuel, n ≤ fuel →
    ∃ P S,
      Class_all_parents fuel heap_chain 11 = Return P ∧
      Class_all_attributes fuel heap_chain 11 = Return S ∧
      (∀ a, a ∈ [16] → a ∈ S) ∧
      (∀ a, a ∈ S ↔
            a ∈ [16] ∨
            ∃ p pc, p ∈ P ∧ heap_chain !! p = Some (OClass pc) ∧
                    a ∈ c_attributes pc).
Proof.
  apply (all_attributes_union heap_chain 11
           (mkClass "C" [16] [] false false [] [13])).
  - reflexivity.
  - apply heap_chain_built.
  - apply heap_chain_acyclic.
Defined.

Example all_attributes_of_C :
  Class_all_attributes 3 heap_chain 11 = Return [16; 15; 14].
Proof. reflexivity. Qed.

(** ** DomainModel.classes_sorted_by_inheritance *)

(** *** Order in a list *)

Section precedes.
Implicit Types (l : list oid) (a b c : oid).

Lemma precedes_app_l l k a b : precedes l a b → precedes (l ++ k) a b.
Proof.
  intros (i & j & Hi & Hj & Hlt). exists i, j.
  split_and!; [by apply lookup_app_l_Some..|done].
Qed.

Lemma precedes_snoc l a b : a ∈ l → precedes (l ++ [b]) a b.
Proof.
  intros (i & Hi)%list_elem_of_lookup. exists i, (length l).
  split_and!.
  - by apply lookup_app_l_Some.
  - by apply list_lookup_middle.
  - by eapply lookup_lt_Some.
Qed.

Lemma precedes_reverse l a b : precedes l a b → precedes (reverse l) b a.
Proof.
  intros (i & j & Hi & Hj & Hlt).
  pose proof (lookup_lt_Some _ _ _ Hi) as Hil.
  pose proof (lookup_lt_Some _ _ _ Hj) as Hjl.
  exists (length l - S j), (length l - S i). split_and!.
  - rewrite reverse_lookup by lia.
    replace (length l - S (length l - S j)) with j by lia. done.
  - rewrite reverse_lookup by lia.
    replace (length l - S (length l - S i)) with i by lia. done.
  - lia.
Qed.

Lemma precedes_trans l a b c :
  NoDup l → precedes l a b → precedes l b c → precedes l a c.
Proof.
  intros Hnd (i & j & Hi & Hj & Hij) (j' & k & Hj' & Hk & Hjk).
  assert (j = j') as <- by by eapply NoDup_lookup.
  exists i, k. split_and!; [done|done|lia].
Qed.
End precedes.

(** *** The nodes not yet visited *)

Section unvisited.
Implicit Types (U V : list oid).

Lemma unvisited_mono U V V' :
  (∀ x, x ∈ V → x ∈ V') → unvisited U V' ≤ unvisited U V.
Proof.
  intros Hsub. unfold unvisited.
  induction U as [|u U IH]; [done|].
  rewrite !filter_cons. repeat case_decide; simpl; try lia.
  exfalso. auto.
Qed.

Lemma unvisited_visit U V V' c :
  c ∈ U → c ∉ V → c ∈ V' → (∀ x, x ∈ V → x ∈ V') →
  unvisited U V' < unvisited U V.
Proof.
  intros HcU HcV HcV' Hsub. unfold unvisited.
  induction U as [|u U IH]; [by apply elem_of_nil in HcU|].
  pose proof (unvisited_mono U V V' Hsub) as Hmono.
  unfold unvisited in Hmono.
  rewrite !filter_cons.
  apply elem_of_cons in HcU as [<-|HcU].
  - rewrite decide_False by auto. rewrite decide_True by done.
    simpl. lia.
  - specialize (IH HcU). repeat case_decide; simpl; try lia.
    exfalso. auto.
Qed.

Lemma unvisited_nil U : unvisited U [] = length U.
Proof.
  unfold unvisited. induction U as [|u U IH]; [done|].
  rewrite filter_cons, decide_True by apply not_elem_of_nil.
  cbn [length]. by rewrite IH.
Qed.
End unvisited.

(** *** The depth-first traversal *)

Section dfs.
Variable set_order : list oid → list oid.
Hypothesis set_order_perm : ∀ l, set_order l ≡ₚ l.
Variable cm : gmap nat (list oid).
Variable U : list oid.
Hypothesis cm_keys : ∀ c, c ∈ U → ∃ s, cm !! c = Some s.
Hypothesis cm_closed : ∀ c s x, cm !! c = Some s → x ∈ s → x ∈ U.
Hypothesis cm_acyclic : ∀ x, ¬ tc (child_edge cm) x x.

Implicit Types (c x y : oid) (V L Δ : list oid).

Lemma dfs_unfold fuel c st :
  dfs set_order (S fuel) cm c st =
  obind (child_map_get cm c)
    (λ children,
       obind (ofoldl (dfs_visit set_order fuel cm)
                     (PySet.add c st.1, st.2) (set_order children))
         (λ st', Return (st'.1, st'.2 ++ [c]))).
Proof. reflexivity. Qed.

(** The loop over the children of [c], which is visited and not yet
    appended. *)
Lemma dfs_children fuel c :
  dfs_returns set_order cm U fuel →
  ∀ l V L,
    dfs_invariant cm U V L → c ∈ V → c ∉ L →
    (∀ x, x ∈ V → x ∉ L → x = c ∨ tc (child_edge cm) x c) →
    (∀ y, y ∈ l → y ∈ U ∧ (y ≠ c → child_edge cm c y)) →
    unvisited U V ≤ fuel →
    ∃ Δ V', ofoldl (dfs_visit set_order fuel cm) (V, L) l
            = Return (V', L ++ Δ) ∧
            (∀ x, x ∈ V' ↔ x ∈ V ∨ x ∈ Δ) ∧
            (∀ x, x ∈ Δ → x ∉ V) ∧
            dfs_invariant cm U V' (L ++ Δ) ∧
            (∀ y, y ∈ l → y ≠ c → y ∈ L ++ Δ).
Proof.
  intros Hdfs.
  induction l as [|y l IH]; intros V L Hinv HcV HcL Hgray Hl Hfuel.
  - exists [], V. rewrite app_nil_r. split_and!; try done.
    + intros x. rewrite elem_of_nil. tauto.
    + by intros x ?%elem_of_nil.
    + by intros y ?%elem_of_nil.
  - cbn [ofoldl]. unfold dfs_visit at 1. cbn [fst].
    destruct (decide (y ∈ V)) as [HyV|HyV].
    + cbn [obind].
      destruct (IH V L) as (Δ & V' & Heq & HV' & HΔ & Hinv' & Hch);
        try done.
      { intros y' Hy'. apply Hl. by right. }
      exists Δ, V'. split_and!; try done.
      intros y' [->|Hy']%elem_of_cons Hne; [|by apply Hch].
      apply elem_of_app. left.
      destruct (decide (y ∈ L)) as [|HyL]; [done|]. exfalso.
      destruct (Hgray y HyV HyL) as [->|Htc]; [done|].
      apply (cm_acyclic y). eapply tc_r; [exact Htc|].
      apply Hl; [by left|done].
    + assert (Hcy : child_edge cm c y).
      { apply Hl; [by left|]. by intros ->. }
      destruct (Hdfs y V L) as (Δ1 & V1 & -> & HV1 & HΔ1 & HyΔ & Hinv1);
        try done.
      { apply Hl. by left. }
      { intros x HxV HxL.
        destruct (Hgray x HxV HxL) as [->|Htc];
          [by apply tc_once|by eapply tc_r]. }
      cbn [obind].
      destruct (IH V1 (L ++ Δ1))
        as (Δ2 & V2 & Heq & HV2 & HΔ2 & Hinv2 & Hch); try done.
      { apply HV1. by left. }
      { intros [?|?]%elem_of_app; [done|]. by apply (HΔ1 c). }
      { intros x Hx1 HxL1. apply HV1 in Hx1 as [HxV|HxΔ].
        - apply Hgray; [done|]. intros HxL. apply HxL1, elem_of_app.
          by left.
        - exfalso. apply HxL1, elem_of_app. by right. }
      { intros y' Hy'. apply Hl. by right. }
      { etrans; [apply unvisited_mono|exact Hfuel].
        intros x Hx. apply HV1. by left. }
      exists (Δ1 ++ Δ2), V2. rewrite !app_assoc. split_and!.
      * done.
      * intros x. rewrite HV2, HV1, elem_of_app. tauto.
      * intros x [H1|H2]%elem_of_app; [by apply HΔ1|].
        intros HxV. apply (HΔ2 x H2), HV1. by left.
      * done.
      * intros y' [->|Hy']%elem_of_cons Hne; [|by apply Hch].
        apply elem_of_app. left. apply elem_of_app. by right.
Qed.

(** A call of [dfs] returns, within a depth of the number of
    unvisited nodes. *)
Lemma dfs_spec fuel : dfs_returns set_order cm U fuel.
Proof.
  induction fuel as [|fuel IH]; intros c V L Hinv HcU HcV Hgray Hfuel.
  - exfalso.
    assert (unvisited U (c :: V) < unvisited U V); [|lia].
    apply (unvisited_visit U V (c :: V) c); [done|done|by left|].
    intros x Hx. by right.
  - destruct Hinv as (Hnd & HLV & HVU & Hord).
    rewrite dfs_unfold. destruct (cm_keys c HcU) as [s Hs].
    unfold child_map_get. rewrite Hs. cbn [obind fst snd].
    assert (HcL : c ∉ L) by (intros ?; by apply HcV, HLV).
    destruct (dfs_children fuel c IH (set_order s) (PySet.add c V) L)
      as (Δ & V' & -> & HV' & HΔ & Hinv' & Hch); try done.
    { split_and!; try done.
      - intros x Hx. apply PySetFacts.elem_of_add. right. by apply HLV.
      - intros x [->|Hx]%PySetFacts.elem_of_add; [done|by apply HVU]. }
    { apply PySetFacts.elem_of_add. by left. }
    { intros x [->|Hx]%PySetFacts.elem_of_add HxL; [by left|].
      right. by apply Hgray. }
    { intros y Hy. rewrite set_order_perm in Hy. split.
      - by eapply cm_closed.
      - intros Hne. by exists s. }
    { assert (unvisited U (PySet.add c V) < unvisited U V); [|lia].
      apply (unvisited_visit U V (PySet.add c V) c); [done|done| |].
      - apply PySetFacts.elem_of_add. by left.
      - intros x Hx. apply PySetFacts.elem_of_add. by right. }
    cbn [obind fst snd].
    destruct Hinv' as (Hnd' & HLV' & HVU' & Hord').
    assert (HcΔ : c ∉ L ++ Δ).
    { intros [?|Hc]%elem_of_app; [done|].
      apply (HΔ c Hc), PySetFacts.elem_of_add. by left. }
    exists (Δ ++ [c]), V'. rewrite !app_assoc. split_and!.
    + done.
    + intros x. rewrite HV', PySetFacts.elem_of_add, elem_of_app,
        list_elem_of_singleton. tauto.
    + intros x [Hx|Hx]%elem_of_app.
      * intros HxV. apply (HΔ x Hx), PySetFacts.elem_of_add. by right.
      * by apply list_elem_of_singleton in Hx as ->.
    + apply elem_of_app. right. by left.
    + split_and!.
      * apply NoDup_app. split_and!; [done| |apply NoDup_singleton].
        by intros x Hx ->%list_elem_of_singleton.
      * intros x [Hx|Hx]%elem_of_app; [by apply HLV'|].
        apply list_elem_of_singleton in Hx as ->.
        apply HV'. left. apply PySetFacts.elem_of_add. by left.
      * done.
      * intros x y [Hx|Hx]%elem_of_app Hxy.
        -- by apply precedes_app_l, Hord'.
        -- apply list_elem_of_singleton in Hx as ->.
           apply precedes_snoc. destruct Hxy as (s' & Hs' & Hy & Hne).
           assert (s' = s) as -> by congruence.
           apply Hch; [by rewrite set_order_perm|done].
Qed.

(** The loop that starts a traversal from every class. *)
Lemma dfs_roots fuel : ∀ l V L,
  dfs_invariant cm U V L →
  (∀ x, x ∈ V → x ∈ L) →
  (∀ y, y ∈ l → y ∈ U) →
  unvisited U V ≤ fuel →
  ∃ V' L', ofoldl (dfs_visit set_order fuel cm) (V, L) l
           = Return (V', L') ∧
           dfs_invariant cm U V' L' ∧
           (∀ x, x ∈ V' → x ∈ L') ∧
           (∀ x, x ∈ L → x ∈ L') ∧
           (∀ y, y ∈ l → y ∈ L').
Proof.
  induction l as [|y l IH]; intros V L Hinv Hblack Hl Hfuel.
  - exists V, L. split_and!; try done. by intros y ?%elem_of_nil.
  - cbn [ofoldl]. unfold dfs_visit at 1. cbn [fst].
    destruct (decide (y ∈ V)) as [HyV|HyV].
    + cbn [obind].
      destruct (IH V L) as (V' & L' & Heq & Hinv' & Hb' & Hsub & Hall);
        try done.
      { intros y' Hy'. apply Hl. by right. }
      exists V', L'. split_and!; try done.
      intros y' [->|Hy']%elem_of_cons; [|by apply Hall].
      by apply Hsub, Hblack.
    + destruct (dfs_spec fuel y V L)
        as (Δ & V1 & -> & HV1 & HΔ & HyΔ & Hinv1); try done.
      { apply Hl. by left. }
      { intros x HxV HxL. destruct HxL. by apply Hblack. }
      cbn [obind].
      destruct (IH V1 (L ++ Δ))
        as (V' & L' & Heq & Hinv' & Hb' & Hsub & Hall); try done.
      { intros x [HxV|HxΔ]%HV1; apply elem_of_app; [left|right]; auto. }
      { intros y' Hy'. apply Hl. by right. }
      { etrans; [apply unvisited_mono|exact Hfuel].
        intros x Hx. apply HV1. by left. }
      exists V', L'. split_and!; try done.
      * intros x Hx. apply Hsub, elem_of_app. by left.
      * intros y' [->|Hy']%elem_of_cons; [|by apply Hall].
        apply Hsub, elem_of_app. by right.
Qed.

(** The traversal from every class, and the reversal. *)
Lemma dfs_sorts fuel :
  NoDup U → length U ≤ fuel →
  ∃ V L, ofoldl (dfs_visit set_order fuel cm) ([], []) U = Return (V, L) ∧
         reverse L ≡ₚ U ∧
         ∀ x y, child_edge cm x y → x ∈ U → precedes (reverse L) x y.
Proof.
  intros HndU Hfuel.
  destruct (dfs_roots fuel U [] [])
    as (V & L & Heq & (Hnd & HLV & HVU & Hord) & Hblack & _ & Hall);
    try done.
  { split_and!.
    - constructor.
    - by intros x ?%elem_of_nil.
    - by intros x ?%elem_of_nil.
    - by intros x y ?%elem_of_nil. }
  { by rewrite unvisited_nil. }
  exists V, L. split; [done|]. split.
  - rewrite reverse_Permutation. apply NoDup_Permutation; [done|done|].
    intros x. split; [intros Hx; by apply HVU, HLV|apply Hall].
  - intros x y Hxy HxU. apply precedes_reverse, Hord; [|done].
    by apply Hall.
Qed.
End dfs.

(** *** The map of the children *)

Section child_map.
Implicit Types (h : Heap) (cm : gmap nat (list oid)) (k x cl g : oid).

Lemma child_map_init_from (l : list oid) : ∀ cm k,
  foldl (λ cm cl, <[cl := []]> cm) cm l !! k
  = if decide (k ∈ l) then Some [] else cm !! k.
Proof.
  induction l as [|x l IH]; intros cm k; cbn [foldl].
  - by rewrite decide_False by apply not_elem_of_nil.
  - rewrite IH. destruct (decide (k ∈ l)) as [Hk|Hk].
    + by rewrite decide_True by by right.
    + destruct (decide (k = x)) as [->|Hne].
      * rewrite lookup_insert_eq. by rewrite decide_True by by left.
      * rewrite lookup_insert_ne by done.
        rewrite decide_False; [done|].
        by intros [?|?]%elem_of_cons.
Qed.

Lemma child_map_init_lookup (l : list oid) k :
  child_map_init l !! k = if decide (k ∈ l) then Some [] else None.
Proof. unfold child_map_init. by rewrite child_map_init_from. Qed.

Lemma child_map_grown_refl cm : child_map_grown (λ _ _, False) cm cm.
Proof.
  intros k. destruct (cm !! k) as [s|]; [|done].
  exists s. split; [done|]. intros x. tauto.
Qed.

Lemma child_map_grown_iff (P Q : oid → oid → Prop) cm cm' :
  (∀ x k, P x k ↔ Q x k) →
  child_map_grown P cm cm' → child_map_grown Q cm cm'.
Proof.
  intros HPQ Hg k. specialize (Hg k).
  destruct (cm !! k) as [s|]; [|done].
  destruct Hg as (s' & Hs' & Hin). exists s'. split; [done|].
  intros x. by rewrite Hin, HPQ.
Qed.

Lemma child_map_grown_trans (P Q : oid → oid → Prop) cm cm1 cm2 :
  child_map_grown P cm cm1 → child_map_grown Q cm1 cm2 →
  child_map_grown (λ x k, P x k ∨ Q x k) cm cm2.
Proof.
  intros H1 H2 k. specialize (H1 k). specialize (H2 k).
  destruct (cm !! k) as [s|].
  - destruct H1 as (s1 & Hs1 & Hin1). rewrite Hs1 in H2.
    destruct H2 as (s2 & Hs2 & Hin2). exists s2. split; [done|].
    intros x. rewrite Hin2, Hin1. tauto.
  - by rewrite H1 in H2.
Qed.

Lemma child_map_grown_key (P : oid → oid → Prop) cm cm' k :
  child_map_grown P cm cm' → is_Some (cm !! k) → is_Some (cm' !! k).
Proof.
  intros Hg [s Hs]. specialize (Hg k). rewrite Hs in Hg.
  destruct Hg as (s' & -> & _). eauto.
Qed.

Lemma child_map_add_grown cm general cl :
  is_Some (cm !! general) →
  ∃ cm', child_map_add cm general cl = Return cm' ∧
         child_map_grown (λ x k, x = cl ∧ k = general) cm cm'.
Proof.
  intros [s Hs]. unfold child_map_add. rewrite Hs.
  eexists. split; [done|]. intros k.
  destruct (decide (k = general)) as [->|Hne].
  - rewrite Hs, lookup_insert_eq. eexists. split; [done|].
    intros x. rewrite PySetFacts.elem_of_add. tauto.
  - rewrite lookup_insert_ne by done.
    destruct (cm !! k) as [s'|]; [|done].
    exists s'. split; [done|]. intros x. tauto.
Qed.

(** The loop over the generalizations of one class. *)
Lemma child_map_class_loop h cl (gs : list oid) : ∀ cm,
  (∀ g, g ∈ gs → ∃ p, get_general h g = Return p ∧ is_Some (cm !! p)) →
  ∃ cm', ofoldl (λ cm g,
                   obind (get_general h g)
                     (λ general, child_map_add cm general cl))
                cm gs = Return cm' ∧
         child_map_grown
           (λ x k, x = cl ∧ ∃ g, g ∈ gs ∧ get_general h g = Return k)
           cm cm'.
Proof.
  induction gs as [|g gs IH]; intros cm Hgs; cbn [ofoldl].
  - exists cm. split; [done|].
    eapply child_map_grown_iff; [|apply child_map_grown_refl].
    intros x k. split; [done|]. by intros (_ & g & ?%elem_of_nil & _).
  - destruct (Hgs g) as (p & Hp & Hkey); [by left|].
    rewrite Hp. cbn [obind].
    destruct (child_map_add_grown cm p cl Hkey) as (cm1 & -> & Hg1).
    cbn [obind].
    destruct (IH cm1) as (cm2 & -> & Hg2).
    { intros g' Hg'. destruct (Hgs g') as (p' & Hp' & Hkey');
        [by right|]. exists p'. split; [done|].
      by eapply child_map_grown_key. }
    exists cm2. split; [done|].
    eapply child_map_grown_iff; [|by eapply child_map_grown_trans].
    intros x k. cbn beta. setoid_rewrite elem_of_cons. split.
    + intros [[-> ->]|(-> & g' & ? & ?)]; split; eauto.
    + intros (-> & g' & [->|?] & Hg'); [left|right; eauto].
      split; [done|]. congruence.
Qed.

(** The loop over the classes. *)
Lemma child_map_loop h (keys l : list oid) : ∀ cm,
  (∀ k, k ∈ keys → is_Some (cm !! k)) →
  (∀ cl, cl ∈ l → ∃ cls, h !! cl = Some (OClass cls)) →
  (∀ cl cls g, cl ∈ l → h !! cl = Some (OClass cls) →
               g ∈ c_generalizations cls →
               ∃ p, get_general h g = Return p ∧ p ∈ keys) →
  ∃ cm', ofoldl (λ cm cl,
                   obind (get_class h cl)
                     (λ cls,
                        ofoldl (λ cm g,
                                  obind (get_general h g)
                                    (λ general,
                                       child_map_add cm general cl))
                               cm (c_generalizations cls)))
                cm l = Return cm' ∧
         child_map_grown (λ x k, x ∈ l ∧ generalizes_to h x k) cm cm'.
Proof.
  induction l as [|cl l IH]; intros cm Hkeys Hcls Hclosed; cbn [ofoldl].
  - exists cm. split; [done|].
    eapply child_map_grown_iff; [|apply child_map_grown_refl].
    intros x k. split; [done|]. by intros [?%elem_of_nil _].
  - destruct (Hcls cl) as [cls Ecl]; [by left|].
    unfold get_class at 1. rewrite Ecl. cbn [obind].
    destruct (child_map_class_loop h cl (c_generalizations cls) cm)
      as (cm1 & -> & Hg1).
    { intros g Hg. destruct (Hclosed cl cls g) as (p & Hp & Hk);
        [by left|done|done|]. eauto. }
    cbn [obind].
    destruct (IH cm1) as (cm2 & -> & Hg2).
    { intros k Hk. eapply child_map_grown_key; eauto. }
    { intros cl' Hcl'. apply Hcls. by right. }
    { intros cl' cls' g Hcl'. apply Hclosed. by right. }
    exists cm2. split; [done|].
    eapply child_map_grown_iff; [|by eapply child_map_grown_trans].
    intros x k. cbn beta. rewrite elem_of_cons. split.
    + intros [(-> & g & Hg & Hgen)|[? ?]].
      * split; [by left|]. by exists cls, g.
      * split; [by right|done].
    + intros [[->|?] Hgen]; [left|by right].
      split; [done|]. destruct Hgen as (cls' & g & Ecl' & Hg & Hgen).
      assert (cls' = cls) as -> by congruence. eauto.
Qed.

Lemma build_child_map_spec h (classes : list oid) :
  (∀ cl, cl ∈ classes → ∃ cls, h !! cl = Some (OClass cls)) →
  model_closed h classes →
  ∃ cm, build_child_map h classes = Return cm ∧
        ∀ k, if decide (k ∈ classes)
             then ∃ s, cm !! k = Some s ∧
                       ∀ x, x ∈ s ↔ x ∈ classes ∧ generalizes_to h x k
             else cm !! k = None.
Proof.
  intros Hcls Hclosed. unfold build_child_map.
  destruct (child_map_loop h classes classes (child_map_init classes))
    as (cm & -> & Hg); try done.
  { intros k Hk. rewrite child_map_init_lookup.
    by rewrite decide_True by done. }
  exists cm. split; [done|]. intros k. specialize (Hg k).
  rewrite child_map_init_lookup in Hg. case_decide; [|done].
  destruct Hg as (s & Hs & Hin). exists s. split; [done|].
  intros x. rewrite Hin, elem_of_nil. tauto.
Qed.
End child_map.

(** *** The edges of the traversal are the generalizations *)

Section edges.
Variable h : Heap.
Variable U : list oid.
Variable cm : gmap nat (list oid).
Hypothesis U_classes : ∀ cl, cl ∈ U → ∃ cls, h !! cl = Some (OClass cls).
Hypothesis U_closed : model_closed h U.
Hypothesis cm_spec :
  ∀ k, if decide (k ∈ U)
       then ∃ s, cm !! k = Some s ∧
                 ∀ x, x ∈ s ↔ x ∈ U ∧ generalizes_to h x k
       else cm !! k = None.

Lemma parent_of_generalizes x k :
  x ∈ U → parent_of h x k ↔ generalizes_to h x k ∧ k ≠ x.
Proof.
  intros Hx. destruct (U_classes x Hx) as [cls Ex].
  destruct (Class_parents_local h x cls Ex) as (ps & Hps & Hin).
  { intros g Hg. destruct (U_closed x cls g Hx Ex Hg) as (p & ? & _).
    eauto. }
  split.
  - intros (ps' & Hps' & Hk). assert (ps' = ps) as -> by congruence.
    apply Hin in Hk as (Hne & g & Hg & Hgen). split; [|done].
    by exists cls, g.
  - intros [(cls' & g & Ex' & Hg & Hgen) Hne].
    assert (cls' = cls) as -> by congruence.
    exists ps. split; [done|]. apply Hin. eauto.
Qed.

Lemma generalizes_in_model x k : x ∈ U → generalizes_to h x k → k ∈ U.
Proof.
  intros Hx (cls & g & Ex & Hg & Hgen).
  destruct (U_closed x cls g Hx Ex Hg) as (p & Hp & HpU). congruence.
Qed.

Lemma child_edge_parent k x :
  child_edge cm k x ↔ x ∈ U ∧ parent_of h x k.
Proof.
  split.
  - intros (s & Hs & Hx & Hne). pose proof (cm_spec k) as Hk.
    case_decide; [|congruence]. destruct Hk as (s' & Hs' & Hin).
    assert (s' = s) as -> by congruence.
    apply Hin in Hx as [HxU Hgen]. split; [done|].
    apply parent_of_generalizes; [done|]. split; [done|congruence].
  - intros [HxU Hp]. apply parent_of_generalizes in Hp as [Hgen Hne];
      [|done].
    pose proof (generalizes_in_model x k HxU Hgen) as HkU.
    pose proof (cm_spec k) as Hk. rewrite decide_True in Hk by done.
    destruct Hk as (s & Hs & Hin). exists s. split_and!; [done| |congruence].
    by apply Hin.
Qed.

Lemma tc_child_edge_parent k x :
  tc (child_edge cm) k x → x ∈ U ∧ tc (parent_of h) x k.
Proof.
  induction 1 as [k x He|k y x He _ [HxU IH]].
  - apply child_edge_parent in He as [? ?]. split; [done|by apply tc_once].
  - split; [done|]. apply child_edge_parent in He as [_ ?].
    by eapply tc_r.
Qed.

Lemma cm_keys_of_spec c : c ∈ U → ∃ s, cm !! c = Some s.
Proof.
  intros Hc. pose proof (cm_spec c) as Hk.
  rewrite decide_True in Hk by done. destruct Hk as (s & ? & _). eauto.
Qed.

Lemma cm_closed_of_spec c s x : cm !! c = Some s → x ∈ s → x ∈ U.
Proof.
  intros Hs Hx. pose proof (cm_spec c) as Hk.
  case_decide; [|congruence]. destruct Hk as (s' & Hs' & Hin).
  assert (s' = s) as -> by congruence. by apply Hin in Hx as [? _].
Qed.
End edges.


Lemma heap_chain_classes :
  filter (λ i, isinstance_Class heap_chain i = true)
         ([11; 9; 10] ++ primitive_data_types) = [11; 9; 10].
Proof. reflexivity. Qed.

Lemma heap_chain_closed : model_closed heap_chain [11; 9; 10].
Proof.
  intros c cls g Hc Ec Hg.
  rewrite !elem_of_cons, elem_of_nil in Hc.
  destruct Hc as [->|[->|[->|[]]]]; injection Ec as <-; simpl in Hg.
  - apply list_elem_of_singleton in Hg as ->.
    exists 10. split; [done|]. right. right. by left.
  - apply list_elem_of_singleton in Hg as ->.
    exists 9. split; [done|]. right. by left.
  - apply elem_of_cons in Hg as [->|Hg].
    + exists 9. split; [done|]. right. by left.
    + apply list_elem_of_singleton in Hg as ->.
      exists 10. split; [done|]. right. right. by left.
Qed.



Example classes_sorted_of_chain :
  DomainModel_classes_sorted_by_inheritance reverse 3 heap_chain 17
  = Return [9; 10; 11].
Proof. vm_compute. reflexivity. Qed.

(* ================================================================= *)
(** * Further properties *)

(** ** Multiplicity *)

Section multiplicity.
Implicit Types (h : Heap) (m : oid) (lo hi n : Z).
Local Open Scope Z_scope.

(** X1.  [Multiplicity(lo, n)] with an integer [n] is built when and
    only when [0 ≤ lo ≤ n]; [Multiplicity(lo, "*")] is built when and only
    when [0 ≤ lo], with the maximum 9999, which is not compared with
    [lo]; every other maximum is refused.  A refusal is a [ValueError]
    that leaves the heap as it was. *)
Theorem Multiplicity_init_accepts h lo (mx : MaxArg) :
  let built hi :=
    Multiplicity_init lo mx h = (Return (length h), h ++ [OMultiplicity lo hi])
  in
  let refused :=
    Multiplicity_init lo mx h = (Raise (ValueError InvalidValue), h) in
  match mx with
  | MaxInt n => if decide (0 ≤ lo ≤ n) then built n else refused
  | MaxStr s =>
      if decide (0 ≤ lo ∧ s = "*"%string)
      then built UNLIMITED_MAX_MULTIPLICITY else refused
  | MaxOther => refused
  end.
Proof.
  unfold Multiplicity_init, read, alloc, bind, Multiplicity_min_fset.
  destruct mx as [n|s|]; simpl.
  - repeat case_decide; simpl; repeat case_decide; try done; lia.
  - repeat case_decide; simpl; repeat case_decide; try done.
    all: exfalso; try lia; try tauto.
    match goal with H : ¬ (_ ∧ _) |- _ => apply H end. split; [lia|done].
  - by case_decide.
Qed.

(** X2.  On a multiplicity [(lo, hi)], the assignment [m.min = n] is
    accepted when and only when [0 ≤ n], also when [n] exceeds [hi];
    the assignment [m.max = k] of an integer is accepted when and only
    when [0 ≤ k] and [lo ≤ k].  An accepted assignment changes that one
    bound; a refused one changes nothing. *)
Theorem Multiplicity_setters h m lo hi n k :
  h !! m = Some (OMultiplicity lo hi) →
  Multiplicity_set_min m n h =
    (if decide (0 ≤ n) then (Return tt, <[m := OMultiplicity n hi]> h)
     else (Raise (ValueError InvalidValue), h)) ∧
  Multiplicity_set_max m (MaxInt k) h =
    (if decide (0 ≤ k ∧ lo ≤ k) then (Return tt, <[m := OMultiplicity lo k]> h)
     else (Raise (ValueError InvalidValue), h)).
Proof.
  intros E.
  unfold Multiplicity_set_min, Multiplicity_set_max, Multiplicity_min_fset,
    Multiplicity_max_fset.
  rewrite E. split; repeat case_decide; try done; lia.
Qed.

Lemma Multiplicity_setters_witness :
  Multiplicity_set_min 8 5 module_heap =
    (if decide (0 ≤ 5) then (Return tt, <[8%nat := OMultiplicity 5 1]> module_heap)
     else (Raise (ValueError InvalidValue), module_heap)) ∧
  Multiplicity_set_max 8 (MaxInt 0) module_heap =
    (if decide (0 ≤ 0 ∧ 1 ≤ 0)
     then (Return tt, <[8%nat := OMultiplicity 1 0]> module_heap)
     else (Raise (ValueError InvalidValue), module_heap)).
Proof. apply (Multiplicity_setters module_heap 8 1 1); reflexivity. Defined.

Lemma nonneg_insert h m lo hi :
  multiplicities_nonneg h → 0 ≤ lo → 0 ≤ hi →
  multiplicities_nonneg (<[m := OMultiplicity lo hi]> h).
Proof.
  intros Hh Hlo Hhi i lo' hi'. rewrite list_lookup_insert.
  case_decide; [|apply Hh]. intros [= <- <-]. done.
Qed.

(** X3.  No bound of a multiplicity is ever negative: the constructor
    and the two setters keep this for every multiplicity of the heap,
    whatever their arguments and whether they return or raise. *)
Theorem multiplicity_bounds_nonneg h m lo (mx : MaxArg) :
  multiplicities_nonneg h →
  multiplicities_nonneg (Multiplicity_init lo mx h).2 ∧
  multiplicities_nonneg (Multiplicity_set_min m lo h).2 ∧
  multiplicities_nonneg (Multiplicity_set_max m mx h).2.
Proof.
  intros Hh. split_and!.
  - unfold Multiplicity_init, read, alloc, bind, Multiplicity_min_fset.
    case_decide; [done|]. simpl.
    assert (∀ hi, 0 ≤ hi →
              multiplicities_nonneg (h ++ [OMultiplicity lo hi])) as Happ.
    { intros hi Hhi i lo' hi' [Hi|[_ Hi]]%lookup_app_Some; [by eapply Hh|].
      destruct (i - length h)%nat; [|done]. simpl in Hi.
      injection Hi as <- <-. lia. }
    destruct mx as [n|s|]; simpl; repeat case_decide; simpl; try done.
    + apply Happ. lia.
    + by apply Happ.
  - unfold Multiplicity_set_min, Multiplicity_min_fset.
    destruct (h !! m) as [[]|] eqn:E; try done.
    case_decide; [done|]. simpl.
    apply nonneg_insert; [done|lia|]. by eapply Hh.
  - unfold Multiplicity_set_max.
    destruct (h !! m) as [[]|] eqn:E; try done.
    destruct (Hh _ _ _ E) as [Hmin Hmax].
    destruct mx as [n|s|]; simpl; repeat case_decide; simpl; try done.
    + apply nonneg_insert; [done|done|lia].
    + by apply nonneg_insert.
Qed.

Lemma multiplicity_bounds_nonneg_witness :
  multiplicities_nonneg (Multiplicity_init 2 (MaxStr "*") module_heap).2 ∧
  multiplicities_nonneg (Multiplicity_set_min 8 2 module_heap).2 ∧
  multiplicities_nonneg (Multiplicity_set_max 8 (MaxStr "*") module_heap).2.
Proof.
  apply (multiplicity_bounds_nonneg module_heap 8 2 (MaxStr "*")).
  intros i lo hi Hi.
  destruct i as [|[|[|[|[|[|[|[|[|i]]]]]]]]]; try done.
  injection Hi as <- <-. lia.
Defined.
End multiplicity.

(** ** Enumeration: the setter of [literals] *)

Section literals_setter.
Implicit Types (h : Heap) (E l : oid) (lits : list oid).

(** The loop [for literal in literals: literal.owner = self]. *)
Lemma literal_owner_loop E ename lits : ∀ h old,
  h !! E = Some (OEnumeration ename old) →
  all_literals h lits →
  ∃ h', for_ lits (λ l, EnumerationLiteral_set_owner l (Some E)) h
        = (Return tt, h') ∧
        length h' = length h ∧
        (∀ i, i ∉ lits → h' !! i = h !! i) ∧
        (∀ i, i ∈ lits →
              ∃ n o, h !! i = Some (OEnumerationLiteral n o) ∧
                     h' !! i = Some (OEnumerationLiteral n (Some E))).
Proof.
  induction lits as [|l lits IH]; intros h old EE Hl.
  - exists h. split_and!; try done. intros i Hi. by apply elem_of_nil in Hi.
  - destruct (Hl l) as (n & o & El); [by left|].
    assert (l ≠ E) as HlE by congruence.
    set (h1 := <[l := OEnumerationLiteral n (Some E)]> h).
    assert (EnumerationLiteral_set_owner l (Some E) h = (Return tt, h1))
      as Hstep.
    { unfold EnumerationLiteral_set_owner, bind, read.
      cbn [isinstance_PrimitiveDataType]. rewrite EE. by rewrite El. }
    destruct (IH h1 old) as (h' & Hloop & Hlen & Hout & Hin).
    { unfold h1. by rewrite list_lookup_insert_ne. }
    { intros l' Hl'. unfold h1. rewrite list_lookup_insert.
      case_decide; [eauto|]. apply Hl. by right. }
    exists h'. cbn [for_]. rewrite (bind_eq _ _ _ _ _ Hstep).
    split_and!; [done| | |].
    + unfold h1 in Hlen. by rewrite length_insert in Hlen.
    + intros i [Hil Hi]%not_elem_of_cons. rewrite Hout by done.
      unfold h1. by rewrite list_lookup_insert_ne.
    + intros i Hi. destruct (decide (i ∈ lits)) as [Hi'|Hi'].
      * destruct (Hin i Hi') as (n' & o' & E1 & E').
        unfold h1 in E1. rewrite list_lookup_insert in E1.
        case_decide as Hil.
        -- destruct Hil as [-> _]. injection E1 as <- <-. eauto.
        -- eauto.
      * apply elem_of_cons in Hi as [->|Hi]; [|done].
        exists n, o. split; [done|]. rewrite Hout by done.
        unfold h1. apply list_lookup_insert_eq. by eapply lookup_lt_Some.
Qed.

(** X4.  The [literals] setter of an enumeration, given literals:
    names that repeat are refused and the heap is as it was.  Otherwise
    the collection is stored and the enumeration becomes the owner of
    every literal of it; nothing else changes, so a literal stays in the
    [literals] of the enumeration that owned it before. *)
Theorem literals_setter h E ename old lits names :
  h !! E = Some (OEnumeration ename old) →
  all_literals h lits →
  names_of h lits = Return names →
  (¬ NoDup names →
     Enumeration_set_literals E (Some lits) h
     = (Raise (ValueError DuplicateName), h)) ∧
  (NoDup names →
     ∃ h', Enumeration_set_literals E (Some lits) h = (Return tt, h') ∧
           h' !! E = Some (OEnumeration ename lits) ∧
           (∀ l, l ∈ lits → get_owner h' l = Return (Some E)) ∧
           (∀ i, i ≠ E → i ∉ lits → h' !! i = h !! i)).
Proof.
  intros EE Hl Hn.
  unfold Enumeration_set_literals.
  erewrite bind_eq by (unfold read; by rewrite Hn).
  split; intros Hnd.
  - by rewrite (proj2 (len_differs_true names)).
  - rewrite (proj2 (len_differs_false names)) by done.
    destruct (literal_owner_loop E ename lits h old EE Hl)
      as (h1 & Hloop & Hlen & Hout & Hin).
    assert (E ∉ lits) as HE.
    { intros HE. destruct (Hin E HE) as (n & o & E1 & _). congruence. }
    rewrite (bind_eq _ _ _ _ _ Hloop). unfold store_literals.
    rewrite Hout by done. rewrite EE.
    eexists. split; [done|]. split_and!.
    + apply list_lookup_insert_eq. rewrite Hlen. by eapply lookup_lt_Some.
    + intros l Hin'. destruct (Hin l Hin') as (n & o & _ & E').
      unfold get_owner. rewrite list_lookup_insert_ne by congruence.
      by rewrite E'.
    + intros i HiE Hi. rewrite list_lookup_insert_ne by done. by apply Hout.
Qed.

Lemma literals_setter_witness :
  (¬ NoDup ["red"%string] →
     Enumeration_set_literals 9 (Some [10]) heap_enum
     = (Raise (ValueError DuplicateName), heap_enum)) ∧
  (NoDup ["red"%string] →
     ∃ h', Enumeration_set_literals 9 (Some [10]) heap_enum = (Return tt, h') ∧
           h' !! 9 = Some (OEnumeration "Color" [10]) ∧
           (∀ l, l ∈ [10] → get_owner h' l = Return (Some 9)) ∧
           (∀ i, i ≠ 9 → i ∉ [10] → h' !! i = heap_enum !! i)).
Proof.
  apply (literals_setter heap_enum 9 "Color" [] [10] ["red"%string]);
    [reflexivity| |reflexivity].
  intros l ->%list_elem_of_singleton. eexists _, _. reflexivity.
Defined.
End literals_setter.

(** ** Class: attributes *)

Section class_attributes.
Implicit Types (h : Heap) (C a : oid) (xs attrs : list oid)
  (names : list string).

Lemma names_of_cons h x xs names :
  names_of h (x :: xs) = Return names ↔
  ∃ n ns, get_name h x = Return n ∧ names_of h xs = Return ns ∧
          names = n :: ns.
Proof.
  unfold names_of. cbn [omapM].
  destruct (get_name h x) as [n|e]; cbn [obind].
  - destruct (omapM (get_name h) xs) as [ns|e]; cbn [obind].
    + split; [intros [= <-]; eauto|]. by intros (? & ? & [= <-] & [= <-] & ->).
    + split; [done|]. by intros (? & ? & _ & ? & _).
  - split; [done|]. by intros (? & ? & ? & _).
Qed.

Lemma names_of_elem h xs names x :
  names_of h xs = Return names → x ∈ xs →
  ∃ n, get_name h x = Return n ∧ n ∈ names.
Proof.
  revert names. induction xs as [|y xs IH]; intros names Hn Hx.
  - by apply elem_of_nil in Hx.
  - apply names_of_cons in Hn as (n & ns & Hy & Hns & ->).
    apply elem_of_cons in Hx as [->|Hx].
    + exists n. split; [done|by left].
    + destruct (IH ns Hns Hx) as (m & ? & ?). exists m. split; [done|by right].
Qed.

Lemma names_of_snoc h xs x names n :
  names_of h xs = Return names → get_name h x = Return n →
  names_of h (xs ++ [x]) = Return (names ++ [n]).
Proof.
  revert names. induction xs as [|y xs IH]; intros names Hn Hx.
  - injection Hn as <-. apply names_of_cons. exists n, []. by split_and!.
  - apply names_of_cons in Hn as (m & ns & Hy & Hns & ->).
    apply names_of_cons. exists m, (ns ++ [n]). split_and!; [done| |done].
    by apply IH.
Qed.

(** Two heaps in which every object has the same name and the same
    [is_id]. *)
Lemma names_of_ext h h' xs :
  (∀ i, get_name h' i = get_name h i) → names_of h' xs = names_of h xs.
Proof.
  intros Hext. unfold names_of.
  induction xs as [|x xs IH]; [done|]. cbn [omapM]. by rewrite Hext, IH.
Qed.

Lemma id_count_ext h h' xs :
  (∀ i, get_is_id h' i = get_is_id h i) → id_count h' xs = id_count h xs.
Proof.
  intros Hext. unfold id_count. f_equal.
  apply list_filter_iff. intros x. unfold marked_id. by rewrite Hext.
Qed.

Lemma id_count_snoc h xs x :
  id_count h (xs ++ [x]) = id_count h xs + (if marked_id h x then 1 else 0).
Proof.
  unfold id_count. rewrite filter_app, length_app. f_equal.
  rewrite filter_cons, filter_nil.
  destruct (marked_id h x); by rewrite ?decide_True, ?decide_False by done.
Qed.

(** The scanning loop of the [attributes] setter. *)
Lemma attributes_scan h attrs : ∀ names seen dups k,
  all_properties h attrs → names_of h attrs = Return names →
  ∃ seen' dups',
    ofoldl (attributes_scan_step h) (seen, dups, k) attrs
    = Return (seen', dups', k + id_count h attrs) ∧
    (dups' = [] ↔ dups = [] ∧ NoDup names ∧ ∀ n, n ∈ names → n ∉ seen).
Proof.
  induction attrs as [|a attrs IH]; intros names seen dups k Hp Hn.
  - injection Hn as <-. exists seen, dups. cbn [ofoldl].
    unfold id_count. simpl. rewrite Nat.add_0_r. split; [done|].
    split; [intros ->; split_and!; [done|constructor|]|by intros [-> _]].
    intros n Hn. by apply elem_of_nil in Hn.
  - apply names_of_cons in Hn as (n & ns & Ha & Hns & ->).
    destruct (Hp a) as [p Ep]; [by left|].
    assert (all_properties h attrs) as Hp'.
    { intros b Hb. apply Hp. by right. }
    cbn [ofoldl]. unfold attributes_scan_step at 1.
    rewrite Ha. unfold get_is_id. rewrite Ep. cbn [obind fst snd].
    destruct (IH ns (PySet.add n seen)
                (if decide (n ∈ seen) then PySet.add n dups else dups)
                (if p_is_id p then S k else k) Hp' Hns)
      as (seen' & dups' & -> & Hd).
    exists seen', dups'. split.
    + do 2 f_equal. unfold id_count. rewrite filter_cons.
      assert (marked_id h a = p_is_id p) as ->.
      { unfold marked_id, get_is_id. rewrite Ep. by destruct (p_is_id p). }
      destruct (p_is_id p).
      * rewrite decide_True by done. simpl. lia.
      * rewrite decide_False by done. lia.
    + rewrite Hd, NoDup_cons. split.
      * intros (Hdups & Hnd & Hseen). case_decide as Hin.
        { by apply add_not_nil in Hdups. }
        split_and!; [done| |done|].
        -- intros Hn. apply (Hseen n Hn), PySetFacts.elem_of_add. by left.
        -- intros m [->|Hm]%elem_of_cons; [done|].
           intros Hms. apply (Hseen m Hm), PySetFacts.elem_of_add. by right.
      * intros (-> & [Hn Hnd] & Hseen).
        rewrite decide_False by (apply Hseen; by left).
        split_and!; [done|done|].
        intros m Hm [->|Hms]%PySetFacts.elem_of_add; [done|].
        apply (Hseen m); [by right|done].
Qed.

(** An assignment of [owner] that returns updates that property. *)
Lemma set_owner_inv h a o h' :
  Property_set_owner a o h = (Return tt, h') →
  ∃ p, h !! a = Some (OProperty p) ∧
       h' = <[a := OProperty (set_p_owner p o)]> h.
Proof.
  unfold Property_set_owner, check_owner, bind, read.
  destruct (isinstance_DataType h o); [done|]. unfold ret.
  destruct (h !! a) as [[]|]; try done. intros [= <-]. eauto.
Qed.

Lemma set_owner_returns h a o p :
  isinstance_DataType h o = false → h !! a = Some (OProperty p) →
  Property_set_owner a o h
  = (Return tt, <[a := OProperty (set_p_owner p o)]> h).
Proof.
  intros Ho Ea. unfold Property_set_owner, check_owner, bind, read.
  rewrite Ho. unfold ret. by rewrite Ea.
Qed.

(** The loop [for x in xs: x.owner = o], when it returns. *)
Lemma owner_loop_inv o xs : ∀ h h',
  for_ xs (λ a, Property_set_owner a o) h = (Return tt, h') →
  length h' = length h ∧
  ∀ i, (i ∉ xs → h' !! i = h !! i) ∧
       (i ∈ xs → ∃ p, h !! i = Some (OProperty p) ∧
                      h' !! i = Some (OProperty (set_p_owner p o))).
Proof.
  induction xs as [|a xs IH]; intros h h' Hfor.
  - injection Hfor as <-. split; [done|]. intros i. split; [done|].
    intros Hi. by apply elem_of_nil in Hi.
  - cbn [for_] in Hfor. unfold bind in Hfor.
    destruct (Property_set_owner a o h) as [[[]|e] h1] eqn:Hstep; [|done].
    apply set_owner_inv in Hstep as (p & Ea & ->).
    destruct (IH _ _ Hfor) as [Hlen Hframe].
    rewrite length_insert in Hlen. split; [done|].
    intros i. destruct (Hframe i) as [Hout Hin]. split.
    + intros [Hia Hi]%not_elem_of_cons.
      rewrite Hout by done. by rewrite list_lookup_insert_ne.
    + intros Hi. destruct (decide (i ∈ xs)) as [Hxs|Hxs].
      * destruct (Hin Hxs) as (p1 & E1 & E').
        destruct (decide (i = a)) as [->|Hne].
        -- rewrite list_lookup_insert_eq in E1 by (by eapply lookup_lt_Some).
           injection E1 as <-. eauto.
        -- rewrite list_lookup_insert_ne in E1 by done. eauto.
      * apply elem_of_cons in Hi as [->|Hi]; [|done].
        exists p. split; [done|]. rewrite Hout by done.
        apply list_lookup_insert_eq. by eapply lookup_lt_Some.
Qed.

(** The loop returns when the elements are properties and the owner is
    not a data type. *)
Lemma owner_loop_returns o xs : ∀ h,
  isinstance_DataType h o = false → all_properties h xs →
  ∃ h', for_ xs (λ a, Property_set_owner a o) h = (Return tt, h').
Proof.
  induction xs as [|a xs IH]; intros h Ho Hp; [by eexists|].
  destruct (Hp a) as [p Ea]; [by left|].
  cbn [for_]. erewrite bind_eq by (by apply set_owner_returns).
  apply IH.
  - destruct o as [c|]; [|done]. simpl in *.
    rewrite list_lookup_insert. case_decide as Hc; [done|].
    exact Ho.
  - intros b Hb. rewrite list_lookup_insert. case_decide; [eauto|].
    apply Hp. by right.
Qed.

Lemma class_not_DataType h C cls :
  h !! C = Some (OClass cls) → isinstance_DataType h (Some C) = false.
Proof. intros E. simpl. by rewrite E. Qed.

(** What the [attributes] setter does on a collection of properties. *)
Lemma set_attributes_outcome h C cls attrs names :
  h !! C = Some (OClass cls) →
  all_properties h attrs →
  names_of h attrs = Return names →
  (¬ NoDup names →
     Class_set_attributes C (Some attrs) h
     = (Raise (ValueError DuplicateName), h)) ∧
  (NoDup names → 1 < id_count h attrs →
     Class_set_attributes C (Some attrs) h
     = (Raise (ValueError MultipleIdentifiers), h)) ∧
  (NoDup names → id_count h attrs ≤ 1 →
     ∃ h', Class_set_attributes C (Some attrs) h = (Return tt, h') ∧
           h' !! C = Some (OClass (set_c_attributes cls attrs)) ∧
           (∀ a, a ∈ attrs → get_owner h' a = Return (Some C)) ∧
           (∀ i, i ≠ C → i ∉ attrs → h' !! i = h !! i)).
Proof.
  intros EC Hp Hn.
  destruct (attributes_scan h attrs names [] [] 0 Hp Hn)
    as (seen' & dups' & Hscan & Hd).
  assert (dups' = [] ↔ NoDup names) as Hdup.
  { rewrite Hd. split; [by intros (_ & ? & _)|]. intros ?.
    split_and!; [done|done|]. intros n _. apply not_elem_of_nil. }
  rewrite Nat.add_0_l in Hscan.
  assert (∀ B (k : _ → Py B),
            bind (read (λ h, ofoldl (attributes_scan_step h) ([], [], 0) attrs))
                 k h
            = k (seen', dups', id_count h attrs) h) as Hrun.
  { intros B k. unfold bind, read. by rewrite Hscan. }
  unfold Class_set_attributes. rewrite Hrun. cbn [fst snd].
  split_and!.
  - intros Hnd. rewrite decide_True; [done|]. by rewrite Hdup.
  - intros Hnd Hid. rewrite decide_False by (intros Hne; by apply Hne, Hdup).
    by rewrite decide_True.
  - intros Hnd Hid. rewrite decide_False by (intros Hne; by apply Hne, Hdup).
    rewrite decide_False by lia.
    destruct (owner_loop_returns (Some C) attrs h
                (class_not_DataType h C cls EC) Hp) as [h1 Hloop].
    destruct (owner_loop_inv _ _ _ _ Hloop) as [Hlen Hframe].
    assert (C ∉ attrs) as HC.
    { intros HC. destruct (Hframe C) as [_ Hin].
      destruct (Hin HC) as (p & Ep & _). congruence. }
    assert (h1 !! C = Some (OClass cls)) as EC1.
    { destruct (Hframe C) as [Hout _]. by rewrite Hout. }
    erewrite bind_eq by exact Hloop.
    rewrite (update_class_eq h1 C cls) by done.
    eexists. split; [done|]. split_and!.
    + apply list_lookup_insert_eq. by eapply lookup_lt_Some.
    + intros a Ha. destruct (Hframe a) as [_ Hin].
      destruct (Hin Ha) as (p & Ep & Ep').
      unfold get_owner. rewrite list_lookup_insert_ne by congruence.
      by rewrite Ep'.
    + intros i HiC Hi. rewrite list_lookup_insert_ne by done.
      by apply Hframe.
Qed.

(** X5.  The [attributes] setter of a class, given properties: names
    that repeat are refused first, then more than one attribute marked as
    id; a refusal leaves the heap as it was.  Otherwise the collection is
    stored, the owner of every one of its properties is the class, and
    nothing else changes. *)
Theorem attributes_setter h C cls attrs names :
  h !! C = Some (OClass cls) →
  all_properties h attrs →
  names_of h attrs = Return names →
  (¬ NoDup names →
     Class_set_attributes C (Some attrs) h
     = (Raise (ValueError DuplicateName), h)) ∧
  (NoDup names → 1 < id_count h attrs →
     Class_set_attributes C (Some attrs) h
     = (Raise (ValueError MultipleIdentifiers), h)) ∧
  (NoDup names → id_count h attrs ≤ 1 →
     ∃ h', Class_set_attributes C (Some attrs) h = (Return tt, h') ∧
           h' !! C = Some (OClass (set_c_attributes cls attrs)) ∧
           (∀ a, a ∈ attrs → get_owner h' a = Return (Some C)) ∧
           (∀ i, i ≠ C → i ∉ attrs → h' !! i = h !! i)).
Proof. apply set_attributes_outcome. Qed.

Lemma attributes_setter_witness :
  (¬ NoDup ["left"; "right"]%string →
     Class_set_attributes 9 (Some [11; 12]) heap_three_ends
     = (Raise (ValueError DuplicateName), heap_three_ends)) ∧
  (NoDup ["left"; "right"]%string → 1 < id_count heap_three_ends [11; 12] →
     Class_set_attributes 9 (Some [11; 12]) heap_three_ends
     = (Raise (ValueError MultipleIdentifiers), heap_three_ends)) ∧
  (NoDup ["left"; "right"]%string → id_count heap_three_ends [11; 12] ≤ 1 →
     ∃ h', Class_set_attributes 9 (Some [11; 12]) heap_three_ends
           = (Return tt, h') ∧
           h' !! 9 = Some (OClass (set_c_attributes
                                     (mkClass "C" [] [] false false [] [])
                                     [11; 12])) ∧
           (∀ a, a ∈ [11; 12] → get_owner h' a = Return (Some 9)) ∧
           (∀ i, i ≠ 9 → i ∉ [11; 12] → h' !! i = heap_three_ends !! i)).
Proof.
  apply (attributes_setter heap_three_ends 9
           (mkClass "C" [] [] false false [] []) [11; 12]
           ["left"; "right"]%string); [reflexivity| |reflexivity].
  intros a [->|[->|[]%elem_of_nil]%elem_of_cons]%elem_of_cons;
    eexists; reflexivity.
Defined.

Lemma update_class_inv h C f h' :
  update_class C f h = (Return tt, h') →
  ∃ cls, h !! C = Some (OClass cls) ∧ h' = <[C := OClass (f cls)]> h.
Proof.
  unfold update_class. destruct (h !! C) as [[]|]; try done.
  intros [= <-]. eauto.
Qed.

(** What the [attributes] setter has done when it returns. *)
Lemma set_attributes_inv h C new h' :
  Class_set_attributes C new h = (Return tt, h') →
  ∃ cls, h !! C = Some (OClass cls) ∧
         h' !! C = Some (OClass (set_c_attributes cls (default [] new))) ∧
         (∀ i, i ≠ C → i ∉ default [] new → h' !! i = h !! i) ∧
         (∀ a, a ∈ default [] new → get_owner h' a = Return (Some C)).
Proof.
  destruct new as [attrs|]; cbn [Class_set_attributes default].
  - intros (st & h0 & [_ ->]%read_Return_inv & Hrest)%bind_Return_inv.
    case_decide; [done|]. case_decide; [done|].
    apply bind_Return_inv in Hrest as ([] & h1 & Hloop & Hupd).
    apply update_class_inv in Hupd as (cls & EC1 & ->).
    destruct (owner_loop_inv _ _ _ _ Hloop) as [Hlen Hframe].
    assert (C ∉ attrs) as HC.
    { intros HC. destruct (Hframe C) as [_ Hin].
      destruct (Hin HC) as (p & _ & Ep). congruence. }
    exists cls. split_and!.
    + destruct (Hframe C) as [Hout _]. by rewrite <- Hout.
    + apply list_lookup_insert_eq. by eapply lookup_lt_Some.
    + intros i HiC Hi. rewrite list_lookup_insert_ne by done.
      by apply Hframe.
    + intros a Ha. destruct (Hframe a) as [_ Hin].
      destruct (Hin Ha) as (p & Ep & Ep').
      unfold get_owner. rewrite list_lookup_insert_ne by congruence.
      by rewrite Ep'.
  - intros (cls & EC & ->)%update_class_inv. exists cls. split_and!.
    + done.
    + apply list_lookup_insert_eq. by eapply lookup_lt_Some.
    + intros i HiC _. by rewrite list_lookup_insert_ne.
    + intros a Ha. by apply elem_of_nil in Ha.
Qed.

(** X6.  The [attributes] setter never clears an owner: when it
    returns, an attribute of the class that is not in the new collection
    (every attribute, when the argument is [None]) is no longer an
    attribute of the class and still has the class as its owner. *)
Theorem attributes_setter_keeps_old_owner h C cls new a h' :
  h !! C = Some (OClass cls) →
  a ∈ c_attributes cls →
  get_owner h a = Return (Some C) →
  a ∉ default [] new →
  Class_set_attributes C new h = (Return tt, h') →
  (∃ cls', h' !! C = Some (OClass cls') ∧ a ∉ c_attributes cls') ∧
  get_owner h' a = Return (Some C).
Proof.
  intros EC Ha Hown Hnew Hset.
  destruct (set_attributes_inv _ _ _ _ Hset) as (cls0 & EC0 & EC' & Hframe & _).
  split; [eauto|].
  assert (a ≠ C) as HaC.
  { intros ->. unfold get_owner in Hown. by rewrite EC in Hown. }
  unfold get_owner. by rewrite Hframe.
Qed.

Lemma attributes_setter_keeps_old_owner_witness :
  (∃ cls', (Class_set_attributes 9 None heap_two_ids).2 !! 9
           = Some (OClass cls') ∧ 10 ∉ c_attributes cls') ∧
  get_owner (Class_set_attributes 9 None heap_two_ids).2 10
  = Return (Some 9).
Proof.
  apply (attributes_setter_keeps_old_owner heap_two_ids 9
           (mkClass "Book" [10] [] false false [] []) None 10);
    [reflexivity| |reflexivity| |reflexivity].
  - apply list_elem_of_singleton. reflexivity.
  - apply not_elem_of_nil.
Defined.

(** X7.  [add_attribute] refuses a property whose name is the name of
    an attribute of the class, and then changes nothing.  Otherwise it
    puts the property among the attributes of the class and makes the
    class its owner; it never looks at [is_id], so the number of
    attributes marked as id grows by one with every such property
    added. *)
Theorem add_attribute_spec h C cls a p names :
  h !! C = Some (OClass cls) →
  h !! a = Some (OProperty p) →
  names_of h (c_attributes cls) = Return names →
  (p_name p ∈ names →
     Class_add_attribute C a h = (Raise (ValueError DuplicateName), h)) ∧
  (p_name p ∉ names →
     ∃ h' cls',
       Class_add_attribute C a h = (Return tt, h') ∧
       h' !! C = Some (OClass cls') ∧
       c_attributes cls' = c_attributes cls ++ [a] ∧
       h' !! a = Some (OProperty (set_p_owner p (Some C))) ∧
       id_count h' (c_attributes cls')
       = id_count h (c_attributes cls) + (if p_is_id p then 1 else 0)).
Proof.
  intros EC Ea Hn.
  assert (get_class h C = Return cls) as HC.
  { unfold get_class. by rewrite EC. }
  assert (get_name h a = Return (p_name p)) as Hname.
  { unfold get_name. by rewrite Ea. }
  unfold Class_add_attribute.
  assert (∀ B (f : Heap → Outcome B) b (k : B → Py unit),
            f h = Return b → bind (read f) k h = k b h) as Hread.
  { intros B f b k Hf. unfold bind, read. by rewrite Hf. }
  rewrite (Hread _ _ _ _ HC), (Hread _ _ _ _ Hname), (Hread _ _ _ _ Hn).
  split; intros Hin.
  - by rewrite decide_True.
  - rewrite decide_False by done.
    assert (C ≠ a) as HCa by congruence.
    assert (a ∉ c_attributes cls) as Hfresh.
    { intros Hin'. destruct (names_of_elem _ _ _ _ Hn Hin') as (n & Hn' & ?).
      congruence. }
    erewrite bind_eq
      by (apply set_owner_returns; [by eapply class_not_DataType|done]).
    erewrite update_class_eq by (by rewrite list_lookup_insert_ne).
    unfold PySet.add. rewrite decide_False by done.
    eexists _, _. split; [done|]. split_and!.
    + apply list_lookup_insert_eq. rewrite length_insert.
      by eapply lookup_lt_Some.
    + done.
    + rewrite list_lookup_insert_ne by done.
      apply list_lookup_insert_eq. by eapply lookup_lt_Some.
    + cbn [c_attributes set_c_attributes]. rewrite id_count_snoc.
      set (h' := <[C := _]> (<[a := _]> h)).
      assert (∀ i, get_is_id h' i = get_is_id h i) as Hext.
      { intros i. unfold get_is_id, h'.
        destruct (decide (i = C)) as [->|HiC].
        - rewrite list_lookup_insert_eq.
          + by rewrite EC.
          + rewrite length_insert. by eapply lookup_lt_Some.
        - rewrite list_lookup_insert_ne by done.
          destruct (decide (i = a)) as [->|Hia].
          + rewrite list_lookup_insert_eq by (by eapply lookup_lt_Some).
            by rewrite Ea.
          + by rewrite list_lookup_insert_ne. }
      rewrite (id_count_ext h h') by done. f_equal.
      unfold marked_id. rewrite Hext. unfold get_is_id. rewrite Ea.
      by destruct (p_is_id p).
Qed.

Lemma add_attribute_spec_witness :
  ("code"%string ∈ ["isbn"%string] →
     Class_add_attribute 9 11 heap_two_ids
     = (Raise (ValueError DuplicateName), heap_two_ids)) ∧
  ("code"%string ∉ ["isbn"%string] →
     ∃ h' cls',
       Class_add_attribute 9 11 heap_two_ids = (Return tt, h') ∧
       h' !! 9 = Some (OClass cls') ∧
       c_attributes cls' = [10] ++ [11] ∧
       h' !! 11
       = Some (OProperty
                 (set_p_owner
                    (mkProperty "code" "public" StringType None
                       default_multiplicity false true true false)
                    (Some 9))) ∧
       id_count h' (c_attributes cls') = id_count heap_two_ids [10] + 1).
Proof.
  apply (add_attribute_spec heap_two_ids 9
           (mkClass "Book" [10] [] false false [] []) 11
           (mkProperty "code" "public" StringType None
              default_multiplicity false true true false) ["isbn"%string]);
    reflexivity.
Defined.

(** The loop of [id_attribute] returns the first element marked as
    id. *)
Lemma first_id_filter h xs :
  all_properties h xs →
  first_id h xs = Return (head (filter (λ a, marked_id h a = true) xs)).
Proof.
  induction xs as [|a xs IH]; intros Hp; [done|].
  destruct (Hp a) as [p Ea]; [by left|].
  cbn [first_id]. rewrite filter_cons.
  assert (get_is_id h a = Return (p_is_id p)) as Hid.
  { unfold get_is_id. by rewrite Ea. }
  assert (marked_id h a = p_is_id p) as Hm.
  { unfold marked_id. rewrite Hid. by destruct (p_is_id p). }
  rewrite Hid. cbn [obind].
  destruct (p_is_id p).
  - by rewrite decide_True.
  - rewrite decide_False by (by rewrite Hm). apply IH.
    intros b Hb. apply Hp. by right.
Qed.

(** X8.  [id_attribute] of a class whose attributes are properties
    returns [None] when and only when no attribute is marked as id, and
    otherwise an attribute of the class that is marked as id.  When at
    most one attribute is marked, as the [attributes] setter requires,
    the result does not depend on the order in which the set of
    attributes is iterated. *)
Theorem id_attribute_spec h C cls :
  h !! C = Some (OClass cls) →
  all_properties h (c_attributes cls) →
  ∃ r, Class_id_attribute h C = Return r ∧
       (r = None ↔ id_count h (c_attributes cls) = 0) ∧
       (∀ a, r = Some a →
             a ∈ c_attributes cls ∧ get_is_id h a = Return true) ∧
       (id_count h (c_attributes cls) ≤ 1 →
        ∀ attrs', attrs' ≡ₚ c_attributes cls →
          Class_id_attribute
            (<[C := OClass (set_c_attributes cls attrs')]> h) C
          = Return r).
Proof.
  intros EC Hp.
  set (marked := filter (λ a, marked_id h a = true) (c_attributes cls)).
  exists (head marked).
  assert (∀ attrs',
            attrs' ≡ₚ c_attributes cls →
            Class_id_attribute
              (<[C := OClass (set_c_attributes cls attrs')]> h) C
            = Return (head (filter (λ a, marked_id h a = true) attrs')))
    as Hrun.
  { intros attrs' Hperm.
    set (h' := <[C := _]> h).
    assert (h' !! C = Some (OClass (set_c_attributes cls attrs'))) as EC'.
    { apply list_lookup_insert_eq. by eapply lookup_lt_Some. }
    assert (∀ i, i ≠ C → h' !! i = h !! i) as Hframe.
    { intros i Hi. unfold h'. by rewrite list_lookup_insert_ne. }
    assert (∀ i, get_is_id h' i = get_is_id h i) as Hext.
    { intros i. unfold get_is_id. destruct (decide (i = C)) as [->|Hi].
      - by rewrite EC', EC.
      - by rewrite Hframe. }
    unfold Class_id_attribute, get_class. rewrite EC'. cbn [obind].
    cbn [set_c_attributes c_attributes].
    rewrite first_id_filter.
    - do 2 f_equal. apply list_filter_iff. intros x. unfold marked_id.
      by rewrite Hext.
    - intros a Ha. rewrite Hperm in Ha. destruct (Hp a Ha) as [p Ea].
      exists p. rewrite Hframe; [done|]. congruence. }
  split_and!.
  - unfold Class_id_attribute, get_class. rewrite EC. cbn [obind].
    by apply first_id_filter.
  - unfold id_count. fold marked. destruct marked; simpl; split; done.
  - intros a Ha. apply head_Some_elem_of in Ha.
    apply list_elem_of_filter in Ha as [Hm Ha]. split; [done|].
    unfold marked_id in Hm.
    by destruct (get_is_id h a) as [[]|].
  - intros Hle attrs' Hperm. rewrite Hrun by done. do 2 f_equal.
    assert (filter (λ a, marked_id h a = true) attrs' ≡ₚ marked) as Hf.
    { unfold marked. by rewrite Hperm. }
    unfold id_count in Hle. fold marked in Hle.
    destruct marked as [|x [|y m]]; simpl in Hle; [| |lia].
    + by apply Permutation_nil_r in Hf as ->.
    + by apply Permutation_singleton_r in Hf as ->.
Qed.

Lemma id_attribute_spec_witness :
  ∃ r, Class_id_attribute heap_two_ids 9 = Return r ∧
       (r = None ↔ id_count heap_two_ids [10] = 0) ∧
       (∀ a, r = Some a →
             a ∈ [10] ∧ get_is_id heap_two_ids a = Return true) ∧
       (id_count heap_two_ids [10] ≤ 1 →
        ∀ attrs', attrs' ≡ₚ [10] →
          Class_id_attribute
            (<[9 := OClass (set_c_attributes
                              (mkClass "Book" [10] [] false false [] [])
                              attrs')]> heap_two_ids) 9
          = Return r).
Proof.
  apply (id_attribute_spec heap_two_ids 9
           (mkClass "Book" [10] [] false false [] [])); [reflexivity|].
  intros a ->%list_elem_of_singleton. eexists. reflexivity.
Defined.
End class_attributes.

(** ** Generalization: the links of the classes *)

Section generalization_links.
Implicit Types (h : Heap) (g G S c p : oid).

(** The specific setter on a generalization under construction. *)
Lemma set_specific_first h g G S cS :
  h !! g = Some (OGeneralization (Some G) None) →
  h !! S = Some (OClass cS) →
  S ≠ G →
  Generalization_set_specific g S h =
    (Return tt,
     <[g := OGeneralization (Some G) (Some S)]>
       (<[S := OClass (set_c_generalizations cS
                         (PySet.add g (c_generalizations cS)))]> h)).
Proof.
  intros Eg ES Hne.
  unfold Generalization_set_specific, read, get_generalization.
  unfold bind at 1. rewrite Eg. cbn [fst snd].
  rewrite decide_False by done.
  unfold bind at 1, ret at 1.
  unfold Class_add_generalization.
  erewrite bind_eq by (by apply update_class_eq).
  unfold update_generalization.
  assert (g ≠ S) by congruence.
  rewrite list_lookup_insert_ne by done. by rewrite Eg.
Qed.

(** The heap that the constructor builds on two distinct classes. *)
Lemma Generalization_init_heap h G S cG cS :
  h !! G = Some (OClass cG) →
  h !! S = Some (OClass cS) →
  G ≠ S →
  ∃ h', Generalization_init G S h = (Return (length h), h') ∧
        h' !! length h = Some (OGeneralization (Some G) (Some S)) ∧
        h' !! G = Some (OClass (set_c_generalizations cG
                     (PySet.add (length h) (c_generalizations cG)))) ∧
        h' !! S = Some (OClass (set_c_generalizations cS
                     (PySet.add (length h) (c_generalizations cS)))) ∧
        ∀ i, i ≠ length h → i ≠ G → i ≠ S → h' !! i = h !! i.
Proof.
  intros EG ES Hne.
  pose proof (lookup_lt_Some _ _ _ EG) as HG.
  pose proof (lookup_lt_Some _ _ _ ES) as HS.
  unfold Generalization_init.
  unfold bind at 1, alloc at 1.
  set (g := length h).
  set (h0 := h ++ [OGeneralization None None]).
  assert (h0 !! g = Some (OGeneralization None None)) as Eg
    by (by apply list_lookup_middle).
  assert (h0 !! G = Some (OClass cG)) as EG0 by (by apply lookup_app_l_Some).
  assert (h0 !! S = Some (OClass cS)) as ES0 by (by apply lookup_app_l_Some).
  assert (length h0 = Datatypes.S g) as Hlen.
  { unfold h0. rewrite length_app. simpl. unfold g. lia. }
  assert (g ≠ G) as HgG by (unfold g; lia).
  assert (g ≠ S) as HgS by (unfold g; lia).
  erewrite bind_eq by (by eapply set_general_first).
  erewrite bind_eq.
  2:{ eapply (set_specific_first _ g G S cS); [| |done].
      - apply list_lookup_insert_eq. rewrite length_insert, Hlen. lia.
      - by rewrite !list_lookup_insert_ne. }
  unfold ret. eexists. split; [done|]. split_and!.
  - apply list_lookup_insert_eq. rewrite !length_insert, Hlen. lia.
  - rewrite list_lookup_insert_ne by done.
    rewrite list_lookup_insert_ne by done.
    rewrite list_lookup_insert_ne by done.
    apply list_lookup_insert_eq. rewrite Hlen. unfold g. lia.
  - rewrite list_lookup_insert_ne by done.
    apply list_lookup_insert_eq. rewrite !length_insert, Hlen. unfold g. lia.
  - intros i Hig HiG HiS. rewrite !list_lookup_insert_ne by done.
    unfold h0. destruct (decide (i < length h)) as [Hlt|Hge].
    + by rewrite lookup_app_l.
    + rewrite !(proj2 (lookup_ge_None _ _)); [done|lia|].
      rewrite length_app. simpl. fold g. lia.
Qed.

(** X9.  [Generalization(G, S)] on two distinct classes returns the new
    generalization, whose general is [G] and whose specific is [S]; it
    is added to the generalizations of both classes and nothing else
    changes.  Exact back-references stay exact. *)
Theorem Generalization_init_links h G S cG cS :
  h !! G = Some (OClass cG) →
  h !! S = Some (OClass cS) →
  G ≠ S →
  ∃ h', Generalization_init G S h = (Return (length h), h') ∧
        h' !! length h = Some (OGeneralization (Some G) (Some S)) ∧
        h' !! G = Some (OClass (set_c_generalizations cG
                     (PySet.add (length h) (c_generalizations cG)))) ∧
        h' !! S = Some (OClass (set_c_generalizations cS
                     (PySet.add (length h) (c_generalizations cS)))) ∧
        (∀ i, i ≠ length h → i ≠ G → i ≠ S → h' !! i = h !! i) ∧
        (generalization_backrefs_exact h → generalization_backrefs_exact h').
Proof.
  intros EG ES Hne.
  destruct (Generalization_init_heap h G S cG cS EG ES Hne)
    as (h' & Hrun & Eg' & EG' & ES' & Hframe).
  exists h'. split_and!; try done.
  intros Hex c cls Ec g.
  pose proof (lookup_lt_Some _ _ _ EG) as HG.
  pose proof (lookup_lt_Some _ _ _ ES) as HS.
  assert (∀ g0 G0 S0, g0 ≠ length h →
            (h' !! g0 = Some (OGeneralization (Some G0) (Some S0)) ↔
             h !! g0 = Some (OGeneralization (Some G0) (Some S0)))) as Hold.
  { intros g0 G0 S0 Hg0.
    destruct (decide (g0 = G)) as [->|]; [rewrite EG', EG; by split|].
    destruct (decide (g0 = S)) as [->|]; [rewrite ES', ES; by split|].
    by rewrite Hframe. }
  assert (∀ cls0 c0, h !! c0 = Some (OClass cls0) →
            (g ∈ PySet.add (length h) (c_generalizations cls0) ↔
             g = length h ∨
             ∃ G0 S0, h' !! g = Some (OGeneralization (Some G0) (Some S0)) ∧
                      g ≠ length h ∧ (c0 = G0 ∨ c0 = S0))) as Hadd.
  { intros cls0 c0 Ec0. rewrite PySetFacts.elem_of_add, (Hex c0 cls0 Ec0).
    split.
    - intros [->|(G0 & S0 & Eg0 & Hc0)]; [by left|]. right.
      assert (g ≠ length h) as Hg.
      { apply lookup_lt_Some in Eg0. lia. }
      exists G0, S0. by rewrite Hold.
    - intros [->|(G0 & S0 & Eg0 & Hg & Hc0)]; [by left|]. right.
      exists G0, S0. by rewrite <- Hold. }
  destruct (decide (c = G)) as [->|HcG];
    [|destruct (decide (c = S)) as [->|HcS]].
  - rewrite EG' in Ec. injection Ec as <-. cbn [c_generalizations set_c_generalizations].
    rewrite (Hadd cG G EG). split.
    + intros [->|(G0 & S0 & ? & ? & ?)]; eauto.
    + intros (G0 & S0 & Eg0 & Hc0).
      destruct (decide (g = length h)) as [->|]; [by left|]. right. eauto.
  - rewrite ES' in Ec. injection Ec as <-. cbn [c_generalizations set_c_generalizations].
    rewrite (Hadd cS S ES). split.
    + intros [->|(G0 & S0 & ? & ? & ?)]; eauto.
    + intros (G0 & S0 & Eg0 & Hc0).
      destruct (decide (g = length h)) as [->|]; [by left|]. right. eauto.
  - assert (c ≠ length h) as Hcg.
    { intros ->. by rewrite Eg' in Ec. }
    rewrite Hframe in Ec by done. rewrite (Hex c cls Ec). split.
    + intros (G0 & S0 & Eg0 & Hc0). exists G0, S0. split; [|done].
      apply Hold; [|done]. apply lookup_lt_Some in Eg0. lia.
    + intros (G0 & S0 & Eg0 & Hc0).
      destruct (decide (g = length h)) as [->|Hg].
      * rewrite Eg' in Eg0. injection Eg0 as <- <-. by destruct Hc0.
      * exists G0, S0. by rewrite <- Hold.
Qed.

Lemma Generalization_init_links_witness :
  ∃ h', Generalization_init 9 10 heap_two_classes
        = (Return (length heap_two_classes), h') ∧
        h' !! length heap_two_classes
        = Some (OGeneralization (Some 9) (Some 10)) ∧
        h' !! 9 = Some (OClass (set_c_generalizations
                     (mkClass "A" [] [] false false [] [])
                     (PySet.add (length heap_two_classes) []))) ∧
        h' !! 10 = Some (OClass (set_c_generalizations
                     (mkClass "B" [] [] false false [] [])
                     (PySet.add (length heap_two_classes) []))) ∧
        (∀ i, i ≠ length heap_two_classes → i ≠ 9 → i ≠ 10 →
              h' !! i = heap_two_classes !! i) ∧
        (generalization_backrefs_exact heap_two_classes →
         generalization_backrefs_exact h').
Proof.
  apply (Generalization_init_links heap_two_classes 9 10
           (mkClass "A" [] [] false false [] [])
           (mkClass "B" [] [] false false [] []));
    [reflexivity|reflexivity|lia].
Defined.

(** The loop of [specializations]. *)
Lemma specializations_loop h c (gs : list oid) : ∀ start,
  (∀ g, g ∈ gs → ∃ s, get_specific h g = Return s) →
  ∃ r, ofoldl (λ specializations g,
                 obind (get_specific h g)
                   (λ specific,
                      Return (if decide (specific ≠ c)
                              then PySet.add specific specializations
                              else specializations)))
              start gs = Return r ∧
       ∀ s, s ∈ r ↔
            s ∈ start ∨
            (s ≠ c ∧ ∃ g, g ∈ gs ∧ get_specific h g = Return s).
Proof.
  induction gs as [|g gs IH]; intros start Hset; simpl.
  - exists start. split; [done|]. intros p. split; [auto|].
    intros [?|[_ (g & ?%elem_of_nil & _)]]; done.
  - destruct (Hset g) as [q Hq]; [by left|]. rewrite Hq. simpl.
    destruct (IH (if decide (q ≠ c) then PySet.add q start else start))
      as (r & -> & Hr).
    { intros g' Hg'. apply Hset. by right. }
    exists r. split; [done|]. intros p. rewrite Hr.
    setoid_rewrite elem_of_cons. case_decide as Hqc.
    + rewrite PySetFacts.elem_of_add. split.
      * intros [[->|?]|(? & g' & ? & ?)]; [right|by left|right]; eauto.
      * intros [?|(? & g' & [->|?] & Hg')]; [tauto| |right; eauto].
        left. left. congruence.
    + subst q. split.
      * intros [?|(? & g' & ? & ?)]; [by left|right; eauto].
      * intros [?|(? & g' & [->|?] & Hg')]; [tauto| |right; eauto].
        congruence.
Qed.

(** X10.  When the back-references are exact, [parents] and
    [specializations] return on every class and are converse: [p] is in
    [c.parents()] when and only when [c] is in [p.specializations()],
    that is when [p] and [c] are distinct and some generalization has
    general [p] and specific [c]. *)
Theorem parents_specializations_converse h c p cc pc :
  generalization_backrefs_exact h →
  h !! c = Some (OClass cc) →
  h !! p = Some (OClass pc) →
  ∃ ps ss, Class_parents h c = Return ps ∧
           Class_specializations h p = Return ss ∧
           (p ∈ ps ↔ c ∈ ss) ∧
           (p ∈ ps ↔
            p ≠ c ∧ ∃ g, h !! g = Some (OGeneralization (Some p) (Some c))).
Proof.
  intros Hex Ec Ep.
  destruct (Class_parents_local h c cc Ec) as (ps & Hps & Hin).
  { intros g Hg. apply (Hex c cc Ec) in Hg as (G & S & Eg & _).
    exists G. unfold get_general. by rewrite Eg. }
  destruct (specializations_loop h p (c_generalizations pc) [])
    as (ss & Hss & Hin').
  { intros g Hg. apply (Hex p pc Ep) in Hg as (G & S & Eg & _).
    exists S. unfold get_specific. by rewrite Eg. }
  exists ps, ss. split; [done|]. split.
  { unfold Class_specializations, get_class. rewrite Ep. exact Hss. }
  assert (p ∈ ps ↔
          p ≠ c ∧ ∃ g, h !! g = Some (OGeneralization (Some p) (Some c)))
    as Hparents.
  { rewrite Hin. split.
    - intros (Hne & g & Hg & Hgen). split; [done|]. exists g.
      apply (Hex c cc Ec) in Hg as (G & S & Eg & Hc).
      unfold get_general in Hgen. rewrite Eg in Hgen.
      injection Hgen as ->. destruct Hc as [->| ->]; done.
    - intros (Hne & g & Eg). split; [done|]. exists g. split.
      + apply (Hex c cc Ec). eauto.
      + unfold get_general. by rewrite Eg. }
  split; [|done]. rewrite Hparents, Hin', elem_of_nil. split.
  - intros (Hne & g & Eg). right. split; [done|]. exists g. split.
    + apply (Hex p pc Ep). eauto.
    + unfold get_specific. by rewrite Eg.
  - intros [[]|(Hne & g & Hg & Hspec)]. split; [done|]. exists g.
    apply (Hex p pc Ep) in Hg as (G & S & Eg & Hc).
    unfold get_specific in Hspec. rewrite Eg in Hspec.
    injection Hspec as ->. destruct Hc as [->| ->]; done.
Qed.

Lemma heap_A_B_exact : generalization_backrefs_exact heap_A_B.
Proof.
  intros c cls Ec g.
  assert (∀ G S, heap_A_B !! g = Some (OGeneralization (Some G) (Some S)) →
                 g = 11 ∧ G = 9 ∧ S = 10) as Hg.
  { intros G S Eg. do 11 (destruct g as [|g]; [done|]).
    destruct g as [|g]; [|by destruct g]. by injection Eg as <- <-. }
  do 9 (destruct c as [|c]; [done|]).
  destruct c as [|[|c]]; simpl in Ec.
  - injection Ec as <-. simpl. rewrite list_elem_of_singleton. split.
    + intros ->. exists 9, 10. by split; [|left].
    + by intros (G & S & (-> & _)%Hg & _).
  - injection Ec as <-. simpl. rewrite list_elem_of_singleton. split.
    + intros ->. exists 9, 10. by split; [|right].
    + by intros (G & S & (-> & _)%Hg & _).
  - destruct c as [|c]; [done|]. by destruct c.
Qed.

Lemma parents_specializations_converse_witness :
  ∃ ps ss, Class_parents heap_A_B 10 = Return ps ∧
           Class_specializations heap_A_B 9 = Return ss ∧
           (9 ∈ ps ↔ 10 ∈ ss) ∧
           (9 ∈ ps ↔
            9 ≠ 10 ∧
            ∃ g, heap_A_B !! g = Some (OGeneralization (Some 9) (Some 10))).
Proof.
  apply (parents_specializations_converse heap_A_B 10 9
           (mkClass "B" [] [] false false [] [11])
           (mkClass "A" [] [] false false [] [11]));
    [exact heap_A_B_exact|reflexivity|reflexivity].
Defined.

(** X11.  The general setter removes the generalization from the
    generalizations of the old general without looking at the specific:
    on a generalization whose general and specific are one class [X],
    the assignment of another general leaves [X] as the specific of a
    generalization that [X] no longer refers to, so the back-references
    are not exact any more. *)
Theorem general_setter_drops_specific_backref h g X B cX cB :
  h !! g = Some (OGeneralization (Some X) (Some X)) →
  h !! X = Some (OClass cX) →
  h !! B = Some (OClass cB) →
  B ≠ X →
  ∃ h', Generalization_set_general g B h = (Return tt, h') ∧
        h' !! g = Some (OGeneralization (Some B) (Some X)) ∧
        h' !! X = Some (OClass (set_c_generalizations cX
                     (PySet.discard g (c_generalizations cX)))) ∧
        h' !! B = Some (OClass (set_c_generalizations cB
                     (PySet.add g (c_generalizations cB)))) ∧
        ¬ generalization_backrefs_exact h'.
Proof.
  intros Eg EX EB Hne.
  assert (g ≠ X) as HgX by congruence.
  assert (g ≠ B) as HgB by congruence.
  pose proof (lookup_lt_Some _ _ _ Eg) as Hg.
  pose proof (lookup_lt_Some _ _ _ EX) as HX.
  pose proof (lookup_lt_Some _ _ _ EB) as HB.
  unfold Generalization_set_general, read, get_generalization.
  unfold bind at 1. rewrite Eg. cbn [fst snd].
  unfold Class_delete_generalization.
  erewrite bind_eq by (by apply update_class_eq).
  unfold Class_add_generalization.
  erewrite bind_eq
    by (apply update_class_eq; by rewrite list_lookup_insert_ne).
  unfold update_generalization.
  rewrite !list_lookup_insert_ne by done. rewrite Eg. cbn [fst snd].
  eexists. split; [done|].
  assert (∀ (l : Heap) o, length l = length h → <[g := o]> l !! g = Some o)
    as Hat_g.
  { intros l o Hl. apply list_lookup_insert_eq. lia. }
  split_and!.
  - apply Hat_g. by rewrite !length_insert.
  - rewrite list_lookup_insert_ne by done.
    rewrite list_lookup_insert_ne by done.
    by apply list_lookup_insert_eq.
  - rewrite list_lookup_insert_ne by done.
    apply list_lookup_insert_eq. by rewrite length_insert.
  - intros Hex.
    match goal with
    | Hex : generalization_backrefs_exact ?h' |- _ =>
        assert (h' !! X = Some (OClass (set_c_generalizations cX
                     (PySet.discard g (c_generalizations cX))))) as EX';
        [|assert (h' !! g = Some (OGeneralization (Some B) (Some X))) as Eg']
    end.
    { rewrite list_lookup_insert_ne by done.
      rewrite list_lookup_insert_ne by done.
      by apply list_lookup_insert_eq. }
    { apply Hat_g. by rewrite !length_insert. }
    assert (g ∈ PySet.discard g (c_generalizations cX)) as Hin.
    { apply (Hex X _ EX' g). exists B, X. split; [done|by right]. }
    apply PySetFacts.elem_of_discard in Hin as [? _]. done.
Qed.

Lemma general_setter_drops_specific_backref_witness :
  ∃ h', Generalization_set_general 11 9
          (Generalization_set_general 11 10 heap_A_B).2 = (Return tt, h') ∧
        h' !! 11 = Some (OGeneralization (Some 9) (Some 10)) ∧
        h' !! 10 = Some (OClass (set_c_generalizations
                     (mkClass "B" [] [] false false [] [11])
                     (PySet.discard 11 [11]))) ∧
        h' !! 9 = Some (OClass (set_c_generalizations
                     (mkClass "A" [] [] false false [] [])
                     (PySet.add 11 []))) ∧
        ¬ generalization_backrefs_exact h'.
Proof.
  apply (general_setter_drops_specific_backref
           (Generalization_set_general 11 10 heap_A_B).2 11 10 9
           (mkClass "B" [] [] false false [] [11])
           (mkClass "A" [] [] false false [] []));
    [reflexivity|reflexivity|reflexivity|lia].
Defined.

Lemma ofoldl_app {A B} (f : B → A → Outcome B) (b : B) (xs ys : list A) :
  ofoldl f b (xs ++ ys) = obind (ofoldl f b xs) (λ b', ofoldl f b' ys).
Proof.
  revert b. induction xs as [|x xs IH]; intros b; [done|].
  cbn [app ofoldl]. destruct (f b x) as [b'|e]; cbn [obind]; [apply IH|done].
Qed.

Lemma ofoldl_ext {A B} (f f' : B → A → Outcome B) (b : B) (xs : list A) :
  (∀ b x, x ∈ xs → f b x = f' b x) → ofoldl f b xs = ofoldl f' b xs.
Proof.
  revert b. induction xs as [|x xs IH]; intros b Hext; [done|].
  cbn [ofoldl]. rewrite (Hext b x) by (by left).
  destruct (f' b x) as [b'|e]; cbn [obind]; [|done].
  apply IH. intros b0 y Hy. apply Hext. by right.
Qed.

(** A loop whose turns raise nothing but [e] and whose last turn
    raises [e] raises [e]. *)
Lemma ofoldl_raises {A B} (f : B → A → Outcome B) (b : B) (xs : list A)
    (x : A) (e : Exception) :
  (∀ b y e', f b y = Raise e' → e' = e) →
  (∀ b, f b x = Raise e) →
  ofoldl f b (xs ++ [x]) = Raise e.
Proof.
  intros Honly Hlast. rewrite ofoldl_app.
  assert (∀ b e', ofoldl f b xs = Raise e' → e' = e) as Hxs.
  { clear b. induction xs as [|y xs IH]; intros b e'; [done|].
    cbn [ofoldl]. destruct (f b y) as [b'|e0] eqn:Ey; cbn [obind].
    - apply IH.
    - intros [= <-]. by eapply Honly. }
  destruct (ofoldl f b xs) as [b'|e'] eqn:E; cbn [obind].
  - cbn [ofoldl]. by rewrite Hlast.
  - f_equal. by eapply Hxs.
Qed.

(** X12.  After [Generalization(X, X)] has raised, [X.specializations()]
    raises an [AttributeError], because [X] refers to a generalization
    that has no specific, while [X.parents()] is what it was. *)
Theorem self_generalization_breaks_specializations h X cls :
  h !! X = Some (OClass cls) →
  length h ∉ c_generalizations cls →
  Class_specializations (Generalization_init X X h).2 X = Raise AttributeError ∧
  Class_parents (Generalization_init X X h).2 X = Class_parents h X.
Proof.
  intros EX Hfresh.
  pose proof (lookup_lt_Some _ _ _ EX) as HX.
  set (g := length h).
  set (h0 := h ++ [OGeneralization None None]).
  assert (h0 !! g = Some (OGeneralization None None)) as Eg
    by (by apply list_lookup_middle).
  assert (h0 !! X = Some (OClass cls)) as EX0 by (by apply lookup_app_l_Some).
  assert (g ≠ X) as HgX by (unfold g; lia).
  assert (length h0 = Datatypes.S g) as Hlen.
  { unfold h0. rewrite length_app. simpl. unfold g. lia. }
  set (h' := <[g := OGeneralization (Some X) None]>
               (<[X := OClass (set_c_generalizations cls
                                 (PySet.add g (c_generalizations cls)))]> h0)).
  assert (Generalization_init X X h
          = (Raise (ValueError SelfGeneralization), h')) as ->.
  { unfold Generalization_init. unfold bind at 1, alloc at 1.
    erewrite bind_eq by (by eapply set_general_first).
    erewrite bind_raise; [done|].
    eapply set_specific_self. apply list_lookup_insert_eq.
    rewrite length_insert. by eapply lookup_lt_Some. }
  cbn [snd].
  assert (h' !! g = Some (OGeneralization (Some X) None)) as Eg'.
  { apply list_lookup_insert_eq. rewrite length_insert, Hlen. lia. }
  assert (h' !! X = Some (OClass (set_c_generalizations cls
                           (c_generalizations cls ++ [g])))) as EX'.
  { unfold h'. rewrite list_lookup_insert_ne by done.
    unfold PySet.add. rewrite decide_False by done.
    apply list_lookup_insert_eq. rewrite Hlen. unfold g. lia. }
  split.
  - unfold Class_specializations, get_class. rewrite EX'.
    cbn [obind c_generalizations set_c_generalizations].
    apply ofoldl_raises.
    + intros b y e'. unfold get_specific.
      destruct (h' !! y) as [[| | | | | | | | |? [?|]| | |]|]; cbn [obind];
        by intros [= <-].
    + intros b. unfold get_specific. by rewrite Eg'.
  - unfold Class_parents, get_class. rewrite EX', EX.
    cbn [obind c_generalizations set_c_generalizations].
    rewrite ofoldl_app.
    rewrite (ofoldl_ext _
               (λ parents g0,
                  obind (get_general h g0)
                    (λ general,
                       Return (if decide (general ≠ X)
                               then PySet.add general parents
                               else parents)))).
    + destruct (ofoldl _ [] (c_generalizations cls)) as [r|e]; cbn [obind];
        [|done].
      cbn [ofoldl]. unfold get_general at 1. rewrite Eg'. cbn [obind].
      by rewrite decide_False by (by intros ?).
    + intros b g0 Hg0. f_equal. unfold get_general.
      assert (g0 ≠ g) as Hne by (by intros ->).
      unfold h'. rewrite list_lookup_insert_ne by done.
      destruct (decide (g0 = X)) as [->|HgX0].
      * rewrite list_lookup_insert_eq by (rewrite Hlen; unfold g; lia).
        by rewrite EX.
      * rewrite list_lookup_insert_ne by done. unfold h0.
        destruct (decide (g0 < length h)) as [Hlt|Hge].
        -- by rewrite lookup_app_l.
        -- rewrite !(proj2 (lookup_ge_None _ _)); [done|lia|].
           rewrite length_app. simpl. fold g. lia.
Qed.

Lemma self_generalization_breaks_specializations_witness :
  Class_specializations (Generalization_init 9 9 heap_X).2 9
  = Raise AttributeError ∧
  Class_parents (Generalization_init 9 9 heap_X).2 9
  = Class_parents heap_X 9.
Proof.
  apply (self_generalization_breaks_specializations heap_X 9
           (mkClass "X" [] [] false false [] [])); [reflexivity|].
  apply not_elem_of_nil.
Defined.
End generalization_links.

(** ** Association: what the setter of [ends] raises *)

Section ends_errors.
Implicit Types (h : Heap) (A e : oid) (ends : list oid) (err : Exception).

(** The outcome of a loop whose body keeps [I] when it returns and
    raises nothing but what [P] allows. *)
Lemma for_outcome {X} (I : Heap → Prop) (P : Exception → Prop)
    (body : X → Py unit) (xs : list X) :
  (∀ x h, I h → match body x h with
                | (Return _, h') => I h'
                | (Raise err, _) => P err
                end) →
  ∀ h, I h → match for_ xs body h with
             | (Return _, h') => I h'
             | (Raise err, _) => P err
             end.
Proof.
  intros Hbody. induction xs as [|x xs IH]; intros h Hh; [done|].
  cbn [for_]. unfold bind. specialize (Hbody x h Hh).
  destruct (body x h) as [[[]|e] h1]; [by apply IH|done].
Qed.

Lemma update_class_outcome A t f h :
  (∃ b n o, h !! A = Some (OAssociation b n o)) →
  match update_class t f h with
  | (Return _, h') => ∃ b n o, h' !! A = Some (OAssociation b n o)
  | (Raise err, _) => err = AttributeError
  end.
Proof.
  intros (b & n & o & EA). unfold update_class.
  destruct (h !! t) as [[]|] eqn:Et; try done.
  exists b, n, o. rewrite list_lookup_insert_ne by congruence. done.
Qed.

Lemma set_owner_outcome A e h :
  (∃ b n o, h !! A = Some (OAssociation b n o)) →
  match Property_set_owner e (Some A) h with
  | (Return _, h') => ∃ b n o, h' !! A = Some (OAssociation b n o)
  | (Raise err, _) => err = AttributeError
  end.
Proof.
  intros (b & n & o & EA).
  assert (isinstance_DataType h (Some A) = false) as Hno.
  { simpl. by rewrite EA. }
  unfold Property_set_owner, check_owner, bind, read. rewrite Hno.
  unfold ret. destruct (h !! e) as [[]|] eqn:Ee; try done.
  exists b, n, o. rewrite list_lookup_insert_ne by congruence. done.
Qed.

(** The body of the setter of [Association.ends], past the test of the
    length, returns or raises an [AttributeError]. *)
Lemma ends_body_outcome A ends h (old : option (list oid)) :
  (∃ b n o, h !! A = Some (OAssociation b n o)) →
  match
    (match old with
     | Some old =>
         for_ old (λ e, t <- read (λ h, get_type h e) ;;
                        Class_delete_association t A)
     | None => ret tt
     end ;;
     for_ ends (λ e, Property_set_owner e (Some A) ;;
                     t <- read (λ h, get_type h e) ;;
                     Class_add_association t A) ;;
     store_ends A ends)%py h
  with
  | (Return _, _) => True
  | (Raise err, _) => err = AttributeError
  end.
Proof.
  intros HA.
  set (I := λ h : Heap, ∃ b n o, h !! A = Some (OAssociation b n o)).
  set (delete := λ e, (t <- read (λ h, get_type h e) ;;
                       Class_delete_association t A)%py).
  set (add := λ e, (Property_set_owner e (Some A) ;;
                    t <- read (λ h, get_type h e) ;;
                    Class_add_association t A)%py).
  assert (∀ h0 e, match get_type h0 e with
                  | Return _ => True
                  | Raise err => err = AttributeError
                  end) as Htype.
  { intros h0 e. unfold get_type. by destruct (h0 !! e) as [[]|]. }
  assert (∀ h1, I h1 →
            match (for_ ends add ;; store_ends A ends)%py h1 with
            | (Return _, _) => True
            | (Raise err, _) => err = AttributeError
            end) as Hadd.
  { intros h1 Hh1. unfold bind.
    pose proof (for_outcome I (λ err : Exception, err = AttributeError)
                  add ends) as Hloop.
    lapply Hloop; clear Hloop.
    - intros Hloop. specialize (Hloop h1 Hh1).
      destruct (for_ ends add h1) as [[[]|err] h2]; [|done].
      unfold store_ends. by destruct (h2 !! A) as [[]|].
    - intros e h0 Hh0. unfold add. unfold bind at 1.
      pose proof (set_owner_outcome A e h0 Hh0) as Hown.
      destruct (Property_set_owner e (Some A) h0) as [[[]|err] h'];
        [|done].
      unfold bind, read.
      pose proof (Htype h' e) as Ht.
      destruct (get_type h' e) as [t|err]; [|done].
      by apply update_class_outcome. }
  destruct old as [old|].
  - unfold bind at 1.
    pose proof (for_outcome I (λ err : Exception, err = AttributeError)
                  delete old) as Hloop.
    lapply Hloop; clear Hloop.
    + intros Hloop. specialize (Hloop h HA).
      fold delete.
      destruct (for_ old delete h) as [[[]|err] h1]; [by apply Hadd|done].
    + intros e h0 Hh0. unfold delete, bind, read.
      pose proof (Htype h0 e) as Ht.
      destruct (get_type h0 e) as [t|err]; [|done].
      by apply update_class_outcome.
  - unfold bind at 1, ret at 1. by apply Hadd.
Qed.

Lemma get_is_composite_outcome h e :
  match get_is_composite h e with
  | Return _ => True
  | Raise e' => e' = AttributeError
  end.
Proof. unfold get_is_composite. by destruct (h !! e) as [[]|]. Qed.

(** X13.  The only [ValueError] of an assignment to [ends] is the
    refusal of the collection, before anything is changed: the heap is
    as it was, and the collection has at most one element or, for a
    binary association, not two elements or two composite ends. *)
Theorem set_ends_value_error h A ends k h' :
  Association_set_ends A ends h = (Raise (ValueError k), h') →
  k = ArityViolation ∧ h' = h ∧
  ∃ b n old, h !! A = Some (OAssociation b n old) ∧
    (length ends ≤ 1 ∨
     (b = true ∧
      (length ends ≠ 2 ∨
       ∀ e, e ∈ ends → get_is_composite h e = Return true))).
Proof.
  unfold Association_set_ends, get_association.
  unfold bind at 1, read at 1.
  destruct (h !! A) as [o|] eqn:EA; [|done].
  destruct o as [| | | | | | | |b n old| | | |]; try done.
  cbn [fst snd].
  assert (Association_ends_fset A ends h = (Raise (ValueError k), h') →
          k = ArityViolation ∧ h' = h ∧ length ends ≤ 1) as Hplain.
  { unfold Association_ends_fset. case_decide as Hlen.
    - by intros [= <- <-].
    - unfold bind at 1, read at 1, get_association. rewrite EA. cbn [snd].
      intros Hrun.
      assert (∃ b n o, h !! A = Some (OAssociation b n o)) as HA by eauto.
      pose proof (ends_body_outcome A ends h old HA) as Hout.
      rewrite Hrun in Hout. discriminate Hout. }
  destruct b.
  - intros Hrun. unfold BinaryAssociation_ends_fset in Hrun.
    destruct ends as [|e0 [|e1 [|e2 ends]]];
      try (injection Hrun as <- <-; split_and!; [done|done|];
           exists true, n, old; split; [done|]; right; split; [done|];
           left; simpl; lia).
    unfold bind at 1, read at 1 in Hrun.
    pose proof (get_is_composite_outcome h e0) as H0.
    destruct (get_is_composite h e0) as [c0|] eqn:E0;
      [|subst; discriminate Hrun].
    unfold bind at 1 in Hrun.
    destruct c0.
    + unfold read at 1 in Hrun.
      pose proof (get_is_composite_outcome h e1) as H1.
      destruct (get_is_composite h e1) as [c1|] eqn:E1;
        [|subst; discriminate Hrun].
      destruct c1; cbn [andb] in Hrun.
      * injection Hrun as <- <-. split_and!; [done|done|].
        exists true, n, old. split; [done|]. right. split; [done|]. right.
        intros e [->|[->|[]%elem_of_nil]%elem_of_cons]%elem_of_cons; done.
      * apply Hplain in Hrun as (_ & _ & Hlen). simpl in Hlen. lia.
    + unfold ret at 1 in Hrun. cbn [andb] in Hrun.
      apply Hplain in Hrun as (_ & _ & Hlen). simpl in Hlen. lia.
  - intros (-> & -> & Hlen)%Hplain. split_and!; [done|done|].
    exists false, n, old. split; [done|]. by left.
Qed.

Lemma set_ends_value_error_witness :
  ArityViolation = ArityViolation ∧ heap_assoc = heap_assoc ∧
  ∃ b n old, heap_assoc !! 15 = Some (OAssociation b n old) ∧
    (length [12] ≤ 1 ∨
     (b = true ∧
      (length [12] ≠ 2 ∨
       ∀ e, e ∈ [12] → get_is_composite heap_assoc e = Return true))).
Proof.
  apply (set_ends_value_error heap_assoc 15 [12] ArityViolation heap_assoc).
  reflexivity.
Defined.

(** An [AttributeError], on the contrary, can come after changes: the
    second element below is not a property, and when the setter reaches
    it the first end has been rewired. *)
Example set_ends_attribute_error_after_changes :
  ∃ h', Association_set_ends 15 [14; 0] heap_assoc = (Raise AttributeError, h') ∧
        get_owner heap_assoc 14 = Return None ∧
        get_owner h' 14 = Return (Some 15).
Proof. eexists. split_and!; reflexivity. Qed.
End ends_errors.

(** ** Class.all_association_ends *)

Section all_association_ends.
Implicit Types (h : Heap) (C p e : oid).

(** A loop that accumulates the union of the sets [f p]. *)
Lemma union_loop (f : oid → Outcome (list oid)) (l : list oid) : ∀ start,
  (∀ p, p ∈ l → ∃ s, f p = Return s) →
  ∃ r, ofoldl (λ acc p, obind (f p) (λ s, Return (PySet.update acc s)))
              start l = Return r ∧
       ∀ e, e ∈ r ↔ e ∈ start ∨ ∃ p s, p ∈ l ∧ f p = Return s ∧ e ∈ s.
Proof.
  induction l as [|p l IH]; intros start Hret; cbn [ofoldl].
  - exists start. split; [done|]. intros e. split; [auto|].
    intros [?|(p & ? & ?%elem_of_nil & _)]; done.
  - destruct (Hret p) as [s Hs]; [by left|]. rewrite Hs. cbn [obind].
    destruct (IH (PySet.update start s)) as (r & -> & Hr).
    { intros p' Hp'. apply Hret. by right. }
    exists r. split; [done|]. intros e.
    rewrite Hr, PySetFacts.elem_of_update.
    setoid_rewrite elem_of_cons. split.
    + intros [[?|?]|(p' & s' & ? & ? & ?)];
        [by left|right|right]; eauto 8.
    + intros [?|(p' & s' & [->|?] & Hs' & ?)]; [tauto| |right; eauto 8].
      left. right. congruence.
Qed.

Lemma Class_association_ends_returns h C cls :
  associations_built h → h !! C = Some (OClass cls) →
  ∃ r, Class_association_ends h C = Return r.
Proof.
  intros Hb EC. unfold Class_association_ends, get_class. rewrite EC.
  cbn [obind]. apply association_ends_returns.
  intros B HB. by eapply Hb.
Qed.

(** X14.  For a class [C] that reaches no cycle of generalizations, in
    a heap whose associations are built, [C.all_association_ends()]
    returns, and holds exactly the ends that [association_ends] returns
    for [C] and for the classes in [C.all_parents()]. *)
Theorem all_association_ends_union h C cls :
  h !! C = Some (OClass cls) →
  generalizations_built h →
  associations_built h →
  acyclic_from h C →
  ∃ n, ∀ fuel, n ≤ fuel →
    ∃ P E S,
      Class_all_parents fuel h C = Return P ∧
      Class_association_ends h C = Return E ∧
      Class_all_association_ends fuel h C = Return S ∧
      (∀ e, e ∈ S ↔
            e ∈ E ∨
            ∃ p Ep, p ∈ P ∧ Class_association_ends h p = Return Ep ∧
                    e ∈ Ep).
Proof.
  intros EC Hb Ha Hacyc. exists (length h). intros fuel Hfuel.
  destruct (all_parents_terminates h C Hb Hacyc fuel [] C cls)
    as (P & HP & HPin); try done.
  { constructor. }
  { apply not_elem_of_nil. }
  { by intros s ?%elem_of_nil. }
  { simpl. lia. }
  destruct (Class_association_ends_returns h C cls Ha EC) as [E HE].
  destruct (union_loop (Class_association_ends h) P E) as (S & HS & HSin).
  { intros p Hp. apply HPin in Hp.
    destruct (tc_parent_class h C p Hb Hp) as [pc Epc].
    by eapply Class_association_ends_returns. }
  exists P, E, S. split_and!; [done|done| |done].
  unfold Class_all_association_ends. rewrite HE. cbn [obind].
  rewrite HP. cbn [obind]. exact HS.
Qed.

Lemma heap_chain_associations_built : associations_built heap_chain.
Proof.
  intros c cls B Ec HB.
  do 9 (destruct c as [|c]; [done|]).
  destruct c as [|[|[|c]]]; simpl in Ec;
    try (injection Ec as <-; by apply elem_of_nil in HB).
  do 6 (destruct c as [|c]; [done|]). by destruct c.
Qed.

Lemma all_association_ends_union_witness :
  ∃ n, ∀ fuel, n ≤ fuel →
    ∃ P E S,
      Class_all_parents fuel heap_chain 11 = Return P ∧
      Class_association_ends heap_chain 11 = Return E ∧
      Class_all_association_ends fuel heap_chain 11 = Return S ∧
      (∀ e, e ∈ S ↔
            e ∈ E ∨
            ∃ p Ep, p ∈ P ∧ Class_association_ends heap_chain p = Return Ep ∧
                    e ∈ Ep).
Proof.
  apply (all_association_ends_union heap_chain 11
           (mkClass "C" [16] [] false false [] [13])).
  - reflexivity.
  - exact heap_chain_built.
  - exact heap_chain_associations_built.
  - apply heap_chain_acyclic.
Defined.
End all_association_ends.

(** ** DomainModel: lookup by name *)

Section lookup_by_name.
Implicit Types (h : Heap) (M t : oid) (xs types : list oid)
  (names : list string) (n : string).

Lemma first_named_found h xs : ∀ names t n,
  names_of h xs = Return names → NoDup names →
  t ∈ xs → get_name h t = Return n →
  first_named h n xs = Return (Some t).
Proof.
  induction xs as [|x xs IH]; intros names t n Hn Hnd Ht Hname.
  - by apply elem_of_nil in Ht.
  - apply names_of_cons in Hn as (m & ns & Hx & Hns & ->).
    apply NoDup_cons in Hnd as [Hm Hnd].
    cbn [first_named]. rewrite Hx. cbn [obind].
    apply elem_of_cons in Ht as [->|Ht].
    + assert (m = n) as -> by congruence. by rewrite decide_True.
    + destruct (names_of_elem _ _ _ _ Hns Ht) as (n' & Hn' & Hin).
      assert (n' = n) as -> by congruence.
      rewrite decide_False by (by intros ->). by eapply IH.
Qed.

Lemma first_named_absent h xs : ∀ names n,
  names_of h xs = Return names → n ∉ names →
  first_named h n xs = Return None.
Proof.
  induction xs as [|x xs IH]; intros names n Hn Hout; [done|].
  apply names_of_cons in Hn as (m & ns & Hx & Hns & ->).
  apply not_elem_of_cons in Hout as [Hne Hout].
  cbn [first_named]. rewrite Hx. cbn [obind].
  rewrite decide_False by done. by eapply IH.
Qed.

Lemma first_class_named_absent h xs : ∀ names n,
  names_of h xs = Return names → n ∉ names →
  first_class_named h n xs = Return None.
Proof.
  induction xs as [|x xs IH]; intros names n Hn Hout; [done|].
  apply names_of_cons in Hn as (m & ns & Hx & Hns & ->).
  apply not_elem_of_cons in Hout as [Hne Hout].
  cbn [first_class_named]. rewrite Hx. cbn [obind].
  rewrite decide_False by done.
  destruct (isinstance_Class h x); by eapply IH.
Qed.

Lemma first_named_ext h h' n xs :
  (∀ i, get_name h' i = get_name h i) →
  first_named h' n xs = first_named h n xs.
Proof.
  intros Hext. induction xs as [|x xs IH]; [done|].
  cbn [first_named]. by rewrite Hext, IH.
Qed.

Lemma get_name_update_model h M mo s i :
  h !! M = Some (ODomainModel mo) →
  get_name (<[M := ODomainModel (set_dm_types s mo)]> h) i = get_name h i.
Proof.
  intros EM. unfold get_name. rewrite list_lookup_insert.
  case_decide as Hi; [|done]. destruct Hi as [-> _]. by rewrite EM.
Qed.

Lemma update_model_inv h M f h' :
  update_model M f h = (Return tt, h') →
  ∃ mo, h !! M = Some (ODomainModel mo) ∧ h' = <[M := ODomainModel (f mo)]> h.
Proof.
  unfold update_model. destruct (h !! M) as [[]|]; try done.
  intros [= <-]. eauto.
Qed.

(** What the [types] setter has done when it returns. *)
Lemma set_types_inv h M types h' :
  DomainModel_set_types M types h = (Return tt, h') →
  ∃ mo names,
    h !! M = Some (ODomainModel mo) ∧
    h' = <[M := ODomainModel
                  (set_dm_types (PySet.update types primitive_data_types) mo)]> h ∧
    names_of h (PySet.update types primitive_data_types) = Return names ∧
    NoDup names.
Proof.
  unfold DomainModel_set_types.
  intros (names & h0 & [Hn ->]%read_Return_inv & Hrest)%bind_Return_inv.
  destruct (has_duplicates names) eqn:Hd; [done|].
  apply update_model_inv in Hrest as (mo & EM & ->).
  exists mo, names. split_and!; try done. by apply has_duplicates_false.
Qed.

(** X15.  Lookup after assignment: once the [types] setter has
    returned, [get_type_by_name] finds every type of the collection and
    every primitive type under its name, and returns [None] for a name
    that none of them has. *)
Theorem get_type_by_name_after_set h M types h' :
  DomainModel_set_types M types h = (Return tt, h') →
  (∀ t n, t ∈ types ∨ t ∈ primitive_data_types →
          get_name h t = Return n →
          DomainModel_get_type_by_name h' M n = Return (Some t)) ∧
  (∀ n, (∀ t, t ∈ types ∨ t ∈ primitive_data_types →
              get_name h t ≠ Return n) →
        DomainModel_get_type_by_name h' M n = Return None).
Proof.
  intros (mo & names & EM & -> & Hn & Hnd)%set_types_inv.
  set (stored := PySet.update types primitive_data_types) in *.
  assert (∀ n, DomainModel_get_type_by_name
                 (<[M := ODomainModel (set_dm_types stored mo)]> h) M n
               = first_named h n stored) as Hrun.
  { intros n. unfold DomainModel_get_type_by_name, get_model.
    rewrite list_lookup_insert_eq by (by eapply lookup_lt_Some).
    cbn [obind dm_types set_dm_types].
    apply first_named_ext. intros i. by apply get_name_update_model. }
  split.
  - intros t n Ht Hname. rewrite Hrun.
    eapply first_named_found; [done|done| |done].
    by apply PySetFacts.elem_of_update.
  - intros n Hnone. rewrite Hrun.
    eapply first_named_absent; [done|].
    intros Hin. apply list_elem_of_lookup in Hin as [i Hi].
    assert (∃ t, stored !! i = Some t ∧ get_name h t = Return n)
      as (t & Ht & Hname).
    { clear -Hn Hi. revert names i Hn Hi.
      induction stored as [|x xs IH]; intros names i Hn Hi.
      - injection Hn as <-. done.
      - apply names_of_cons in Hn as (m & ns & Hx & Hns & ->).
        destruct i as [|i].
        + injection Hi as ->. by exists x.
        + destruct (IH ns i Hns Hi) as (t & ? & ?). by exists t. }
    apply (Hnone t); [|done].
    apply PySetFacts.elem_of_update. by eapply list_elem_of_lookup_2.
Qed.

Lemma get_type_by_name_after_set_witness :
  (∀ t n, t ∈ [10] ∨ t ∈ primitive_data_types →
          get_name heap_two_books t = Return n →
          DomainModel_get_type_by_name
            (DomainModel_set_types 9 [10] heap_two_books).2 9 n
          = Return (Some t)) ∧
  (∀ n, (∀ t, t ∈ [10] ∨ t ∈ primitive_data_types →
              get_name heap_two_books t ≠ Return n) →
        DomainModel_get_type_by_name
          (DomainModel_set_types 9 [10] heap_two_books).2 9 n
        = Return None).
Proof.
  apply (get_type_by_name_after_set heap_two_books 9 [10]). reflexivity.
Defined.

Lemma update_subset {A} `{EqDecision A} (s t : list A) :
  (∀ x, x ∈ t → x ∈ s) → PySet.update s t = s.
Proof.
  unfold PySet.update. induction t as [|x t IH]; intros Hsub; [done|].
  cbn [foldl]. unfold PySet.add at 2.
  rewrite decide_True by (apply Hsub; by left).
  apply IH. intros y Hy. apply Hsub. by right.
Qed.

Lemma set_dm_types_id mo : set_dm_types (dm_types mo) mo = mo.
Proof. by destruct mo. Qed.

(** X16.  [add_type] on a model that holds the primitive types and
    whose types have distinct names: a type that the model holds is
    accepted and changes nothing; a type that it does not hold is
    refused, the model unchanged, when its name is taken, and is added
    otherwise. *)
Theorem add_type_spec h M mo t n names :
  h !! M = Some (ODomainModel mo) →
  (∀ p, p ∈ primitive_data_types → p ∈ dm_types mo) →
  names_of h (dm_types mo) = Return names →
  NoDup names →
  get_name h t = Return n →
  (t ∈ dm_types mo → DomainModel_add_type M t h = (Return tt, h)) ∧
  (t ∉ dm_types mo → n ∈ names →
     DomainModel_add_type M t h = (Raise (ValueError DuplicateName), h)) ∧
  (t ∉ dm_types mo → n ∉ names →
     DomainModel_add_type M t h
     = (Return tt,
        <[M := ODomainModel (set_dm_types (dm_types mo ++ [t]) mo)]> h)).
Proof.
  intros EM Hprim Hn Hnd Hname.
  assert (∀ stored ns,
            (∀ p, p ∈ primitive_data_types → p ∈ stored) →
            names_of h stored = Return ns →
            DomainModel_set_types M stored h
            = if has_duplicates ns
              then (Raise (ValueError DuplicateName), h)
              else (Return tt,
                    <[M := ODomainModel (set_dm_types stored mo)]> h))
    as Hset.
  { intros stored ns Hsub Hns. unfold DomainModel_set_types.
    rewrite (update_subset stored primitive_data_types Hsub).
    unfold bind, read. rewrite Hns.
    destruct (has_duplicates ns); [done|]. by apply update_model_eq. }
  unfold DomainModel_add_type, bind, read, get_model. rewrite EM.
  cbn [PySet.update foldl].
  split_and!.
  - intros Hin. unfold PySet.add. rewrite decide_True by done.
    rewrite (Hset _ names) by done.
    rewrite (proj2 (has_duplicates_false names)) by done.
    rewrite set_dm_types_id. by rewrite list_insert_id.
  - intros Hout Hin. unfold PySet.add. rewrite decide_False by done.
    rewrite (Hset _ (names ++ [n])).
    + rewrite (proj2 (has_duplicates_true _)); [done|].
      rewrite NoDup_app. intros (_ & Hdis & _).
      apply (Hdis n Hin). by left.
    + intros p Hp. apply elem_of_app. left. by apply Hprim.
    + by apply names_of_snoc.
  - intros Hout Hfree. unfold PySet.add. rewrite decide_False by done.
    rewrite (Hset _ (names ++ [n])).
    + rewrite (proj2 (has_duplicates_false _)); [done|].
      rewrite NoDup_app. split_and!; [done| |apply NoDup_singleton].
      by intros m Hm ->%list_elem_of_singleton.
    + intros p Hp. apply elem_of_app. left. by apply Hprim.
    + by apply names_of_snoc.
Qed.

Lemma heap_chain_type_names :
  names_of heap_chain ([11; 9; 10] ++ primitive_data_types)
  = Return ["C"; "A"; "B"; "str"; "int"; "float"; "bool"; "time"; "date";
            "datetime"; "timedelta"]%string.
Proof. reflexivity. Qed.

Lemma heap_chain_names_distinct :
  NoDup ["C"; "A"; "B"; "str"; "int"; "float"; "bool"; "time"; "date";
         "datetime"; "timedelta"]%string.
Proof. apply (bool_decide_unpack _). vm_compute. exact I. Qed.

Lemma add_type_spec_witness :
  (9 ∈ [11; 9; 10] ++ primitive_data_types →
     DomainModel_add_type 17 9 heap_chain = (Return tt, heap_chain)) ∧
  (9 ∉ [11; 9; 10] ++ primitive_data_types →
   "A"%string ∈ ["C"; "A"; "B"; "str"; "int"; "float"; "bool"; "time";
                 "date"; "datetime"; "timedelta"]%string →
     DomainModel_add_type 17 9 heap_chain
     = (Raise (ValueError DuplicateName), heap_chain)) ∧
  (9 ∉ [11; 9; 10] ++ primitive_data_types →
   "A"%string ∉ ["C"; "A"; "B"; "str"; "int"; "float"; "bool"; "time";
                 "date"; "datetime"; "timedelta"]%string →
     DomainModel_add_type 17 9 heap_chain
     = (Return tt,
        <[17 := ODomainModel
                  (set_dm_types
                     (([11; 9; 10] ++ primitive_data_types) ++ [9])
                     (mkDomainModel "library"
                        ([11; 9; 10] ++ primitive_data_types)
                        [] [12; 13] [] []))]> heap_chain)).
Proof.
  apply (add_type_spec heap_chain 17
           (mkDomainModel "library" ([11; 9; 10] ++ primitive_data_types)
              [] [12; 13] [] [])
           9 "A"
           ["C"; "A"; "B"; "str"; "int"; "float"; "bool"; "time"; "date";
            "datetime"; "timedelta"]%string).
  - reflexivity.
  - intros p Hp. cbn [dm_types]. apply elem_of_app. by right.
  - exact heap_chain_type_names.
  - exact heap_chain_names_distinct.
  - reflexivity.
Defined.

(** X17.  In a model whose types have distinct names,
    [get_class_by_name] returns the type that [get_type_by_name] returns
    when that type is a class, and [None] when it is not or when there
    is none. *)
Theorem get_class_by_name_agrees h M mo names n :
  h !! M = Some (ODomainModel mo) →
  names_of h (dm_types mo) = Return names →
  NoDup names →
  ∃ r, DomainModel_get_type_by_name h M n = Return r ∧
       DomainModel_get_class_by_name h M n
       = Return (match r with
                 | Some t => if isinstance_Class h t then Some t else None
                 | None => None
                 end).
Proof.
  intros EM Hn Hnd.
  unfold DomainModel_get_type_by_name, DomainModel_get_class_by_name,
    get_model.
  rewrite EM. cbn [obind]. clear EM.
  revert names Hn Hnd.
  induction (dm_types mo) as [|x xs IH]; intros names Hn Hnd.
  - by exists None.
  - apply names_of_cons in Hn as (m & ns & Hx & Hns & ->).
    apply NoDup_cons in Hnd as [Hm Hnd].
    cbn [first_named first_class_named]. rewrite Hx. cbn [obind].
    destruct (decide (m = n)) as [->|Hne].
    + exists (Some x). split; [done|].
      destruct (isinstance_Class h x); [done|].
      by eapply first_class_named_absent.
    + destruct (IH ns Hns Hnd) as (r & Hr & Hr').
      exists r. split; [done|]. by destruct (isinstance_Class h x).
Qed.
Lemma get_class_by_name_agrees_witness :
  ∃ r, DomainModel_get_type_by_name heap_chain 17 "A" = Return r ∧
       DomainModel_get_class_by_name heap_chain 17 "A"
       = Return (match r with
                 | Some t =>
                     if isinstance_Class heap_chain t then Some t else None
                 | None => None
                 end).
Proof.
  apply (get_class_by_name_agrees heap_chain 17
           (mkDomainModel "library" ([11; 9; 10] ++ primitive_data_types)
              [] [12; 13] [] [])
           ["C"; "A"; "B"; "str"; "int"; "float"; "bool"; "time"; "date";
            "datetime"; "timedelta"]%string).
  - reflexivity.
  - exact heap_chain_type_names.
  - exact heap_chain_names_distinct.
Defined.
End lookup_by_name.

(** ** DomainModel: add_association and add_generalization *)

Section model_add.
Implicit Types (h : Heap) (M a g : oid) (names : list string).

Lemma set_dm_associations_id mo :
  set_dm_associations (dm_associations mo) mo = mo.
Proof. by destruct mo. Qed.

(** X18.  [add_association] on a model whose associations have
    distinct names: an association that the model holds is accepted and
    changes nothing; one that it does not hold is refused, the model
    unchanged, when its name is taken, and is added otherwise.
    [add_generalization] checks nothing: it adds whatever it is
    given. *)
Theorem add_association_spec h M mo a n names :
  h !! M = Some (ODomainModel mo) →
  names_of h (dm_associations mo) = Return names →
  NoDup names →
  get_name h a = Return n →
  (a ∈ dm_associations mo →
     DomainModel_add_association M a h = (Return tt, h)) ∧
  (a ∉ dm_associations mo → n ∈ names →
     DomainModel_add_association M a h
     = (Raise (ValueError DuplicateName), h)) ∧
  (a ∉ dm_associations mo → n ∉ names →
     DomainModel_add_association M a h
     = (Return tt,
        <[M := ODomainModel
                 (set_dm_associations (dm_associations mo ++ [a]) mo)]> h)) ∧
  (∀ g, DomainModel_add_generalization M g h
        = (Return tt,
           <[M := ODomainModel
                    (set_dm_generalizations
                       (PySet.add g (dm_generalizations mo)) mo)]> h)).
Proof.
  intros EM Hn Hnd Hname.
  assert (∀ stored ns,
            names_of h stored = Return ns →
            DomainModel_set_associations M (Some stored) h
            = if has_duplicates ns
              then (Raise (ValueError DuplicateName), h)
              else (Return tt,
                    <[M := ODomainModel (set_dm_associations stored mo)]> h))
    as Hset.
  { intros stored ns Hns. unfold DomainModel_set_associations.
    unfold bind, read. rewrite Hns.
    destruct (has_duplicates ns); [done|]. by apply update_model_eq. }
  unfold DomainModel_add_association, DomainModel_add_generalization,
    bind, read, get_model.
  rewrite EM. cbn [PySet.update foldl].
  split_and!.
  - intros Hin. unfold PySet.add. rewrite decide_True by done.
    rewrite (Hset _ names) by done.
    rewrite (proj2 (has_duplicates_false names)) by done.
    rewrite set_dm_associations_id. by rewrite list_insert_id.
  - intros Hout Hin. unfold PySet.add. rewrite decide_False by done.
    rewrite (Hset _ (names ++ [n])) by (by apply names_of_snoc).
    rewrite (proj2 (has_duplicates_true _)); [done|].
    rewrite NoDup_app. intros (_ & Hdis & _).
    apply (Hdis n Hin). by left.
  - intros Hout Hfree. unfold PySet.add. rewrite decide_False by done.
    rewrite (Hset _ (names ++ [n])) by (by apply names_of_snoc).
    rewrite (proj2 (has_duplicates_false _)); [done|].
    rewrite NoDup_app. split_and!; [done| |apply NoDup_singleton].
    by intros m' Hm ->%list_elem_of_singleton.
  - intros g. unfold DomainModel_set_generalizations.
    by apply update_model_eq.
Qed.

Lemma add_association_spec_witness :
  (15 ∈ @nil nat →
     DomainModel_add_association 16 15 heap_assoc_model
     = (Return tt, heap_assoc_model)) ∧
  (15 ∉ @nil nat → "wrote"%string ∈ @nil string →
     DomainModel_add_association 16 15 heap_assoc_model
     = (Raise (ValueError DuplicateName), heap_assoc_model)) ∧
  (15 ∉ @nil nat → "wrote"%string ∉ @nil string →
     DomainModel_add_association 16 15 heap_assoc_model
     = (Return tt,
        <[16 := ODomainModel
                  (set_dm_associations ([] ++ [15])
                     (mkDomainModel "m" [] [] [] [] []))]>
          heap_assoc_model)) ∧
  (∀ g, DomainModel_add_generalization 16 g heap_assoc_model
        = (Return tt,
           <[16 := ODomainModel
                     (set_dm_generalizations (PySet.add g [])
                        (mkDomainModel "m" [] [] [] [] []))]>
             heap_assoc_model)).
Proof.
  apply (add_association_spec heap_assoc_model 16
           (mkDomainModel "m" [] [] [] [] []) 15 "wrote" []);
    [reflexivity|reflexivity|constructor|reflexivity].
Defined.
End model_add.

(** ** DomainModel.classes_sorted_by_inheritance: a parent outside the
    model *)

Section parent_outside.
Implicit Types (h : Heap) (m c p g : oid).

(** The outcome of a reading loop whose turns keep [I] when they return
    and raise nothing but what [P] allows. *)
Lemma ofoldl_outcome {X Y} (I : Y → Prop) (P : Exception → Prop)
    (f : Y → X → Outcome Y) (xs : list X) :
  (∀ b x, x ∈ xs → I b → match f b x with
                         | Return b' => I b'
                         | Raise err => P err
                         end) →
  ∀ b, I b → match ofoldl f b xs with
             | Return b' => I b'
             | Raise err => P err
             end.
Proof.
  induction xs as [|x xs IH]; intros Hf b Hb; [done|].
  cbn [ofoldl]. pose proof (Hf b x ltac:(by left) Hb) as Hx.
  destruct (f b x) as [b'|err]; cbn [obind]; [|done].
  apply IH; [|done]. intros b0 y Hy. apply Hf. by right.
Qed.

(** Such a loop raises when one of its turns cannot return. *)
Lemma ofoldl_must_raise {X Y} (I : Y → Prop) (e : Exception)
    (f : Y → X → Outcome Y) (xs : list X) (x : X) :
  x ∈ xs →
  (∀ b y, y ∈ xs → I b → match f b y with
                         | Return b' => I b'
                         | Raise err => err = e
                         end) →
  (∀ b, I b → ∃ err, f b x = Raise err) →
  ∀ b, I b → ofoldl f b xs = Raise e.
Proof.
  intros Hx Hf Hraise. induction xs as [|y xs IH]; intros b Hb.
  - by apply elem_of_nil in Hx.
  - cbn [ofoldl]. pose proof (Hf b y ltac:(by left) Hb) as Hy.
    destruct (f b y) as [b'|err] eqn:Ey; cbn [obind]; [|by subst].
    apply elem_of_cons in Hx as [->|Hx].
    + destruct (Hraise b Hb) as [err Herr]. congruence.
    + apply IH; [done| |done]. intros b0 z Hz. apply Hf. by right.
Qed.

(** X19.  When a class of the model has a generalization whose general
    is not among the types of the model, [classes_sorted_by_inheritance]
    raises a [KeyError], whatever the order of the sets and the depth of
    recursion allowed. *)
Theorem classes_sorted_parent_outside (set_order : list oid → list oid)
    (fuel : nat) h m (mo : DomainModelObj) c (cls : ClassObj) g p :
  (∀ l, set_order l ≡ₚ l) →
  h !! m = Some (ODomainModel mo) →
  generalizations_built h →
  c ∈ dm_types mo →
  h !! c = Some (OClass cls) →
  g ∈ c_generalizations cls →
  get_general h g = Return p →
  p ∉ dm_types mo →
  DomainModel_classes_sorted_by_inheritance set_order fuel h m
  = Raise KeyError.
Proof.
  intros Hperm Em Hb Hc Ec Hg Hgen Hp.
  set (classes := filter (λ i, isinstance_Class h i = true) (dm_types mo)).
  set (U := set_order classes).
  assert (∀ x, x ∈ U ↔ x ∈ dm_types mo ∧ isinstance_Class h x = true) as HU.
  { intros x. unfold U. rewrite Hperm. unfold classes.
    rewrite list_elem_of_filter. tauto. }
  assert (c ∈ U) as HcU.
  { apply HU. split; [done|]. unfold isinstance_Class. by rewrite Ec. }
  assert (p ∉ U) as HpU.
  { intros [? _]%HU. done. }
  unfold DomainModel_classes_sorted_by_inheritance, DomainModel_get_classes,
    get_model.
  rewrite Em. cbn [obind]. fold classes. fold U.
  set (I := λ cm : gmap nat (list oid), ∀ k, is_Some (cm !! k) ↔ k ∈ U).
  assert (build_child_map h U = Raise KeyError) as ->; [|done].
  assert (∀ cl cls', h !! cl = Some (OClass cls') →
          ∀ cm g', I cm → g' ∈ c_generalizations cls' →
            match obind (get_general h g')
                    (λ general, child_map_add cm general cl) with
            | Return cm' => I cm'
            | Raise err => err = KeyError
            end) as Hinner.
  { intros cl cls' Ecl cm g' Hcm Hg'.
    destruct (Hb cl cls' g' Ecl Hg') as (p' & _ & -> & _).
    cbn [obind]. unfold child_map_add.
    destruct (cm !! p') as [s|] eqn:Es; [|done].
    intros k. rewrite <- (Hcm k).
    destruct (decide (k = p')) as [->|Hne].
    - rewrite lookup_insert_eq, Es. split; eauto.
    - by rewrite lookup_insert_ne. }
  unfold build_child_map.
  apply (ofoldl_must_raise I KeyError _ U c).
  - done.
  - intros cm cl [_ Hcl]%HU Hcm.
    unfold isinstance_Class in Hcl.
    destruct (h !! cl) as [[| |cls'| | | | | | | | | |]|] eqn:Ecl; try done.
    unfold get_class. rewrite Ecl. cbn [obind].
    apply (ofoldl_outcome I (λ err, err = KeyError)); [|done].
    intros cm' g' Hg' Hcm'. by apply (Hinner cl cls' Ecl).
  - intros cm Hcm. unfold get_class. rewrite Ec. cbn [obind].
    exists KeyError.
    apply (ofoldl_must_raise I KeyError _ (c_generalizations cls) g).
    + done.
    + intros cm' g' Hg' Hcm'.
      by apply (Hinner c cls Ec).
    + intros cm' Hcm'. rewrite Hgen. cbn [obind]. unfold child_map_add.
      destruct (cm' !! p) as [s|] eqn:Es; [|eauto].
      destruct HpU. apply Hcm'. eauto.
    + done.
  - intros k. rewrite child_map_init_lookup.
    case_decide; split; try done; try (by intros [? ?]); eauto.
Qed.

Lemma heap_parent_outside_built : generalizations_built heap_parent_outside.
Proof.
  intros c cls g Ec Hg.
  do 9 (destruct c as [|c]; [done|]).
  destruct c as [|[|c]]; simpl in Ec.
  - injection Ec as <-. simpl in Hg.
    apply list_elem_of_singleton in Hg as ->. by eexists _, _.
  - injection Ec as <-. simpl in Hg.
    apply list_elem_of_singleton in Hg as ->. by eexists _, _.
  - do 2 (destruct c as [|c]; [done|]). by destruct c.
Qed.

Lemma classes_sorted_parent_outside_witness :
  DomainModel_classes_sorted_by_inheritance id 0 heap_parent_outside 12
  = Raise KeyError.
Proof.
  apply (classes_sorted_parent_outside id 0 heap_parent_outside 12
           (mkDomainModel "m" ([10] ++ primitive_data_types) [] [11] [] [])
           10 (mkClass "B" [] [] false false [] [11]) 11 9).
  - done.
  - reflexivity.
  - exact heap_parent_outside_built.
  - by left.
  - reflexivity.
  - by left.
  - reflexivity.
  - apply (bool_decide_unpack _). vm_compute. exact I.
Defined.
End parent_outside.
